(** * SomeReactAndroidApp: the client's list filtering, number formatting,
      map bridge and login flow, and the backend schema, embedded in Rocq.

    JavaScript strings are sequences of UTF-16 code units, JavaScript numbers
    are IEEE 754 binary64 values (Rocq's primitive floats), React state is a
    record threaded through the handlers, and what a handler does to the outside
    world (alerts, callbacks, storage writes, navigation) is a log of effects. *)

From Stdlib Require Import ZArith NArith List Bool Lia String Ascii Floats.
From stdpp Require Import base decidable list strings gmap.

Import ListNotations.
Local Open Scope Z_scope.

Set Warnings "-register-all".

(** ** JavaScript strings *)

Abbreviation char16 := N (only parsing).
Abbreviation jsstring := (list N) (only parsing).

Module JSString.

(** The UTF-16 code units of a text given by its UTF-8 bytes. *)
Fixpoint decodeUtf8 (bytes : list N) : jsstring :=
  match bytes with
  | [] => []
  | b :: rest =>
      if (b <? 128)%N then b :: decodeUtf8 rest
      else if (b <? 224)%N then
        match rest with
        | c :: rest' => ((b - 192) * 64 + (c - 128))%N :: decodeUtf8 rest'
        | [] => []
        end
      else if (b <? 240)%N then
        match rest with
        | c :: d :: rest' =>
            ((b - 224) * 4096 + (c - 128) * 64 + (d - 128))%N :: decodeUtf8 rest'
        | _ => []
        end
      else
        match rest with
        | c :: d :: e :: rest' =>
            let cp := ((b - 240) * 262144 + (c - 128) * 4096
                       + (d - 128) * 64 + (e - 128) - 65536)%N in
            (55296 + cp / 1024)%N :: (56320 + cp mod 1024)%N :: decodeUtf8 rest'
        | _ => []
        end
  end.

(** A string literal of the source. *)
Definition lit (s : string) : jsstring :=
  decodeUtf8 (List.map N_of_ascii (list_ascii_of_string s)).

(** ECMAScript's WhiteSpace and LineTerminator code points: what
    [String.prototype.trim] strips and what the regular expression class
    [\s] matches. *)
Definition isWhiteSpace (c : char16) : bool :=
  ((9 <=? c) && (c <=? 13) || (c =? 32) || (c =? 160) || (c =? 5760)
   || (8192 <=? c) && (c <=? 8202) || (c =? 8232) || (c =? 8233)
   || (c =? 8239) || (c =? 8287) || (c =? 12288) || (c =? 65279))%N.

Fixpoint trimStart (s : jsstring) : jsstring :=
  match s with
  | c :: s' => if isWhiteSpace c then trimStart s' else s
  | [] => []
  end.

Definition trimEnd (s : jsstring) : jsstring := rev (trimStart (rev s)).

(** [s.trim()] *)
Definition trim (s : jsstring) : jsstring := trimEnd (trimStart s).

(** The lower-case partner of a code unit, for the alphabets the
    application's texts are written in: Basic Latin, Latin-1 and the Russian
    and neighbouring capitals of the Cyrillic block, U+0400 to U+042F. Every
    other code unit is kept, among them the capitals of other alphabets. *)
Definition lowerChar (c : char16) : char16 :=
  (if (65 <=? c) && (c <=? 90) then c + 32
   else if (192 <=? c) && (c <=? 222) && negb (c =? 215) then c + 32
   else if (1024 <=? c) && (c <=? 1039) then c + 80
   else if (1040 <=? c) && (c <=? 1071) then c + 32
   else c)%N.

(** [s.toLowerCase()] *)
Definition toLowerCase (s : jsstring) : jsstring := List.map lowerChar s.

(** [a === b] on two strings. *)
Definition streq (a b : jsstring) : bool := bool_decide (a = b).

Fixpoint startsWith (s p : jsstring) {struct p} : bool :=
  match p, s with
  | [], _ => true
  | c :: p', d :: s' => (c =? d)%N && startsWith s' p'
  | _ :: _, [] => false
  end.

(** [s.includes(p)] *)
Fixpoint includes (s p : jsstring) : bool :=
  startsWith s p ||
  match s with
  | [] => false
  | _ :: s' => includes s' p
  end.

(** [s.endsWith(p)] *)
Definition endsWith (s p : jsstring) : bool := startsWith (rev s) (rev p).

(** [parts.join(sep)] *)
Fixpoint join (sep : jsstring) (parts : list jsstring) : jsstring :=
  match parts with
  | [] => []
  | [p] => p
  | p :: rest => p ++ sep ++ join sep rest
  end.

(** [s.replace(p, r)] with a string pattern: the first occurrence only. *)
Fixpoint replaceFirst (s p r : jsstring) : jsstring :=
  if startsWith s p then r ++ drop (length p) s
  else match s with
       | [] => []
       | c :: s' => c :: replaceFirst s' p r
       end.

(** [s.replace(/\s+/g, '')] *)
Definition removeWhiteSpace (s : jsstring) : jsstring :=
  List.filter (fun c => negb (isWhiteSpace c)) s.

(** [s.slice(0, -1)] *)
Definition dropLast (s : jsstring) : jsstring := take (length s - 1)%nat s.

(** A JavaScript string is falsy exactly when it is empty. *)
Definition truthy (s : jsstring) : bool :=
  match s with [] => false | _ => true end.

End JSString.

Import JSString.

(** ** JavaScript numbers: IEEE 754 binary64 *)

Module JSNumber.

(** The double nearest to [p / q] (ties to even) with the given sign, for
    [0 <= p] and [0 < q]: the division of the Standard Library's
    specification of binary64, run on integers of any size. *)
Definition roundRatio (neg : bool) (p q : Z) : float :=
  let '(m, e, l) := SFdiv_core_binary prec emax p 0 q 0 in
  SF2Prim (binary_round_aux prec emax neg m e l).

(** The double nearest to an integer. *)
Definition ofZ (z : Z) : float := roundRatio (z <? 0) (Z.abs z) 1.

(** The exact value of a finite double, as [(negative, m, e)] for
    [m * 2^e]; [None] for NaN and the infinities. *)
Definition exact (x : float) : option (bool * Z * Z) :=
  match Prim2SF x with
  | S754_zero s => Some (s, 0, 0)
  | S754_finite s m e => Some (s, Z.pos m, e)
  | S754_infinity _ | S754_nan => None
  end.

(** [Number.isFinite(x)] *)
Definition isFinite (x : float) : bool := PrimFloat.is_finite x.

(** A JavaScript number is falsy exactly when it is [0], [-0] or [NaN]. *)
Definition truthy (x : float) : bool := negb (PrimFloat.is_zero x || PrimFloat.is_nan x).

(** A shift record whose mantissa is not negative and at most [bound]. *)
Definition shifted (bound : Z) (mrs : shr_record) : Prop :=
  0 <= shr_m mrs <= bound.

(** *** Decimal digits *)

Definition isDigit (c : char16) : bool := ((48 <=? c) && (c <=? 57))%N.

Definition digitValue (c : char16) : Z := Z.of_N c - 48.

(** The value of a string of decimal digits. *)
Definition digitsValue (ds : jsstring) : Z :=
  fold_left (fun acc c => 10 * acc + digitValue c) ds 0.

(** The decimal digits of a natural number, without leading zeros (["0"] for
    zero). *)
Fixpoint decimalAux (fuel : nat) (n : N) (acc : jsstring) : jsstring :=
  match fuel with
  | O => acc
  | S fuel' =>
      let acc' := (48 + n mod 10)%N :: acc in
      if (n / 10 =? 0)%N then acc' else decimalAux fuel' (n / 10)%N acc'
  end.

Definition decimal (n : N) : jsstring :=
  decimalAux (S (N.to_nat (N.log2 n))) n [].

Fixpoint takeDigits (s : jsstring) : jsstring * jsstring :=
  match s with
  | c :: s' =>
      if isDigit c then let '(ds, rest) := takeDigits s' in (c :: ds, rest)
      else ([], s)
  | [] => ([], [])
  end.

(** *** [parseFloat] *)

(** An optional sign: whether it is a minus, and what follows it. *)
Definition takeSign (s : jsstring) : bool * jsstring :=
  match s with
  | 45%N :: s' => (true, s')
  | 43%N :: s' => (false, s')
  | _ => (false, s)
  end.

(** The exponent part at the head of [s], if there is a whole one: [e] or
    [E], an optional sign, and at least one digit. *)
Definition takeExponent (s : jsstring) : Z :=
  match s with
  | c :: s' =>
      if ((c =? 101) || (c =? 69))%N then
        let '(neg, s'') := takeSign s' in
        match fst (takeDigits s'') with
        | [] => 0
        | ds => if neg then - digitsValue ds else digitsValue ds
        end
      else 0
  | [] => 0
  end.

(** [parseFloat(s)]: the value of the longest prefix of [s], after leading
    white space, that is a decimal literal ([StrDecimalLiteral]), and [NaN]
    when no prefix is one. *)
Definition parseFloat (s : jsstring) : float :=
  let '(neg, body) := takeSign (trimStart s) in
  if startsWith body (lit "Infinity") then
    (if neg then neg_infinity else infinity)
  else
    let '(ints, rest) := takeDigits body in
    let '(fracs, rest') :=
      match rest with
      | 46%N :: r => takeDigits r
      | _ => ([], rest)
      end in
    match ints ++ fracs with
    | [] => nan
    | ds =>
        let e := takeExponent rest' - Z.of_nat (length fracs) in
        roundRatio neg (digitsValue ds * 10 ^ Z.max e 0) (10 ^ Z.max (- e) 0)
    end.

(** *** [Number::toString] *)

(** Whether [vp / vq < 10^n]. *)
Definition belowPow10 (vp vq n : Z) : bool :=
  vp * 10 ^ Z.max (- n) 0 <? 10 ^ Z.max n 0 * vq.

Fixpoint searchExponent (fuel : nat) (vp vq n : Z) : Z :=
  match fuel with
  | O => n
  | S fuel' => if belowPow10 vp vq n then n else searchExponent fuel' vp vq (n + 1)
  end.

(** The [n] with [10^(n-1) <= vp / vq < 10^n], for [0 < vp / vq]. *)
Definition decimalExponent (vp vq : Z) : Z :=
  searchExponent 4 vp vq ((Z.log2 vp - Z.log2 vq) * 30103 / 100000 - 1).

(** The check of that estimate against the powers themselves, one binary
    digit more at each step: [p2] is [2^l], [e] is [l * 30103 / 100000] and
    [p10] is [10^(e-2)]. A number of [l + 1] binary digits is at least [2^l]
    and below [2^(l+1)], so the search, which starts at [e - 1] and looks at
    four exponents, finds the number of decimal digits when
    [10^(e-2) <= 2^l] and [2^(l+1) <= 10^(e+3)]. *)
Definition estimateStep (st : Z * Z * Z * Z * bool) : Z * Z * Z * Z * bool :=
  let '(l, p2, e, p10, ok) := st in
  let e' := (l + 1) * 30103 / 100000 in
  let p10' := if e' =? e then p10 else 10 * p10 in
  (l + 1, 2 * p2, e', p10',
   ok && (p10' <=? 2 * p2) && (2 * (2 * p2) <=? 100000 * p10')).

(** The check from 8 binary digits on, [count] times. *)
Definition estimateChecked (count : nat) : bool :=
  snd (Nat.iter count estimateStep (7, 128, 2, 1, true)).

(** The shortest digits: the least [k] and an [s] of [k] digits such that
    [s * 10^(n-k)] rounds to [x], the closest such [s] when there are two.
    [vp / vq] is the exact value of [x]; [fuel] counts the lengths still to
    try. The decimal expansion of a double ends, after 767 digits at most,
    and all of its digits do round to [x]. *)
Fixpoint shortestDigits (fuel : nat) (x : float) (vp vq n k : Z) : Z * Z * Z :=
  let up := 10 ^ Z.max (n - k) 0 in
  let down := 10 ^ Z.max (k - n) 0 in
  let lo := (vp * down) / (vq * up) in
  let hi := lo + 1 in
  let ok c := (0 <? c) && (roundRatio false (c * up) down =? x)%float in
  let nearerLo := 2 * vp * down <=? (2 * lo + 1) * up * vq in
  let found c := if c =? 10 ^ k then (1, 1, n + 1) else (c, k, n) in
  match fuel with
  | O => found (if nearerLo then lo else hi)
  | S fuel' =>
      if ok lo && (nearerLo || negb (ok hi)) then found lo
      else if ok hi then found hi
      else shortestDigits fuel' x vp vq n (k + 1)
  end.

Definition zeros (n : Z) : jsstring := repeat 48%N (Z.to_nat n).

Definition signedExponent (e : Z) : jsstring :=
  (if e <? 0 then lit "-" else lit "+") ++ decimal (Z.to_N (Z.abs e)).

(** [String(x)], [x.toString()] *)
Definition toString (x : float) : jsstring :=
  match exact x with
  | None =>
      if PrimFloat.is_nan x then lit "NaN"
      else if (x <? 0)%float then lit "-Infinity" else lit "Infinity"
  | Some (_, 0, _) => lit "0"
  | Some (neg, m, e) =>
      let vp := m * 2 ^ Z.max e 0 in
      let vq := 2 ^ Z.max (- e) 0 in
      let '(s, k, n) :=
        shortestDigits 767 (PrimFloat.abs x) vp vq (decimalExponent vp vq) 1 in
      let ds := decimal (Z.to_N s) in
      (if neg then lit "-" else []) ++
      (if (k <=? n) && (n <=? 21) then ds ++ zeros (n - k)
       else if (0 <? n) && (n <=? 21) then
         take (Z.to_nat n) ds ++ lit "." ++ drop (Z.to_nat n) ds
       else if (-6 <? n) && (n <=? 0) then lit "0." ++ zeros (- n) ++ ds
       else if k =? 1 then ds ++ lit "e" ++ signedExponent (n - 1)
       else take 1 ds ++ lit "." ++ drop 1 ds ++ lit "e" ++ signedExponent (n - 1))
  end.

(** *** [Number.prototype.toFixed] *)

(** [x.toFixed(f)]: the exact value of [x] rounded to [f] decimals, a tie
    going up, in fixed notation; from [10^21] on, and for [NaN] and the
    infinities, [String(x)]. *)
Definition toFixed (x : float) (f : nat) : jsstring :=
  match exact x with
  | None => toString x
  | Some (neg, m, e) =>
      if (1e21 <=? PrimFloat.abs x)%float then toString x
      else
        let scaled := m * 10 ^ Z.of_nat f in
        let n := if 0 <=? e then scaled * 2 ^ e
                 else (2 * scaled + 2 ^ (- e)) / 2 ^ (1 - e) in
        let ds := decimal (Z.to_N n) in
        let ds := repeat 48%N (S f - length ds) ++ ds in
        let k := length ds in
        (if (x <? 0)%float then lit "-" else []) ++
        (if Nat.eqb f 0 then ds
         else take (k - f) ds ++ lit "." ++ drop (k - f) ds)
  end.

(** *** [Intl.NumberFormat('ru-RU').format] *)

(** The no-break space that separates groups of three digits in Russian. *)
Definition nbsp : jsstring := [160%N].

(** How the Russian locale writes NaN: two words with a no-break space
    between them. *)
Definition ruNaN : jsstring := Eval vm_compute in lit "не" ++ nbsp ++ lit "число".

Fixpoint groupDigits (fuel : nat) (n : N) : jsstring :=
  match fuel with
  | O => decimal n
  | S fuel' =>
      if (n <? 1000)%N then decimal n
      else
        let low := decimal (n mod 1000) in
        groupDigits fuel' (n / 1000) ++ nbsp
          ++ repeat 48%N (3 - length low) ++ low
  end.

Fixpoint stripTrailingZeros (rds : jsstring) : jsstring :=
  match rds with
  | 48%N :: rds' => stripTrailingZeros rds'
  | _ => rds
  end.

(** The decimal style with the locale's defaults. The number is taken by
    its shortest decimal form, the digits that [String] writes, and that
    decimal is written with at most three fraction digits (a tie going away
    from zero), a decimal comma, and groups of three. *)
Definition formatRu (x : float) : jsstring :=
  match exact x with
  | None =>
      if PrimFloat.is_nan x then ruNaN
      else (if (x <? 0)%float then lit "-" else []) ++ [8734%N]
  | Some (neg, m, e) =>
      let vp := m * 2 ^ Z.max e 0 in
      let vq := 2 ^ Z.max (- e) 0 in
      let '(s, k, n) :=
        if m =? 0 then (0, 1, 1)
        else shortestDigits 767 (PrimFloat.abs x) vp vq (decimalExponent vp vq) 1 in
      let thousandths :=
        if 0 <=? n - k + 3 then s * 10 ^ (n - k + 3)
        else (2 * s + 10 ^ (k - n - 3)) / (2 * 10 ^ (k - n - 3)) in
      let low := decimal (Z.to_N (thousandths mod 1000)) in
      let frac :=
        rev (stripTrailingZeros (rev (repeat 48%N (3 - length low) ++ low))) in
      (if neg then lit "-" else []) ++
      groupDigits (Z.to_nat (Z.log2 thousandths)) (Z.to_N (thousandths / 1000)) ++
      (match frac with [] => [] | _ => lit "," ++ frac end)
  end.

(** *** Integers that are doubles *)

(** An integer is a double when it is a mantissa of at most 53 bits times a
    power of two, up to the largest finite double [(2^53 - 1) * 2^971]. *)
Definition representable (n : Z) : Prop :=
  exists m e, n = m * 2 ^ e /\ Z.abs m < 2 ^ 53 /\ 0 <= e <= 971.

(** The value [m * 2^e] of a finite double, counted in units of [2^-1074],
    the smallest positive double: an integer whatever the double. *)
Definition ulps (m e : Z) : Z := m * 2 ^ (e + 1074).

End JSNumber.


(** ** The content model ([constants/content.ts]) *)

Record WorkingHours := { wh_label : jsstring; wh_value : jsstring }.

Record Review := {
  review_id : jsstring;
  review_author : jsstring;
  review_comment : jsstring;
  review_rating : float;
  review_date : jsstring
}.

Record ContactInfo := {
  contact_label : jsstring;
  contact_value : jsstring;
  contact_icon : jsstring
}.

(** [type NumericValue = number | string] *)
Inductive NumericValue :=
| NumV (x : float)
| StrV (s : jsstring).

Module Post.
Record t := {
  id : jsstring;
  user : jsstring;
  userAvatar : jsstring;
  userHandle : jsstring;
  place : jsstring;
  address : jsstring;
  image : jsstring;
  gallery : list jsstring;
  likes : NumericValue;
  totalLikes : NumericValue;
  followers : NumericValue;
  rating : float;
  tags : list jsstring;
  bio : jsstring;
  workingHours : list WorkingHours;
  reviews : list Review;
  contact : list ContactInfo
}.
End Post.

(** [NormalizedPost = Omit<Post, 'likes' | 'totalLikes' | 'followers'> &
    { uid: string; likes: number; totalLikes: number; followers: number }] *)
Module NormalizedPost.
Record t := {
  id : jsstring;
  user : jsstring;
  userAvatar : jsstring;
  userHandle : jsstring;
  place : jsstring;
  address : jsstring;
  image : jsstring;
  gallery : list jsstring;
  rating : float;
  tags : list jsstring;
  bio : jsstring;
  workingHours : list WorkingHours;
  reviews : list Review;
  contact : list ContactInfo;
  uid : jsstring;
  likes : float;
  totalLikes : float;
  followers : float
}.
End NormalizedPost.

(** The suffixes of the compact notation, for millions and thousands. *)
Definition mln : jsstring := Eval vm_compute in lit "млн".
Definition tys : jsstring := Eval vm_compute in lit "тыс".

Module Content.
Import JSNumber.

Definition parseNumericValue (value : NumericValue) : float :=
  match value with
  | NumV x => x
  | StrV s =>
      let str := toLowerCase (trim s) in
      let str := replaceFirst (removeWhiteSpace str) (lit ",") (lit ".") in
      let '(multiplier, str) :=
        if includes str mln then (1000000%float, replaceFirst str mln [])
        else if includes str tys then (1000%float, replaceFirst str tys [])
        else if endsWith str (lit "k") then (1000%float, dropLast str)
        else (1%float, str) in
      let parsed := parseFloat str in
      if isFinite parsed then (parsed * multiplier)%float else 0%float
  end.

Definition normalizePost (post : Post.t) (index : nat) : NormalizedPost.t :=
  {| NormalizedPost.id := Post.id post;
     NormalizedPost.user := Post.user post;
     NormalizedPost.userAvatar := Post.userAvatar post;
     NormalizedPost.userHandle := Post.userHandle post;
     NormalizedPost.place := Post.place post;
     NormalizedPost.address := Post.address post;
     NormalizedPost.image := Post.image post;
     NormalizedPost.gallery := Post.gallery post;
     NormalizedPost.rating := Post.rating post;
     NormalizedPost.tags := Post.tags post;
     NormalizedPost.bio := Post.bio post;
     NormalizedPost.workingHours := Post.workingHours post;
     NormalizedPost.reviews := Post.reviews post;
     NormalizedPost.contact := Post.contact post;
     NormalizedPost.uid := Post.id post ++ lit "-" ++ decimal (N.of_nat index);
     NormalizedPost.likes := parseNumericValue (Post.likes post);
     NormalizedPost.totalLikes := parseNumericValue (Post.totalLikes post);
     NormalizedPost.followers := parseNumericValue (Post.followers post) |}.

(** [list.map((post, index) => normalizePost(post, index))] *)
Fixpoint normalizeFrom (index : nat) (posts : list Post.t)
  : list NormalizedPost.t :=
  match posts with
  | [] => []
  | post :: rest => normalizePost post index :: normalizeFrom (S index) rest
  end.

Definition normalizePosts (posts : list Post.t) : list NormalizedPost.t :=
  normalizeFrom 0 posts.

(** What [normalizePosts] is meant to do to the post at [index]: every
    field is the post's, except [uid], which is the post's id, a hyphen and
    the index, and the three counters, which are parsed. *)
Definition normalizedFrom (post : Post.t) (index : nat) (np : NormalizedPost.t)
  : Prop :=
  NormalizedPost.id np = Post.id post
  /\ NormalizedPost.user np = Post.user post
  /\ NormalizedPost.userAvatar np = Post.userAvatar post
  /\ NormalizedPost.userHandle np = Post.userHandle post
  /\ NormalizedPost.place np = Post.place post
  /\ NormalizedPost.address np = Post.address post
  /\ NormalizedPost.image np = Post.image post
  /\ NormalizedPost.gallery np = Post.gallery post
  /\ NormalizedPost.rating np = Post.rating post
  /\ NormalizedPost.tags np = Post.tags post
  /\ NormalizedPost.bio np = Post.bio post
  /\ NormalizedPost.workingHours np = Post.workingHours post
  /\ NormalizedPost.reviews np = Post.reviews post
  /\ NormalizedPost.contact np = Post.contact post
  /\ NormalizedPost.uid np = Post.id post ++ lit "-" ++ decimal (N.of_nat index)
  /\ NormalizedPost.likes np = parseNumericValue (Post.likes post)
  /\ NormalizedPost.totalLikes np = parseNumericValue (Post.totalLikes post)
  /\ NormalizedPost.followers np = parseNumericValue (Post.followers post).

(** [parseNumericValue] as it is described: a number is returned as it is; a
    string is trimmed, lower-cased, stripped of white space, its first comma
    made a dot; the suffix decides the multiplier; what is left is parsed, and
    anything that is not a finite number counts as zero. *)
Definition scaledOrZero (remaining : jsstring) (multiplier : float) : float :=
  if isFinite (parseFloat remaining) then (parseFloat remaining * multiplier)%float
  else 0%float.

Definition describedNumericValue (value : NumericValue) : float :=
  match value with
  | NumV x => x
  | StrV s =>
      let text :=
        replaceFirst (removeWhiteSpace (toLowerCase (trim s))) (lit ",") (lit ".") in
      if includes text mln then scaledOrZero (replaceFirst text mln []) 1000000
      else if includes text tys then scaledOrZero (replaceFirst text tys []) 1000
      else if endsWith text (lit "k") then scaledOrZero (dropLast text) 1000
      else scaledOrZero text 1
  end.

(** [n] is [x] in tenths, rounded: the integer nearest to [10 * x], the
    larger of the two when [10 * x] lies half-way. *)
Definition nearestTenth (x : float) (n : Z) : Prop :=
  match exact x with
  | Some (_, m, e) =>
      (2 * n - 1) * 2 ^ Z.max (- e) 0 <= 20 * m * 2 ^ Z.max e 0
      /\ 20 * m * 2 ^ Z.max e 0 < (2 * n + 1) * 2 ^ Z.max (- e) 0
  | None => False
  end.

(** A number of tenths written with one decimal, the decimal point a
    comma, and no decimal at all when it would be zero. *)
Definition writeTenths (n : Z) : jsstring :=
  decimal (Z.to_N (n / 10))
  ++ (if n mod 10 =? 0 then [] else lit "," ++ decimal (Z.to_N (n mod 10))).

(** [fixed.replace(/\.0$/, '')] *)
Definition dropPointZero (fixed : jsstring) : jsstring :=
  if endsWith fixed (lit ".0") then take (length fixed - 2) fixed else fixed.

Definition formatWithSuffix (sign : jsstring) (num : float) (suffix : jsstring)
  : jsstring :=
  let fixed := toFixed num 1 in
  let normalized := replaceFirst (dropPointZero fixed) (lit ".") (lit ",") in
  sign ++ normalized ++ lit " " ++ suffix.

Definition formatCompactNumber (value : float) : jsstring :=
  let abs := PrimFloat.abs value in
  let sign := if (value <? 0)%float then lit "-" else [] in
  if (1000000 <=? abs)%float then formatWithSuffix sign (abs / 1000000)%float mln
  else if (1000 <=? abs)%float then formatWithSuffix sign (abs / 1000)%float tys
  else formatRu value.

(** [parseNumericValue(formatCompactNumber(n))] for an integer [n]. *)
Definition roundTrip (n : Z) : float :=
  parseNumericValue (StrV (formatCompactNumber (ofZ n))).

(** Whether the round trip gives back exactly the double of [n]. *)
Definition exactAt (n : Z) : bool := PrimFloat.Leibniz.eqb (roundTrip n) (ofZ n).

(** [test] holds at [start], [start + step], ..., [count] times. *)
Definition holdsAlong (test : Z -> bool) (start step : Z) (count : nat) : bool :=
  forallb (fun i => test (start + step * Z.of_nat i)) (seq 0 count).

End Content.

(** A normalized post with a place, its tags and nothing else. *)
Definition samplePost (place : jsstring) (tags : list jsstring) : NormalizedPost.t :=
  {| NormalizedPost.id := []; NormalizedPost.user := [];
     NormalizedPost.userAvatar := []; NormalizedPost.userHandle := [];
     NormalizedPost.place := place; NormalizedPost.address := [];
     NormalizedPost.image := []; NormalizedPost.gallery := [];
     NormalizedPost.rating := 0; NormalizedPost.tags := tags;
     NormalizedPost.bio := []; NormalizedPost.workingHours := [];
     NormalizedPost.reviews := []; NormalizedPost.contact := [];
     NormalizedPost.uid := []; NormalizedPost.likes := 0;
     NormalizedPost.totalLikes := 0; NormalizedPost.followers := 0 |}.

(** ** The search screen's filter *)

Module Search.
Import NormalizedPost.

Definition matchesCategory (category : jsstring) (post : NormalizedPost.t) : bool :=
  streq category (lit "all")
  || existsb (fun tag => streq (toLowerCase tag) category) (tags post).

Definition haystack (post : NormalizedPost.t) : jsstring :=
  toLowerCase
    (join (lit " ") ([place post; user post; address post; bio post] ++ tags post)).

Definition filterPosts (data : list NormalizedPost.t) (category query : jsstring)
  : list NormalizedPost.t :=
  let normalizedQuery := toLowerCase (trim query) in
  List.filter
    (fun post =>
       if negb (matchesCategory category post) then false
       else if negb (truthy normalizedQuery) then true
       else includes (haystack post) normalizedQuery)
    data.

(** What the filter is meant to keep, in the words of the search screen:
    the category is ['all'] or is the lower-cased form of one of the post's
    tags, and the trimmed, lower-cased query is empty or a substring of the
    lower-cased text of the post. *)
Definition occursIn (needle text : jsstring) : Prop :=
  exists before after, text = before ++ needle ++ after.

Definition categoryCondition (category : jsstring) (post : NormalizedPost.t) : Prop :=
  category = lit "all" \/ exists tag, In tag (tags post) /\ toLowerCase tag = category.

Definition queryCondition (query : jsstring) (post : NormalizedPost.t) : Prop :=
  toLowerCase (trim query) = []
  \/ occursIn (toLowerCase (trim query))
       (toLowerCase
          (join (lit " ")
             (place post :: user post :: address post :: bio post :: tags post))).

End Search.

(** [Selected P l l']: [l'] is [l] with exactly the elements that satisfy [P]
    kept, in the order of [l]. *)
Inductive Selected {A : Type} (P : A -> Prop) : list A -> list A -> Prop :=
| Selected_nil : Selected P [] []
| Selected_keep x l l' : P x -> Selected P l l' -> Selected P (x :: l) (x :: l')
| Selected_skip x l l' : ~ P x -> Selected P l l' -> Selected P (x :: l) l'.

(** ** JavaScript values, as far as JSON carries them *)

Module JS.

Inductive value :=
| Undefined
| Null
| Bool (b : bool)
| Number (x : float)
| String (s : jsstring)
| Array (items : list value)
| Object (fields : list (jsstring * value)).

(** What [JSON.parse] does with a text: it throws a [SyntaxError] or returns
    the value the text denotes. *)
Inductive parsed :=
| SyntaxError
| Parsed (v : value).

Fixpoint lookupField (name : jsstring) (fields : list (jsstring * value)) : value :=
  match fields with
  | [] => Undefined
  | (key, v) :: rest => if streq key name then v else lookupField name rest
  end.

(** [v.name], for the property names the handlers read (none of them is a
    built-in property of strings or arrays): [None] is the [TypeError] of
    reading a property of [undefined] or [null]. *)
Definition get (v : value) (name : jsstring) : option value :=
  match v with
  | Undefined | Null => None
  | Object fields => Some (lookupField name fields)
  | _ => Some Undefined
  end.

(** [ToBoolean] *)
Definition truthy (v : value) : bool :=
  match v with
  | Undefined | Null => false
  | Bool b => b
  | Number x => JSNumber.truthy x
  | String s => JSString.truthy s
  | Array _ | Object _ => true
  end.

(** [a || b] *)
Definition orElse (a b : value) : value := if truthy a then a else b.

(** [v === 'text'] *)
Definition isString (v : value) (text : jsstring) : bool :=
  match v with
  | String s => streq s text
  | _ => false
  end.

(** Whether the object has a property of its own under the name. *)
Definition hasField (name : jsstring) (fields : list (jsstring * value)) : bool :=
  existsb (fun field => streq (fst field) name) fields.

(** [ToString] as the language applies it, in a template literal, in
    [encodeURIComponent] or in [setItem]: [None] is the [TypeError] of an
    object that has a [toString] of its own, which hides the inherited one and,
    coming from JSON, is never callable. An array is joined with commas, its
    [undefined] and [null] items left empty. *)
Fixpoint toStringOrThrow (v : value) : option jsstring :=
  match v with
  | Undefined => Some (lit "undefined")
  | Null => Some (lit "null")
  | Bool true => Some (lit "true")
  | Bool false => Some (lit "false")
  | Number x => Some (JSNumber.toString x)
  | String s => Some s
  | Object fields =>
      if hasField (lit "toString") fields then None
      else Some (lit "[object Object]")
  | Array items =>
      join (lit ",")
        <$> (fix each (items : list value) : option (list jsstring) :=
               match items with
               | [] => Some []
               | item :: rest =>
                   text ← match item with
                          | Undefined | Null => Some []
                          | _ => toStringOrThrow item
                          end;
                   texts ← each rest;
                   Some (text :: texts)
               end) items
  end.

End JS.

(** ** The map component ([YandexMap]) *)

Module YandexMap.
Import JS.

Record MapCoordinates := { latitude : value; longitude : value }.

Record Props := {
  apiKey : jsstring;
  initialLocation : MapCoordinates;
  (** whether the parent passed [onLocationSelect] *)
  hasOnLocationSelect : bool
}.

(** The component's state: one field for each [useState]. *)
Record State := {
  selectedLocation : MapCoordinates;
  address : value;
  isLoading : bool;
  markers : list value;
  isMapLoaded : bool;
  showAddModal : bool;
  newPlaceCoords : option MapCoordinates;
  newPlaceName : jsstring;
  newPlaceDesc : jsstring;
  userRole : value;
  token : option jsstring
}.

(** What a handler of the component does, call by call. *)
Inductive Action :=
| SetSelectedLocation (coords : MapCoordinates)
| SetAddress (a : value)
| SetIsLoading (b : bool)
| SetIsMapLoaded (b : bool)
| SetShowAddModal (b : bool)
| SetNewPlaceCoords (coords : option MapCoordinates)
| SetUserRole (role : value)
| SetToken (t : jsstring)
| OnLocationSelect (coords : MapCoordinates) (a : value)
| Alert (title : jsstring) (message : value)
| GetMe (authorization : jsstring)
| ConsoleError
| ConsoleWarn.

(** The state setters among the actions. *)
Definition apply (st : State) (a : Action) : State :=
  match a with
  | SetSelectedLocation c =>
      {| selectedLocation := c; address := address st; isLoading := isLoading st;
         markers := markers st; isMapLoaded := isMapLoaded st;
         showAddModal := showAddModal st; newPlaceCoords := newPlaceCoords st;
         newPlaceName := newPlaceName st; newPlaceDesc := newPlaceDesc st;
         userRole := userRole st; token := token st |}
  | SetAddress v =>
      {| selectedLocation := selectedLocation st; address := v;
         isLoading := isLoading st; markers := markers st;
         isMapLoaded := isMapLoaded st; showAddModal := showAddModal st;
         newPlaceCoords := newPlaceCoords st; newPlaceName := newPlaceName st;
         newPlaceDesc := newPlaceDesc st; userRole := userRole st;
         token := token st |}
  | SetIsLoading b =>
      {| selectedLocation := selectedLocation st; address := address st;
         isLoading := b; markers := markers st; isMapLoaded := isMapLoaded st;
         showAddModal := showAddModal st; newPlaceCoords := newPlaceCoords st;
         newPlaceName := newPlaceName st; newPlaceDesc := newPlaceDesc st;
         userRole := userRole st; token := token st |}
  | SetIsMapLoaded b =>
      {| selectedLocation := selectedLocation st; address := address st;
         isLoading := isLoading st; markers := markers st; isMapLoaded := b;
         showAddModal := showAddModal st; newPlaceCoords := newPlaceCoords st;
         newPlaceName := newPlaceName st; newPlaceDesc := newPlaceDesc st;
         userRole := userRole st; token := token st |}
  | SetShowAddModal b =>
      {| selectedLocation := selectedLocation st; address := address st;
         isLoading := isLoading st; markers := markers st;
         isMapLoaded := isMapLoaded st; showAddModal := b;
         newPlaceCoords := newPlaceCoords st; newPlaceName := newPlaceName st;
         newPlaceDesc := newPlaceDesc st; userRole := userRole st;
         token := token st |}
  | SetNewPlaceCoords c =>
      {| selectedLocation := selectedLocation st; address := address st;
         isLoading := isLoading st; markers := markers st;
         isMapLoaded := isMapLoaded st; showAddModal := showAddModal st;
         newPlaceCoords := c; newPlaceName := newPlaceName st;
         newPlaceDesc := newPlaceDesc st; userRole := userRole st;
         token := token st |}
  | SetUserRole r =>
      {| selectedLocation := selectedLocation st; address := address st;
         isLoading := isLoading st; markers := markers st;
         isMapLoaded := isMapLoaded st; showAddModal := showAddModal st;
         newPlaceCoords := newPlaceCoords st; newPlaceName := newPlaceName st;
         newPlaceDesc := newPlaceDesc st; userRole := r; token := token st |}
  | SetToken t =>
      {| selectedLocation := selectedLocation st; address := address st;
         isLoading := isLoading st; markers := markers st;
         isMapLoaded := isMapLoaded st; showAddModal := showAddModal st;
         newPlaceCoords := newPlaceCoords st; newPlaceName := newPlaceName st;
         newPlaceDesc := newPlaceDesc st; userRole := userRole st;
         token := Some t |}
  | OnLocationSelect _ _ | Alert _ _ | GetMe _ | ConsoleError | ConsoleWarn => st
  end.

(** The state after the handler has run: its setter calls, in order. *)
Definition run (st : State) (actions : list Action) : State :=
  fold_left apply actions st.

(** How a block ends: normally, or by throwing. Either way the calls made
    so far have been made. *)
Inductive Completion :=
| Normal (actions : list Action)
| Thrown (actions : list Action).

(** [setSelectedLocation(c); setAddress(data.address || '');
    onLocationSelect?.(c, data.address)], under
    [if (data.latitude && data.longitude)]. *)
Definition selectLocation (props : Props) (data : value) : Completion :=
  match get data (lit "latitude"), get data (lit "longitude"),
        get data (lit "address") with
  | Some lat, Some lon, Some addr =>
      if truthy lat && truthy lon then
        let coords := {| latitude := lat; longitude := lon |} in
        Normal
          ([SetSelectedLocation coords; SetAddress (orElse addr (String []))]
           ++ (if hasOnLocationSelect props then [OnLocationSelect coords addr]
               else []))
      else Normal []
  | _, _, _ => Thrown []
  end.

(** The body of the [try] block of [handleWebViewMessage]. *)
Definition handleMessage (props : Props) (st : State) (message : parsed)
  : Completion :=
  match message with
  | SyntaxError => Thrown []
  | Parsed data =>
      match get data (lit "type") with
      | None => Thrown []
      | Some type =>
          if isString type (lit "MAP_LOADED") then
            Normal [SetIsLoading false; SetIsMapLoaded true]
          else if isString type (lit "MAP_CLICK") then selectLocation props data
          else if isString type (lit "SEARCH_RESULT") then selectLocation props data
          else if isString type (lit "ROUTE_BUILT") then selectLocation props data
          else if isString type (lit "MAP_LONG_PRESS") then
            match get data (lit "latitude"), get data (lit "longitude") with
            | Some lat, Some lon =>
                if truthy lat && truthy lon then
                  let coords := {| latitude := lat; longitude := lon |} in
                  if isString (userRole st) (lit "businessOwner") then
                    Normal [SetNewPlaceCoords (Some coords); SetShowAddModal true]
                  else
                    Normal
                      [Alert (lit "Ошибка")
                         (String (lit "Только бизнес-пользователь может добавлять маркеры"))]
                else Normal []
            | _, _ => Thrown []
            end
          else if isString type (lit "ERROR") then
            match get data (lit "error") with
            | Some err =>
                Normal
                  [Alert (lit "Ошибка")
                     (orElse err (String (lit "Произошла ошибка")))]
            | None => Thrown []
            end
          else Normal []
      end
  end.

(** [handleWebViewMessage(event)], given what [JSON.parse] makes of
    [event.nativeEvent.data]: the [try] block, and the [catch] that logs
    whatever it threw. *)
Definition handleWebViewMessage (props : Props) (st : State) (message : parsed)
  : Completion :=
  match handleMessage props st message with
  | Normal actions => Normal actions
  | Thrown actions => Normal (actions ++ [ConsoleError])
  end.

Definition actionsOf (c : Completion) : list Action :=
  match c with Normal actions | Thrown actions => actions end.

(** The six message types of [MapMessage]. *)
Definition messageTypes : list jsstring :=
  [lit "MAP_LOADED"; lit "MAP_CLICK"; lit "SEARCH_RESULT"; lit "ROUTE_BUILT";
   lit "MAP_LONG_PRESS"; lit "ERROR"].

(** The [type] of a payload, when it is valid JSON and one can read it. *)
Definition typeOf (message : parsed) : option value :=
  match message with
  | SyntaxError => None
  | Parsed data => get data (lit "type")
  end.

(** A payload whose [type] is one of the six. *)
Definition knownType (message : parsed) : Prop :=
  exists name, In name messageTypes /\ typeOf message = Some (String name).

(** An action that changes the state or that the user or the parent sees:
    anything but a line in the log. *)
Definition visible (a : Action) : bool :=
  match a with
  | ConsoleError | ConsoleWarn => false
  | _ => true
  end.

(** A message of each type, with coordinates. *)
Definition sampleMessage (type : jsstring) : value :=
  Object [(lit "type", String type); (lit "latitude", Number 55.75);
          (lit "longitude", Number 37.5)].

(** The component as it mounts with the default location, for a user whose
    role has been loaded as [role]. *)
Definition sampleProps : Props :=
  {| apiKey := lit "key";
     initialLocation := {| latitude := Number 55.75; longitude := Number 37.625 |};
     hasOnLocationSelect := true |}.

Definition sampleState (role : jsstring) : State :=
  {| selectedLocation := initialLocation sampleProps;
     address := String [];
     isLoading := true;
     markers := [];
     isMapLoaded := false;
     showAddModal := false;
     newPlaceCoords := None;
     newPlaceName := [];
     newPlaceDesc := [];
     userRole := String role;
     token := None |}.

(** The three message types that carry a location to select. *)
Definition locationTypes : list jsstring :=
  [lit "MAP_CLICK"; lit "SEARCH_RESULT"; lit "ROUTE_BUILT"].

(** A payload of one of the three types whose coordinates are both truthy:
    present and neither [0] nor [NaN]. *)
Definition selectsLocation (message : parsed) (coords : MapCoordinates)
  (addr : value) : Prop :=
  exists name data,
    In name locationTypes
    /\ message = Parsed data
    /\ get data (lit "type") = Some (String name)
    /\ get data (lit "latitude") = Some (latitude coords)
    /\ get data (lit "longitude") = Some (longitude coords)
    /\ get data (lit "address") = Some addr
    /\ truthy (latitude coords) = true
    /\ truthy (longitude coords) = true.

(** The calls of [onLocationSelect] among the actions, with their arguments. *)
Definition callbackCalls (actions : list Action) : list (MapCoordinates * value) :=
  flat_map
    (fun a => match a with OnLocationSelect c v => [(c, v)] | _ => [] end)
    actions.

Definition touchesLocation (a : Action) : bool :=
  match a with
  | SetSelectedLocation _ | SetAddress _ => true
  | _ => false
  end.

End YandexMap.

(** ** The device's key-value stores and the session held in memory *)

Module Device.

(** Where the application runs: in a browser (the web build of Expo), or
    on Android or iOS. *)
Inductive Platform := Web | Native.

(** The stores of strings by key. In a browser there is [window.localStorage],
    and [AsyncStorage] is an interface to that same store, under the same
    keys. On Android and iOS [AsyncStorage] has a store of the device, and
    there is no [localStorage] at all: [asyncStorage] is that store, and
    [localStorage] is not looked at. *)
Record Stores := {
  platform : Platform;
  localStorage : gmap jsstring jsstring;
  asyncStorage : gmap jsstring jsstring
}.

(** [localStorage.setItem(key, value)]: [None] is the [ReferenceError] of a
    platform that has no [localStorage]. *)
Definition localSetItem (key value : jsstring) (s : Stores) : option Stores :=
  match platform s with
  | Web => Some {| platform := Web;
                   localStorage := <[key := value]> (localStorage s);
                   asyncStorage := asyncStorage s |}
  | Native => None
  end.

(** [AsyncStorage.getItem(key)]: [None] is [null]. *)
Definition asyncGetItem (key : jsstring) (s : Stores) : option jsstring :=
  match platform s with
  | Web => localStorage s !! key
  | Native => asyncStorage s !! key
  end.

End Device.

(** ** The login screen ([login.tsx]) *)

Module Auth.
Import JS.

Inductive Mode := Login | Register.
Inductive AccountType := User | Company.

Record Form := {
  mode : Mode;
  email : jsstring;
  password : jsstring;
  name : jsstring;
  companyName : jsstring;
  companyINN : jsstring;
  accountType : AccountType
}.

Definition isRegister (f : Form) : bool :=
  match mode f with Register => true | Login => false end.

Definition isCompany (f : Form) : bool :=
  match accountType f with Company => true | User => false end.

Definition nonBlank (s : jsstring) : bool := (0 <? length (trim s))%nat.

Definition canSubmit (f : Form) : bool :=
  nonBlank (email f) && nonBlank (password f)
  && (negb (isRegister f)
      || (if isCompany f then nonBlank (companyName f) else nonBlank (name f))).

Record UserSession := {
  id : jsstring;
  sessionName : value;
  sessionEmail : value;
  handle : value;
  avatar : jsstring;
  sessionAccountType : AccountType;
  favorites : list jsstring;
  liked : list jsstring;
  following : list value
}.

(** What [fetch] and [res.json()] come to: the request fails, or a response
    arrives with its [ok] flag and a body that is JSON or is not. *)
Inductive fetched :=
| NetworkFailure
| Response (ok : bool) (body : parsed).

(** [v.toString()]: a [TypeError] on [undefined], on [null], and on an
    object whose own [toString] is not a function (no value of JSON is);
    otherwise the method writes what [ToString] writes. *)
Definition callToString (v : value) : option jsstring :=
  match v with
  | Undefined | Null => None
  | _ => toStringOrThrow v
  end.

(** [username.includes('@')]: strings and arrays have the method. *)
Definition callIncludesAt (username : value) : option bool :=
  match username with
  | String s => Some (includes s (lit "@"))
  | Array items => Some (existsb (fun item => isString item (lit "@")) items)
  | _ => None
  end.

Fixpoint beforeAt (s : jsstring) : jsstring :=
  match s with
  | [] => []
  | c :: s' => if (c =? 64)%N then [] else c :: beforeAt s'
  end.

(** [username.split('@')[0]]: only strings have [split]. *)
Definition callSplitAtFirst (username : value) : option value :=
  match username with
  | String s => Some (String (beforeAt s))
  | _ => None
  end.

(** *** [encodeURIComponent] *)

Definition hexDigit (n : N) : N := (if n <? 10 then 48 + n else 55 + n)%N.

Definition percent (byte : N) : jsstring :=
  [37%N; hexDigit (byte / 16); hexDigit (byte mod 16)].

Definition unreserved (c : N) : bool :=
  ((48 <=? c) && (c <=? 57) || (65 <=? c) && (c <=? 90) || (97 <=? c) && (c <=? 122)
   || (c =? 45) || (c =? 95) || (c =? 46) || (c =? 33) || (c =? 126) || (c =? 42)
   || (c =? 39) || (c =? 40) || (c =? 41))%N.

(** A code point, percent-encoded byte by byte in UTF-8. *)
Definition encodeCodePoint (cp : N) : jsstring :=
  (if cp <? 128 then (if unreserved cp then [cp] else percent cp)
   else if cp <? 2048 then percent (192 + cp / 64) ++ percent (128 + cp mod 64)
   else if cp <? 65536 then
     percent (224 + cp / 4096) ++ percent (128 + (cp / 64) mod 64)
     ++ percent (128 + cp mod 64)
   else
     percent (240 + cp / 262144) ++ percent (128 + (cp / 4096) mod 64)
     ++ percent (128 + (cp / 64) mod 64) ++ percent (128 + cp mod 64))%N.

(** [encodeURIComponent(s)]: [None] is the [URIError] thrown at a surrogate
    that has no partner. *)
Fixpoint encodeURIComponent (s : jsstring) : option jsstring :=
  match s with
  | [] => Some []
  | c :: rest =>
      if ((c <? 55296) || (57343 <? c))%N then
        app (encodeCodePoint c) <$> encodeURIComponent rest
      else if (c <? 56320)%N then
        match rest with
        | d :: rest' =>
            if ((56320 <=? d) && (d <=? 57343))%N then
              app (encodeCodePoint ((c - 55296) * 1024 + (d - 56320) + 65536)%N)
                <$> encodeURIComponent rest'
            else None
        | [] => None
        end
      else None
  end.

(** *** [handleSubmit] *)

(** The session object built from [data.user]; [None] when building it
    throws. The account type is the form's on registration and follows the
    user's role on login. *)
Definition buildSession (f : Form) (data : value) : option UserSession :=
  sessionUser ← get data (lit "user");
  role ← get sessionUser (lit "role");
  idValue ← get sessionUser (lit "id");
  idString ← callToString idValue;
  username ← get sessionUser (lit "username");
  userEmail ← get sessionUser (lit "email");
  hasAt ← callIncludesAt username;
  userHandle ← (if hasAt : bool then callSplitAtFirst username else Some username);
  emailText ← toStringOrThrow userEmail;
  encoded ← encodeURIComponent emailText;
  Some {| id := idString;
          sessionName := username;
          sessionEmail := userEmail;
          handle := userHandle;
          avatar := lit "https://i.pravatar.cc/200?u=" ++ encoded;
          sessionAccountType :=
            if isRegister f then accountType f
            else if isString role (lit "businessOwner") then Company else User;
          favorites := [];
          liked := [];
          following := [] |}.

(** What the screen calls, call by call. *)
Inductive Effect :=
| Alert (title : jsstring) (message : value)
| KeyboardDismiss
| Fetch (url : jsstring) (body : list (jsstring * jsstring))
| LocalStorageSetItem (key value : jsstring)
| SetUserSession (session : UserSession)
| RouterReplace (path : jsstring).

Definition request (f : Form) : Effect :=
  if isRegister f then
    Fetch (lit "http://localhost:8443/auth/register")
      [(lit "login", trim (email f)); (lit "passwd", trim (password f));
       (lit "role", if isCompany f then lit "businessOwner" else lit "user");
       (lit "email", trim (email f))]
  else
    Fetch (lit "http://localhost:8443/auth/login")
      [(lit "login", trim (email f)); (lit "passwd", trim (password f))].

Definition networkAlert : Effect :=
  Alert (lit "Ошибка сети") (String (lit "Не удалось подключиться к серверу.")).

(** The alert of a response that is not ok. *)
Definition refusalAlert (f : Form) (err : value) : Effect :=
  if isRegister f then
    Alert (lit "Ошибка регистрации") (orElse err (String (lit "Регистрация не удалась")))
  else
    Alert (lit "Ошибка входа") (orElse err (String (lit "Вход не удался"))).

(** What follows [await fetch(...)] inside the [try] block: [None] when
    reading the response or building the session and the token's text throws,
    which the [catch] turns into the network alert. *)
Definition afterFetch (f : Form) (outcome : fetched) : option (list Effect) :=
  match outcome with
  | NetworkFailure => None
  | Response _ SyntaxError => None
  | Response false (Parsed data) =>
      err ← get data (lit "error");
      Some [refusalAlert f err]
  | Response true (Parsed data) =>
      session ← buildSession f data;
      tokenValue ← get data (lit "token");
      tokenText ← toStringOrThrow tokenValue;
      Some [LocalStorageSetItem (lit "token") tokenText;
            SetUserSession session;
            RouterReplace (lit "/profile")]
  end.

Definition handleSubmit (f : Form) (outcome : fetched) : list Effect :=
  if negb (canSubmit f) then
    [Alert (lit "Ошибка") (String (lit "Пожалуйста, заполните все поля."))]
  else
    [KeyboardDismiss; request f]
    ++ match afterFetch f outcome with
       | Some effects => effects
       | None => [networkAlert]
       end.

(** The application outside the screen: the stores, the session of
    [lib/user-session], the current route. *)
Record World := {
  stores : Device.Stores;
  session : option UserSession;
  route : jsstring
}.

(** Modelled from the spec: [setUserSession] of [lib/user-session], which is
    not among the sources; the spec says the session is ad-hoc state held in
    memory, so the call replaces the session that is held. *)
Definition setUserSession (s : UserSession) (w : World) : World :=
  {| stores := stores w; session := Some s; route := route w |}.

(** One call made: [None] when the call throws. *)
Definition perform (w : World) (e : Effect) : option World :=
  match e with
  | LocalStorageSetItem key value =>
      updated ← Device.localSetItem key value (stores w);
      Some {| stores := updated; session := session w; route := route w |}
  | SetUserSession s => Some (setUserSession s w)
  | RouterReplace path =>
      Some {| stores := stores w; session := session w; route := path |}
  | Alert _ _ | KeyboardDismiss | Fetch _ _ => Some w
  end.

(** The calls made in order, with the world they leave and the calls that
    were completed: a call that throws ends the [try] block, the calls after
    it are not made, and the [catch] shows the network alert. *)
Fixpoint attempt (w : World) (effects : list Effect) : World * list Effect :=
  match effects with
  | [] => (w, [])
  | e :: rest =>
      match perform w e with
      | Some w1 => let (w2, completed) := attempt w1 rest in (w2, e :: completed)
      | None => (w, [networkAlert])
      end
  end.

Definition run (w : World) (effects : list Effect) : World :=
  fst (attempt w effects).

Definition happened (w : World) (effects : list Effect) : list Effect :=
  snd (attempt w effects).


(** A login form that can be submitted, a response that accepts it, and a
    response that is ok but carries no user. *)
Definition sampleForm : Form :=
  {| mode := Login; email := lit "ann@example.org"; password := lit "secret";
     name := []; companyName := []; companyINN := []; accountType := User |}.

Definition sampleUser : value :=
  Object [(lit "id", Number 7); (lit "username", String (lit "ann@example.org"));
          (lit "email", String (lit "ann@example.org"));
          (lit "role", String (lit "businessOwner"))].

Definition acceptedResponse : fetched :=
  Response true
    (Parsed (Object [(lit "token", String (lit "t0k3n")); (lit "user", sampleUser)])).


Definition freshWorld (p : Device.Platform) : World :=
  {| stores := {| Device.platform := p;
                  Device.localStorage := ∅; Device.asyncStorage := ∅ |};
     session := None;
     route := lit "/login" |}.

(** A code unit outside the surrogate range, or the first of a high and a low
    surrogate in a row. *)
Fixpoint wellFormed (s : jsstring) : bool :=
  match s with
  | [] => true
  | c :: rest =>
      if ((c <? 55296) || (57343 <? c))%N then wellFormed rest
      else if (c <? 56320)%N then
        match rest with
        | d :: rest' => ((56320 <=? d) && (d <=? 57343))%N && wellFormed rest'
        | [] => false
        end
      else false
  end.

End Auth.

(** ** The map component's first effect: the token and the role *)

Module MapSession.
Import JS YandexMap.

(** The effect that runs when the map mounts, given the stores and what the
    request to [/me] comes to. *)
Definition loadTokenAndRole (s : Device.Stores) (outcome : Auth.fetched)
  : list Action :=
  match Device.asyncGetItem (lit "token") s with
  | Some t =>
      if JSString.truthy t then
        [SetToken t; GetMe (lit "Bearer " ++ t)]
        ++ match outcome with
           | Auth.NetworkFailure => [ConsoleWarn]
           | Auth.Response false _ => []
           | Auth.Response true SyntaxError => [ConsoleWarn]
           | Auth.Response true (Parsed data) =>
               match get data (lit "role") with
               | Some role => [SetUserRole role]
               | None => [ConsoleWarn]
               end
           end
      else []
  | None => []
  end.

(** The [Authorization] headers of the requests to [/me] among the actions. *)
Definition authorizations (actions : list Action) : list jsstring :=
  flat_map (fun a => match a with GetMe h => [h] | _ => [] end) actions.

End MapSession.

(** ** The database schema ([init.sql]) *)

Module Schema.

Inductive ColumnType :=
| INT
| VARCHAR (n : nat)
| TEXT
| ENUM (values : list string)
| DECIMAL (precision scale : nat)
| DATE.

Inductive DefaultValue :=
| DefaultText (s : string)
| DefaultCurrentDate.

(** [ON DELETE]; a foreign key without the clause gets [NoAction]. *)
Inductive ReferentialAction := NoAction | Cascade | SetNull.

Record Column := {
  columnName : string;
  columnType : ColumnType;
  notNull : bool;
  isPrimaryKey : bool;
  autoIncrement : bool;
  isUnique : bool;
  defaultValue : option DefaultValue
}.

Record ForeignKey := {
  constraintName : option string;
  fkColumn : string;
  refTable : string;
  refColumn : string;
  onDelete : ReferentialAction
}.

Record Table := {
  tableName : string;
  columns : list Column;
  foreignKeys : list ForeignKey
}.

Inductive Statement :=
| CreateTableIfNotExists (t : Table)
| CreateIndex (indexName onTable onColumn : string).

(** A column definition is its name, its type, and the attributes that
    follow. *)
Definition column (name : string) (type : ColumnType) : Column :=
  {| columnName := name; columnType := type; notNull := false;
     isPrimaryKey := false; autoIncrement := false; isUnique := false;
     defaultValue := None |}.

Definition NOT_NULL (c : Column) : Column :=
  {| columnName := columnName c; columnType := columnType c; notNull := true;
     isPrimaryKey := isPrimaryKey c; autoIncrement := autoIncrement c;
     isUnique := isUnique c; defaultValue := defaultValue c |}.

Definition PRIMARY_KEY (c : Column) : Column :=
  {| columnName := columnName c; columnType := columnType c; notNull := notNull c;
     isPrimaryKey := true; autoIncrement := autoIncrement c;
     isUnique := isUnique c; defaultValue := defaultValue c |}.

Definition AUTO_INCREMENT (c : Column) : Column :=
  {| columnName := columnName c; columnType := columnType c; notNull := notNull c;
     isPrimaryKey := isPrimaryKey c; autoIncrement := true;
     isUnique := isUnique c; defaultValue := defaultValue c |}.

Definition UNIQUE (c : Column) : Column :=
  {| columnName := columnName c; columnType := columnType c; notNull := notNull c;
     isPrimaryKey := isPrimaryKey c; autoIncrement := autoIncrement c;
     isUnique := true; defaultValue := defaultValue c |}.

Definition DEFAULT (d : DefaultValue) (c : Column) : Column :=
  {| columnName := columnName c; columnType := columnType c; notNull := notNull c;
     isPrimaryKey := isPrimaryKey c; autoIncrement := autoIncrement c;
     isUnique := isUnique c; defaultValue := Some d |}.

Definition roles : list string := ["user"; "businessOwner"; "moderator"; "admin"]%string.

(** [backend/app/init.sql] *)
Definition init_sql : list Statement :=
  [ CreateTableIfNotExists
      {| tableName := "users";
         columns :=
           [ PRIMARY_KEY (AUTO_INCREMENT (column "id" INT));
             NOT_NULL (UNIQUE (column "username" (VARCHAR 50)));
             NOT_NULL (column "password" (VARCHAR 64));
             DEFAULT (DefaultText "user") (column "role" (ENUM roles));
             column "token" (VARCHAR 64) ];
         foreignKeys := [] |};
    CreateTableIfNotExists
      {| tableName := "places";
         columns :=
           [ PRIMARY_KEY (AUTO_INCREMENT (column "id" INT));
             NOT_NULL (column "name" (VARCHAR 100));
             column "description" TEXT;
             column "owner_id" INT ];
         foreignKeys :=
           [ {| constraintName := None; fkColumn := "owner_id";
                refTable := "users"; refColumn := "id"; onDelete := SetNull |} ] |}
  ]%string.

(** The initialization script that also declares the reviews (the third of
    the unnamed sources). *)
Definition init_sql_with_reviews : list Statement :=
  [ CreateTableIfNotExists
      {| tableName := "users";
         columns :=
           [ PRIMARY_KEY (AUTO_INCREMENT (column "id" INT));
             NOT_NULL (UNIQUE (column "username" (VARCHAR 50)));
             UNIQUE (column "email" (VARCHAR 100));
             NOT_NULL (column "password" (VARCHAR 64));
             DEFAULT (DefaultText "user") (column "role" (ENUM roles));
             column "token" (VARCHAR 64) ];
         foreignKeys := [] |};
    CreateTableIfNotExists
      {| tableName := "places";
         columns :=
           [ PRIMARY_KEY (AUTO_INCREMENT (column "id" INT));
             NOT_NULL (column "name" (VARCHAR 100));
             column "description" TEXT;
             column "lat" (DECIMAL 9 6);
             column "lon" (DECIMAL 9 6);
             column "owner_id" INT ];
         foreignKeys :=
           [ {| constraintName := None; fkColumn := "owner_id";
                refTable := "users"; refColumn := "id"; onDelete := SetNull |} ] |};
    CreateTableIfNotExists
      {| tableName := "reviews";
         columns :=
           [ PRIMARY_KEY (AUTO_INCREMENT (column "id" INT));
             NOT_NULL (column "place_id" INT);
             NOT_NULL (column "user_id" INT);
             NOT_NULL (column "text" TEXT);
             DEFAULT DefaultCurrentDate (NOT_NULL (column "created_at" DATE)) ];
         foreignKeys :=
           [ {| constraintName := Some "fk_reviews_place"; fkColumn := "place_id";
                refTable := "places"; refColumn := "id"; onDelete := Cascade |};
             {| constraintName := Some "fk_reviews_user"; fkColumn := "user_id";
                refTable := "users"; refColumn := "id"; onDelete := Cascade |} ] |};
    CreateIndex "idx_reviews_place_id" "reviews" "place_id";
    CreateIndex "idx_reviews_user_id" "reviews" "user_id"
  ]%string.

(** The tables a script creates, in order. *)
Definition tablesOf (script : list Statement) : list Table :=
  flat_map
    (fun s => match s with CreateTableIfNotExists t => [t] | CreateIndex _ _ _ => [] end)
    script.

Definition tableNames (script : list Statement) : list string :=
  List.map tableName (tablesOf script).

Definition findTable (script : list Statement) (name : string) : option Table :=
  List.find (fun t => String.eqb (tableName t) name) (tablesOf script).

Definition findColumn (t : Table) (name : string) : option Column :=
  List.find (fun c => String.eqb (columnName c) name) (columns t).

(** A column may hold [NULL] unless it is [NOT NULL] or the primary key. *)
Definition nullable (c : Column) : bool := negb (notNull c || isPrimaryKey c).

(** *** Rows, and what the foreign keys mean *)

Inductive cell :=
| CNull
| CInt (z : Z)
| CText (s : string).

Definition cell_eqb (a b : cell) : bool :=
  match a, b with
  | CInt x, CInt y => Z.eqb x y
  | CText x, CText y => String.eqb x y
  | _, _ => false
  end.

(** A row gives a cell to each column; a database gives its rows to each
    table. *)
Abbreviation row := (gmap string cell) (only parsing).
Abbreviation database := (gmap string (list (gmap string cell))) (only parsing).

Definition cellOf (r : row) (col : string) : cell := default CNull (r !! col).

Definition rowsOf (db : database) (table : string) : list row :=
  default [] (db !! table).

(** The row refers, through the key, to one of the rows. *)
Definition refersTo (fk : ForeignKey) (targets : list row) (r : row) : bool :=
  existsb (fun t => cell_eqb (cellOf t (refColumn fk)) (cellOf r (fkColumn fk))) targets.

(** The foreign keys, of any table, that refer to the table. *)
Definition referencesTo (tables : list Table) (target : string)
  : list (string * ForeignKey) :=
  flat_map
    (fun t =>
       List.map (fun fk => (tableName t, fk))
         (List.filter (fun fk => String.eqb (refTable fk) target) (foreignKeys t)))
    tables.

(** [DELETE FROM target WHERE doomed]: the rows go, and every foreign key
    that refers to the table acts on the rows that referred to them: they
    are deleted in turn, or their key is set to [NULL], or, without an
    action, they make the statement fail ([None]). *)
Fixpoint deleteRows (fuel : nat) (tables : list Table) (db : database)
  (target : string) (doomed : row -> bool) : option database :=
  match fuel with
  | O => None
  | S fuel' =>
      let victims := List.filter doomed (rowsOf db target) in
      let kept := List.filter (fun r => negb (doomed r)) (rowsOf db target) in
      fold_left
        (fun acc '(table, fk) =>
           db' ← acc;
           match onDelete fk with
           | Cascade => deleteRows fuel' tables db' table (refersTo fk victims)
           | SetNull =>
               Some (<[table :=
                         List.map
                           (fun r => if refersTo fk victims r
                                     then <[fkColumn fk := CNull]> r else r)
                           (rowsOf db' table)]> db')
           | NoAction =>
               if existsb (refersTo fk victims) (rowsOf db' table) then None
               else Some db'
           end)
        (referencesTo tables target)
        (Some (<[target := kept]> db))
  end.

(** [DELETE FROM table WHERE id = key] *)
Definition deleteById (tables : list Table) (db : database) (table : string) (key : Z)
  : option database :=
  deleteRows (S (length tables)) tables db table
    (fun r => cell_eqb (cellOf r "id") (CInt key)).

(** The rows keep to the schema: no [NULL] where the column refuses it, and
    every foreign key is [NULL] or refers to a row of the table it names. *)
Definition honours (db : database) (fk : ForeignKey) (r : row) : Prop :=
  cellOf r (fkColumn fk) = CNull
  \/ refersTo fk (rowsOf db (refTable fk)) r = true.

Definition consistent (tables : list Table) (db : database) : Prop :=
  forall t r,
    In t tables -> In r (rowsOf db (tableName t)) ->
    (forall c, In c (columns t) -> nullable c = false ->
               cellOf r (columnName c) <> CNull)
    /\ (forall fk, In fk (foreignKeys t) -> honours db fk r).

(** A small database: two users, a place of the first, a review of the
    place by the second. *)
Definition sampleUsers : list row :=
  [ <["id" := CInt 1]> (<["username" := CText "owner"]> (<["password" := CText "x"]> ∅));
    <["id" := CInt 2]> (<["username" := CText "guest"]> (<["password" := CText "y"]> ∅))
  ]%string.

Definition samplePlaces : list row :=
  [ <["id" := CInt 10]> (<["name" := CText "cafe"]> (<["owner_id" := CInt 1]> ∅))
  ]%string.

Definition sampleReviews : list row :=
  [ <["id" := CInt 100]>
      (<["place_id" := CInt 10]>
         (<["user_id" := CInt 2]>
            (<["text" := CText "fine"]> (<["created_at" := CText "2024-01-01"]> ∅))))
  ]%string.

Definition sampleDatabase : database :=
  <["users" := sampleUsers]>
    (<["places" := samplePlaces]> (<["reviews" := sampleReviews]> ∅))%string.

(** The tables of the script that declares the reviews. *)
Definition reviewed : list Table := tablesOf init_sql_with_reviews.

End Schema.

(** The strings that consist of white space only, the empty one included:
    those that [trim] empties. *)
Definition blank (s : jsstring) : Prop := Forall (fun c => isWhiteSpace c = true) s.

(** ** The search screen ([SearchScreen]) around its filter *)

Module SearchScreen.

Record CategoryOption := {
  id : jsstring;
  name : jsstring;
  icon : jsstring
}.

(** [unique.has(key)], the [Map] kept as its entries in insertion order. *)
Definition has (unique : list (jsstring * jsstring)) (key : jsstring) : bool :=
  existsb (fun entry => streq (fst entry) key) unique.

(** [const key = tag.toLowerCase(); if (!unique.has(key)) unique.set(key, tag)] *)
Definition addTag (unique : list (jsstring * jsstring)) (tag : jsstring)
  : list (jsstring * jsstring) :=
  let key := toLowerCase tag in
  if negb (has unique key) then unique ++ [(key, tag)] else unique.

(** The two nested loops over the posts and their tags. *)
Definition uniqueTags (posts : list NormalizedPost.t) : list (jsstring * jsstring) :=
  fold_left
    (fun unique post => fold_left addTag (NormalizedPost.tags post) unique)
    posts [].

Definition categoryOptions (allPostsNormalized : list NormalizedPost.t)
  : list CategoryOption :=
  {| id := lit "all"; name := lit "Все"; icon := lit "apps" |}
  :: List.map
       (fun entry =>
          {| id := fst entry; name := snd entry; icon := lit "pricetag-outline" |})
       (uniqueTags allPostsNormalized).

(** [{ ...post, likes: value }] *)
Definition withLikes (value : float) (post : NormalizedPost.t) : NormalizedPost.t :=
  {| NormalizedPost.id := NormalizedPost.id post;
     NormalizedPost.user := NormalizedPost.user post;
     NormalizedPost.userAvatar := NormalizedPost.userAvatar post;
     NormalizedPost.userHandle := NormalizedPost.userHandle post;
     NormalizedPost.place := NormalizedPost.place post;
     NormalizedPost.address := NormalizedPost.address post;
     NormalizedPost.image := NormalizedPost.image post;
     NormalizedPost.gallery := NormalizedPost.gallery post;
     NormalizedPost.rating := NormalizedPost.rating post;
     NormalizedPost.tags := NormalizedPost.tags post;
     NormalizedPost.bio := NormalizedPost.bio post;
     NormalizedPost.workingHours := NormalizedPost.workingHours post;
     NormalizedPost.reviews := NormalizedPost.reviews post;
     NormalizedPost.contact := NormalizedPost.contact post;
     NormalizedPost.uid := NormalizedPost.uid post;
     NormalizedPost.likes := value;
     NormalizedPost.totalLikes := NormalizedPost.totalLikes post;
     NormalizedPost.followers := NormalizedPost.followers post |}.

(** [{ ...post, likes: post.likes + 1 }] *)
Definition liked (post : NormalizedPost.t) : NormalizedPost.t :=
  withLikes (NormalizedPost.likes post + 1)%float post.

(** The update that [handleLike(uid)] passes to [setPostsData]. *)
Definition handleLike (uid : jsstring) (prev : list NormalizedPost.t)
  : list NormalizedPost.t :=
  List.map
    (fun post => if streq (NormalizedPost.uid post) uid then liked post else post)
    prev.

(** The screen's state: one field for each [useState]. *)
Record State := {
  postsData : list NormalizedPost.t;
  searchResults : list NormalizedPost.t;
  selectedCategory : jsstring;
  searchQuery : jsstring;
  isSearching : bool;
  searchActive : bool;
  activePost : option NormalizedPost.t;
  isDetailVisible : bool
}.

(** The state the screen mounts with. *)
Definition initial (allPostsNormalized : list NormalizedPost.t) : State :=
  {| postsData := allPostsNormalized;
     searchResults := allPostsNormalized;
     selectedCategory := lit "all";
     searchQuery := [];
     isSearching := false;
     searchActive := false;
     activePost := None;
     isDetailVisible := false |}.

(** What the user can do on the screen, by the handler it reaches. *)
Inductive Event :=
| SearchChange (text : jsstring)
| ClearSearch
| CategorySelect (categoryId : jsstring)
| Like (uid : jsstring)
| OpenDetail (post : NormalizedPost.t)
| CloseDetail
| Focus
| Blur.

(** The handler of an event: its state setters. *)
Definition handle (st : State) (e : Event) : State :=
  match e with
  | SearchChange text =>
      {| postsData := postsData st; searchResults := searchResults st;
         selectedCategory := selectedCategory st; searchQuery := text;
         isSearching := isSearching st; searchActive := searchActive st;
         activePost := activePost st; isDetailVisible := isDetailVisible st |}
  | ClearSearch =>
      {| postsData := postsData st; searchResults := searchResults st;
         selectedCategory := selectedCategory st; searchQuery := [];
         isSearching := isSearching st; searchActive := searchActive st;
         activePost := activePost st; isDetailVisible := isDetailVisible st |}
  | CategorySelect categoryId =>
      {| postsData := postsData st; searchResults := searchResults st;
         selectedCategory := categoryId; searchQuery := searchQuery st;
         isSearching := isSearching st; searchActive := searchActive st;
         activePost := activePost st; isDetailVisible := isDetailVisible st |}
  | Like uid =>
      {| postsData := handleLike uid (postsData st);
         searchResults := searchResults st;
         selectedCategory := selectedCategory st; searchQuery := searchQuery st;
         isSearching := isSearching st; searchActive := searchActive st;
         activePost := activePost st; isDetailVisible := isDetailVisible st |}
  | OpenDetail post =>
      {| postsData := postsData st; searchResults := searchResults st;
         selectedCategory := selectedCategory st; searchQuery := searchQuery st;
         isSearching := isSearching st; searchActive := searchActive st;
         activePost := Some post; isDetailVisible := true |}
  | CloseDetail =>
      {| postsData := postsData st; searchResults := searchResults st;
         selectedCategory := selectedCategory st; searchQuery := searchQuery st;
         isSearching := isSearching st; searchActive := searchActive st;
         activePost := activePost st; isDetailVisible := false |}
  | Focus =>
      {| postsData := postsData st; searchResults := searchResults st;
         selectedCategory := selectedCategory st; searchQuery := searchQuery st;
         isSearching := isSearching st; searchActive := true;
         activePost := activePost st; isDetailVisible := isDetailVisible st |}
  | Blur =>
      {| postsData := postsData st; searchResults := searchResults st;
         selectedCategory := selectedCategory st; searchQuery := searchQuery st;
         isSearching := isSearching st; searchActive := false;
         activePost := activePost st; isDetailVisible := isDetailVisible st |}
  end.

(** The two effects that follow a render: the results are filtered again
    and [isSearching] follows the query. *)
Definition effects (st : State) : State :=
  {| postsData := postsData st;
     searchResults :=
       Search.filterPosts (postsData st) (selectedCategory st) (searchQuery st);
     selectedCategory := selectedCategory st;
     searchQuery := searchQuery st;
     isSearching := (0 <? length (trim (searchQuery st)))%nat;
     searchActive := searchActive st;
     activePost := activePost st;
     isDetailVisible := isDetailVisible st |}.

Definition step (st : State) (e : Event) : State := effects (handle st e).

(** The screen after mounting and a sequence of events. *)
Definition after (allPostsNormalized : list NormalizedPost.t) (events : list Event)
  : State :=
  fold_left step events (effects (initial allPostsNormalized)).

(** Two posts that differ in nothing but their likes. *)
Definition sameButLikes (p q : NormalizedPost.t) : Prop :=
  withLikes 0 p = withLikes 0 q.

(** [unique] holds the tags [seen] so far by their lower-case form: no key
    twice, under each key the first tag seen with that lower-case form, and a
    key for every tag seen. *)
Definition firstSpellings (seen : list jsstring)
  (unique : list (jsstring * jsstring)) : Prop :=
  NoDup (List.map fst unique)
  /\ (forall key tag,
        In (key, tag) unique ->
        key = toLowerCase tag
        /\ exists before after,
             seen = before ++ tag :: after
             /\ forall t, In t before -> toLowerCase t <> key)
  /\ (forall t, In t seen -> exists tag, In (toLowerCase t, tag) unique).

End SearchScreen.

(** ** The map component's commands to the page in the [WebView] *)

Module YandexMapHandle.
Import JS YandexMap.

(** [s.replace(/"/g, '\\"')]: a backslash before every double quote. *)
Definition escapeQuotes (s : jsstring) : jsstring :=
  flat_map (fun c => if (c =? 34)%N then [92; 34]%N else [c]) s.

Definition quote : jsstring := [34%N].
Definition newline : jsstring := [10%N].

(** The template literal of an injected script: a line break, the call
    indented by six spaces, [true;] on the next line, and the indentation of
    the closing back quote. *)
Definition script (call : jsstring) : jsstring :=
  newline ++ lit "      " ++ call ++ newline ++ lit "      true;" ++ newline
  ++ lit "    ".

(** [webViewRef.current?.injectJavaScript(js)]: the scripts that reach the
    page, none while the reference holds no [WebView]. *)
Definition injectJavaScript (webView : bool) (js : jsstring) : list jsstring :=
  if webView then [js] else [].

Definition searchAddress (webView : bool) (query : jsstring) : list jsstring :=
  if negb (JSString.truthy (trim query)) then []
  else
    let sanitized := escapeQuotes (trim query) in
    injectJavaScript webView
      (script (lit "window.searchAddress(" ++ quote ++ sanitized ++ quote ++ lit ");")).

(** [moveToCoordinates(coords)]: the template is an argument of the
    optional call, so it is built only when there is a [WebView]; [None] when
    building it throws. *)
Definition moveToCoordinates (webView : bool) (coords : MapCoordinates)
  : option (list jsstring) :=
  if webView then
    lat ← toStringOrThrow (latitude coords);
    lon ← toStringOrThrow (longitude coords);
    Some [script (lit "window.moveToCoordinates(" ++ lat ++ lit ", " ++ lon
                  ++ lit ");")]
  else Some [].

(** [buildRoute(destination, start)], [start] being optional. *)
Definition buildRoute (webView : bool) (destination : jsstring)
  (start : option MapCoordinates) : option (list jsstring) :=
  let trimmed := trim destination in
  if negb (JSString.truthy trimmed) then Some []
  else
    let sanitized := escapeQuotes trimmed in
    let startLat := match start with
                    | Some coords => latitude coords
                    | None => String (lit "null")
                    end in
    let startLon := match start with
                    | Some coords => longitude coords
                    | None => String (lit "null")
                    end in
    if webView then
      lat ← toStringOrThrow startLat;
      lon ← toStringOrThrow startLon;
      Some [script (lit "window.buildRoute(" ++ quote ++ sanitized ++ quote
                    ++ lit ", " ++ lat ++ lit ", " ++ lon ++ lit ");")]
    else Some [].

(** [v.replace(/"/g, '\\"')]: only a string has the method. *)
Definition callEscapeQuotes (v : value) : option jsstring :=
  match v with
  | String s => Some (escapeQuotes s)
  | _ => None
  end.

(** The script that puts one marker on the map; [None] when building it
    throws. Its template is indented by ten and eight spaces. *)
Definition markerScript (marker : value) : option jsstring :=
  lat ← get marker (lit "lat");
  lon ← get marker (lit "lon");
  name ← get marker (lit "name");
  description ← get marker (lit "description");
  latText ← toStringOrThrow lat;
  lonText ← toStringOrThrow lon;
  title ← callEscapeQuotes name;
  desc ← callEscapeQuotes description;
  Some (newline ++ lit "          "
        ++ lit "window.addMarker(" ++ latText ++ lit ", " ++ lonText ++ lit ", "
        ++ quote ++ title ++ quote ++ lit ", " ++ quote ++ desc ++ quote ++ lit ");"
        ++ newline ++ lit "          true;" ++ newline ++ lit "        ").

(** How the effect ends: the scripts it injected, and whether it threw. *)
Record Injected := { scripts : list jsstring; threw : bool }.

(** [markers.forEach(marker => ...)]: an exception ends the loop. *)
Fixpoint forEachMarker (webView : bool) (markers : list value) : Injected :=
  match markers with
  | [] => {| scripts := []; threw := false |}
  | marker :: rest =>
      match markerScript marker with
      | None => {| scripts := []; threw := true |}
      | Some js =>
          let later := forEachMarker webView rest in
          {| scripts := injectJavaScript webView js ++ scripts later;
             threw := threw later |}
      end
  end.

(** The effect on [isMapLoaded] and [markers]. *)
Definition addMarkers (webView : bool) (st : State) : Injected :=
  if isMapLoaded st then forEachMarker webView (markers st)
  else {| scripts := []; threw := false |}.

(** A marker as a row of [places] gives it: numbers or [null] for the
    coordinates, strings for the name and the description. *)
Definition numberOrNull (v : value) : bool :=
  match v with
  | Number _ | Null => true
  | _ => false
  end.

Definition wellFormed (marker : value) : bool :=
  match get marker (lit "lat"), get marker (lit "lon"),
        get marker (lit "name"), get marker (lit "description") with
  | Some lat, Some lon, Some (String _), Some (String _) =>
      numberOrNull lat && numberOrNull lon
  | _, _, _, _ => false
  end.

(** Every double quote of [s] comes right after a backslash. *)
Definition quotesEscaped (s : jsstring) : Prop :=
  forall i, s !! i = Some 34%N -> exists j, i = S j /\ s !! j = Some 92%N.

End YandexMapHandle.

(** ** Adding a place from the map: the modal and [handleAddMarker] *)

Module AddPlace.
Import JS YandexMap.

(** What [fetch] comes to: it fails, or a response arrives with its status
    and a body that is JSON or is not. *)
Inductive Reply :=
| NoReply
| Replied (status : N) (body : parsed).

(** [res.ok]: the status is in the range 200-299. *)
Definition ok (status : N) : bool := ((200 <=? status) && (status <=? 299))%N.

(** A request: [body] is the object given to [JSON.stringify]. *)
Record Request := {
  url : jsstring;
  method : jsstring;
  headers : list (jsstring * jsstring);
  body : value
}.

(** What the component does besides setting its state. *)
Inductive Effect :=
| Sent (request : Request)
| AlertShown (title message : jsstring)
| ErrorLogged
| Handled (action : Action).

Definition placeRequest (st : State) (coords : MapCoordinates) : Request :=
  {| url := lit "http://192.168.1.101/places";
     method := lit "POST";
     headers :=
       (lit "Content-Type", lit "application/json")
       :: match token st with
          | Some t =>
              if JSString.truthy t then [(lit "Authorization", lit "Bearer " ++ t)]
              else []
          | None => []
          end;
     body :=
       Object [(lit "name", String (newPlaceName st));
               (lit "desc", String (newPlaceDesc st));
               (lit "lat", latitude coords);
               (lit "lon", longitude coords)] |}.

(** [setMarkers([...markers, created]); setShowAddModal(false);
    setNewPlaceCoords(null); setNewPlaceName(''); setNewPlaceDesc('')] *)
Definition added (created : value) (st : State) : State :=
  {| selectedLocation := selectedLocation st; address := address st;
     isLoading := isLoading st; markers := markers st ++ [created];
     isMapLoaded := isMapLoaded st; showAddModal := false;
     newPlaceCoords := None; newPlaceName := []; newPlaceDesc := [];
     userRole := userRole st; token := token st |}.

Definition failureAlert : list Effect :=
  [AlertShown (lit "Ошибка") (lit "Ошибка при добавлении маркера"); ErrorLogged].

Definition handleAddMarker (st : State) (reply : Reply) : State * list Effect :=
  match newPlaceCoords st with
  | None => (st, [])
  | Some coords =>
      let request := Sent (placeRequest st coords) in
      match reply with
      | NoReply => (st, request :: failureAlert)
      | Replied status body =>
          if ok status then
            match body with
            | Parsed created => (added created st, [request])
            | SyntaxError => (st, request :: failureAlert)
            end
          else
            (st,
             [request;
              AlertShown (lit "Ошибка")
                (lit "Не удалось добавить маркер (" ++ JSNumber.decimal status
                 ++ lit ")")])
      end
  end.

(** What reaches the component: a message of the page, the text fields and
    the two buttons of the modal, and the page starting and ending to load. *)
Inductive Event :=
| WebViewMessage (message : parsed)
| NameChanged (text : jsstring)
| DescChanged (text : jsstring)
| CancelPressed
| AddPressed (reply : Reply)
| LoadStart
| LoadEnd.

Definition step (props : Props) (st : State) (e : Event) : State * list Effect :=
  match e with
  | WebViewMessage message =>
      let actions := actionsOf (handleWebViewMessage props st message) in
      (run st actions, List.map Handled actions)
  | NameChanged text =>
      ({| selectedLocation := selectedLocation st; address := address st;
          isLoading := isLoading st; markers := markers st;
          isMapLoaded := isMapLoaded st; showAddModal := showAddModal st;
          newPlaceCoords := newPlaceCoords st; newPlaceName := text;
          newPlaceDesc := newPlaceDesc st; userRole := userRole st;
          token := token st |}, [])
  | DescChanged text =>
      ({| selectedLocation := selectedLocation st; address := address st;
          isLoading := isLoading st; markers := markers st;
          isMapLoaded := isMapLoaded st; showAddModal := showAddModal st;
          newPlaceCoords := newPlaceCoords st; newPlaceName := newPlaceName st;
          newPlaceDesc := text; userRole := userRole st; token := token st |}, [])
  | CancelPressed =>
      (run st [SetShowAddModal false; SetNewPlaceCoords None], [])
  | AddPressed reply => handleAddMarker st reply
  | LoadStart => (run st [SetIsLoading true], [])
  | LoadEnd => (run st [SetIsLoading false], [])
  end.

(** The state after a sequence of events, and everything done on the way. *)
Fixpoint steps (props : Props) (st : State) (events : list Event)
  : State * list Effect :=
  match events with
  | [] => (st, [])
  | e :: rest =>
      let '(st1, done) := step props st e in
      let '(st2, later) := steps props st1 rest in
      (st2, done ++ later)
  end.

(** The requests among the effects. *)
Definition requests (effects : list Effect) : list Request :=
  flat_map (fun e => match e with Sent r => [r] | _ => [] end) effects.

Definition alertsShown (effects : list Effect) : list (jsstring * jsstring) :=
  flat_map
    (fun e => match e with AlertShown title message => [(title, message)] | _ => [] end)
    effects.

(** The setters that [handleWebViewMessage] has for the modal. *)
Definition opensModal (a : Action) : bool :=
  match a with
  | SetNewPlaceCoords _ | SetShowAddModal _ => true
  | _ => false
  end.

End AddPlace.

(** ** The map screen ([MapScreen]) *)

Module MapScreen.
Import JS YandexMap.

(** [INITIAL_LOCATION]: the doubles nearest to the two decimals. *)
#[warnings="-inexact-float"]
Definition INITIAL_LOCATION : MapCoordinates :=
  {| latitude := Number 48.0158; longitude := Number 37.8026 |}.

(** The screen's state: one field for each [useState], and the reference
    [hasCenteredInitial]. *)
Record State := {
  searchQuery : jsstring;
  selectedLocation : MapCoordinates;
  selectedAddress : value;
  searchActive : bool;
  userLocation : option MapCoordinates;
  hasCenteredInitial : bool
}.

Definition initial : State :=
  {| searchQuery := [];
     selectedLocation := INITIAL_LOCATION;
     selectedAddress := Undefined;
     searchActive := false;
     userLocation := None;
     hasCenteredInitial := false |}.

(** What the screen asks of the map component and of the device. *)
Inductive Call :=
| SearchAddress (address : jsstring)
| BuildRoute (address : jsstring) (start : option MapCoordinates)
| MoveToCoordinates (coords : MapCoordinates)
| KeyboardDismiss
| FocusSearchInput.

(** The actions that [registerMapSearchHandler] delivers. *)
Inductive ExternalAction :=
| Search (query : option jsstring)
| Route (query : jsstring).

Definition setSearch (text : jsstring) (active : bool) (st : State) : State :=
  {| searchQuery := text; selectedLocation := selectedLocation st;
     selectedAddress := selectedAddress st; searchActive := active;
     userLocation := userLocation st;
     hasCenteredInitial := hasCenteredInitial st |}.

Definition setSelected (coords : MapCoordinates) (address : value) (st : State)
  : State :=
  {| searchQuery := searchQuery st; selectedLocation := coords;
     selectedAddress := address; searchActive := searchActive st;
     userLocation := userLocation st;
     hasCenteredInitial := hasCenteredInitial st |}.

Definition handleLocationSelect (coords : MapCoordinates) (address : value)
  (st : State) : State :=
  setSelected coords address st.

Definition performSearch (st : State) : State * list Call :=
  let trimmed := trim (searchQuery st) in
  if negb (JSString.truthy trimmed) then (st, [])
  else (st, [SearchAddress trimmed; KeyboardDismiss]).

Definition openSearch (st : State) : State * list Call :=
  (setSearch (searchQuery st) true st, [FocusSearchInput]).

Definition handleExternalAction (action : ExternalAction) (st : State)
  : State * list Call :=
  match action with
  | Search query =>
      match trim <$> query with
      | Some trimmed =>
          if JSString.truthy trimmed
          then (setSearch trimmed false st, [SearchAddress trimmed])
          else openSearch st
      | None => openSearch st
      end
  | Route query =>
      let trimmed := trim query in
      if negb (JSString.truthy trimmed) then (st, [])
      else (setSearch trimmed false st, [BuildRoute trimmed (userLocation st)])
  end.

(** The effect on [userLocation]: the first position that arrives becomes
    the selection, once. *)
Definition centerOnUser (st : State) : State * list Call :=
  match userLocation st with
  | Some coords =>
      if negb (hasCenteredInitial st) then
        ({| searchQuery := searchQuery st; selectedLocation := coords;
            selectedAddress := String (lit "Моё местоположение");
            searchActive := searchActive st; userLocation := userLocation st;
            hasCenteredInitial := true |},
         [MoveToCoordinates coords])
      else (st, [])
  | None => (st, [])
  end.

Definition handleRecenter (st : State) : State * list Call :=
  let target := match userLocation st with
                | Some coords => coords
                | None => selectedLocation st
                end in
  (setSelected target (selectedAddress st) st, [MoveToCoordinates target]).

(** What happens on the screen. *)
Inductive Event :=
| LocationSelected (coords : MapCoordinates) (address : value)
| QueryChanged (text : jsstring)
| QueryCleared
| InputFocused
| InputBlurred
| SearchSubmitted
| External (action : ExternalAction)
| UserLocated (coords : MapCoordinates)
| RecenterPressed.

Definition step (st : State) (e : Event) : State * list Call :=
  match e with
  | LocationSelected coords address => (handleLocationSelect coords address st, [])
  | QueryChanged text => (setSearch text (searchActive st) st, [])
  | QueryCleared => (setSearch [] (searchActive st) st, [])
  | InputFocused => (setSearch (searchQuery st) true st, [])
  | InputBlurred => (setSearch (searchQuery st) false st, [])
  | SearchSubmitted => performSearch st
  | External action => handleExternalAction action st
  | UserLocated coords =>
      centerOnUser
        {| searchQuery := searchQuery st; selectedLocation := selectedLocation st;
           selectedAddress := selectedAddress st; searchActive := searchActive st;
           userLocation := Some coords;
           hasCenteredInitial := hasCenteredInitial st |}
  | RecenterPressed => handleRecenter st
  end.

Fixpoint steps (st : State) (events : list Event) : State * list Call :=
  match events with
  | [] => (st, [])
  | e :: rest =>
      let '(st1, done) := step st e in
      let '(st2, later) := steps st1 rest in
      (st2, done ++ later)
  end.

(** The texts sent to the map, for a search or for a route. *)
Definition textsSent (calls : list Call) : list jsstring :=
  flat_map
    (fun c => match c with
              | SearchAddress text | BuildRoute text _ => [text]
              | _ => []
              end)
    calls.

(** The positions the map was moved to. *)
Definition moves (calls : list Call) : list MapCoordinates :=
  flat_map (fun c => match c with MoveToCoordinates coords => [coords] | _ => [] end)
    calls.

(** The first position of the user among the events. *)
Definition firstFix (events : list Event) : option MapCoordinates :=
  head (flat_map (fun e => match e with UserLocated coords => [coords] | _ => [] end)
          events).

Definition pressesRecenter (e : Event) : bool :=
  match e with RecenterPressed => true | _ => false end.

(** The screen's [handleLocationSelect] given to the map component as
    [onLocationSelect]: each call of the callback among the component's
    actions reaches the screen. *)
Definition deliver (actions : list Action) (st : State) : State :=
  fold_left (fun st call => handleLocationSelect (fst call) (snd call) st)
    (callbackCalls actions) st.

End MapScreen.

(** ** The login screen that works without a server (the second
       [AuthScreen], in the file of [constants/content.ts]) *)

Module LocalAuth.
Import Auth.

Record Following := {
  followingId : jsstring;
  followingName : jsstring;
  followingHandle : jsstring;
  followingAvatar : jsstring;
  followingDescription : jsstring
}.

Record UserSession := {
  id : jsstring;
  name : jsstring;
  email : jsstring;
  handle : jsstring;
  avatar : jsstring;
  accountType : AccountType;
  favorites : list jsstring;
  liked : list jsstring;
  following : list Following
}.

(** [list.slice(from, to)] for [0 <= from <= to]. *)
Definition slice {A : Type} (from to : nat) (l : list A) : list A :=
  take (to - from) (drop from l).

Definition sampleFavorites (posts : list Post.t) : list jsstring :=
  List.map Post.id (slice 0 3 posts).

Definition sampleLiked (posts : list Post.t) : list jsstring :=
  List.map Post.id (slice 1 4 posts).

Definition sampleFollowing (posts : list Post.t) : list Following :=
  List.map
    (fun post =>
       {| followingId := Post.id post;
          followingName := Post.user post;
          followingHandle := Post.userHandle post;
          followingAvatar := Post.userAvatar post;
          followingDescription := Post.bio post |})
    (slice 0 5 posts).

(** [a || b] on two strings. *)
Definition orText (a b : jsstring) : jsstring := if truthy a then a else b.

(** [String(n)] for an integer [n] such as [Date.now()] gives. *)
Definition integerText (n : Z) : jsstring :=
  (if n <? 0 then lit "-" else []) ++ JSNumber.decimal (Z.to_N (Z.abs n)).

Definition primaryName (f : Form) : jsstring :=
  orText
    (orText
       (if isRegister f
        then (if isCompany f then trim (companyName f) else trim (Auth.name f))
        else trim (Auth.name f))
       (beforeAt (trim (Auth.email f))))
    (lit "Гость").

(** What [/[^a-z0-9_]/gi] does not match: with the flag [i] and without the
    flag [u], the letters of both cases of Basic Latin, the digits and the
    underscore, and no code unit beyond Basic Latin. *)
Definition isHandleChar (c : N) : bool :=
  ((97 <=? c) && (c <=? 122) || (65 <=? c) && (c <=? 90)
   || (48 <=? c) && (c <=? 57) || (c =? 95))%N.

(** [email.trim().split('@')[0]?.replace(/[^a-z0-9_]/gi, '').toLowerCase()
    || `user${Date.now()}`] *)
Definition normalizedHandle (f : Form) (now : Z) : jsstring :=
  orText
    (toLowerCase (List.filter isHandleChar (beforeAt (trim (Auth.email f)))))
    (lit "user" ++ integerText now).

Inductive Effect :=
| AlertShown (title message : jsstring)
| KeyboardDismissed
| SessionSet (session : UserSession)
| Replaced (path : jsstring).

(** What the handler did, and whether it ended by throwing. *)
Record Outcome := { effects : list Effect; threw : bool }.

(** [handleSubmit()]: [nowHandle] and [nowId] are what [Date.now()] returns
    for the handle, if it is asked, and for the id. *)
Definition handleSubmit (posts : list Post.t) (f : Form) (nowHandle nowId : Z)
  : Outcome :=
  if negb (canSubmit f) then
    {| effects :=
         [AlertShown (lit "Пожалуйста, заполните все поля")
            (lit "Укажите почту, пароль и имя, чтобы продолжить.")];
       threw := false |}
  else
    match encodeURIComponent (orText (trim (Auth.email f)) (primaryName f)) with
    | None => {| effects := [KeyboardDismissed]; threw := true |}
    | Some encoded =>
        let session :=
          {| id := lit "user-" ++ integerText nowId;
             name := primaryName f;
             email := trim (Auth.email f);
             handle := normalizedHandle f nowHandle;
             avatar := lit "https://i.pravatar.cc/200?u=" ++ encoded;
             accountType := Auth.accountType f;
             favorites := sampleFavorites posts;
             liked := sampleLiked posts;
             following := sampleFollowing posts |} in
        {| effects := [KeyboardDismissed; SessionSet session;
                       Replaced (lit "/profile")];
           threw := false |}
    end.

(** A code unit of [[a-z0-9_]]. *)
Definition isLowerHandleChar (c : N) : bool :=
  ((97 <=? c) && (c <=? 122) || (48 <=? c) && (c <=? 57) || (c =? 95))%N.

End LocalAuth.

(** ** The login screen ([login.tsx]) and the rest of the application *)

Module Account.
Import JS Auth.

(** The fields that a submission requires. *)
Definition required (f : Form) : list jsstring :=
  if isRegister f
  then [email f; password f; if isCompany f then companyName f else name f]
  else [email f; password f].

(** The requests among the effects. *)
Definition requests (effects : list Effect) : list Effect :=
  List.filter (fun e => match e with Fetch _ _ => true | _ => false end) effects.

End Account.

(** ** Running the initialization scripts *)

Module Ddl.
Import Schema.

Record Index := {
  indexName : string;
  indexTable : string;
  indexColumn : string
}.

(** What a database holds of its schema: its tables, in the order of their
    creation, and the indexes created by name. *)
Record Catalog := {
  tables : list Table;
  indexes : list Index
}.

Definition empty : Catalog := {| tables := []; indexes := [] |}.

Definition lookupTable (cat : Catalog) (name : string) : option Table :=
  List.find (fun t => String.eqb (tableName t) name) (tables cat).

Definition hasColumn (t : Table) (name : string) : bool :=
  existsb (fun c => String.eqb (columnName c) name) (columns t).

Definition hasIndex (cat : Catalog) (table name : string) : bool :=
  existsb (fun i => String.eqb (indexTable i) table && String.eqb (indexName i) name)
    (indexes cat).

(** A foreign key needs its column, and the table and the column it refers
    to, which may be the table that is being created. *)
Definition referenceExists (cat : Catalog) (t : Table) (fk : ForeignKey) : bool :=
  hasColumn t (fkColumn fk)
  && match (if String.eqb (refTable fk) (tableName t) then Some t
            else lookupTable cat (refTable fk)) with
     | Some parent => hasColumn parent (refColumn fk)
     | None => false
     end.

(** One statement: [None] is an error. [CREATE TABLE IF NOT EXISTS] leaves
    a table of that name as it is; [CREATE INDEX] has no such clause, and
    fails on a name that the table already has an index of. *)
Definition execute (s : Statement) (cat : Catalog) : option Catalog :=
  match s with
  | CreateTableIfNotExists t =>
      match lookupTable cat (tableName t) with
      | Some _ => Some cat
      | None =>
          if forallb (referenceExists cat t) (foreignKeys t)
          then Some {| tables := tables cat ++ [t]; indexes := indexes cat |}
          else None
      end
  | CreateIndex name table col =>
      match lookupTable cat table with
      | Some t =>
          if hasColumn t col && negb (hasIndex cat table name)
          then Some {| tables := tables cat;
                       indexes := indexes cat
                                  ++ [{| indexName := name; indexTable := table;
                                         indexColumn := col |}] |}
          else None
      | None => None
      end
  end.

(** A script stops at its first error. *)
Fixpoint run (script : list Statement) (cat : Catalog) : option Catalog :=
  match script with
  | [] => Some cat
  | s :: rest => cat' ← execute s cat; run rest cat'
  end.

End Ddl.

(** ** The profile screen ([ProfileScreen]) *)

Module Profile.
Import Content.

(** [post.userHandle === sessionHandle]; the handle of a session is whatever
    the login put there. *)
Definition own (sessionHandle : JS.value) (post : Post.t) : bool :=
  JS.isString sessionHandle (Post.userHandle post).

(** [isCompany ? posts.filter(post => post.userHandle === sessionHandle)
    .map(normalizePost) : []]: [map] hands the index in the filtered list to
    [normalizePost]. *)
Definition companyPosts (isCompany : bool) (sessionHandle : JS.value)
  (posts : list Post.t) : list NormalizedPost.t :=
  if isCompany then normalizeFrom 0 (List.filter (own sessionHandle) posts)
  else [].

End Profile.

(** * Theorems *)

(** ** String primitives *)

Section StringFacts.
Import JSString.

Lemma streq_true (a b : jsstring) : streq a b = true <-> a = b.
Proof. unfold streq. apply bool_decide_eq_true. Qed.

Lemma startsWith_app (s p : jsstring) :
  startsWith s p = true <-> exists rest, s = p ++ rest.
Proof.
  revert s. induction p as [|c p IH]; intros s; simpl.
  - split; [intros _; now exists s | reflexivity].
  - destruct s as [|d s].
    + split; [discriminate | intros [rest H]; discriminate H].
    + rewrite andb_true_iff, N.eqb_eq, IH. split.
      * intros [-> [rest ->]]. now exists rest.
      * intros [rest H]. injection H as -> ->. split; [reflexivity | now exists rest].
Qed.

Lemma includes_occurs (s p : jsstring) :
  includes s p = true <-> exists before after, s = before ++ p ++ after.
Proof.
  induction s as [|d s IH]; simpl.
  - rewrite orb_false_r, startsWith_app. split.
    + intros [rest H]. now exists [], rest.
    + intros [before [after H]]. destruct before as [|x before]; [|discriminate H].
      now exists after.
  - rewrite orb_true_iff, startsWith_app, IH. split.
    + intros [[rest H] | [before [after H]]].
      * now exists [], rest.
      * exists (d :: before), after. now rewrite H.
    + intros [before [after H]]. destruct before as [|x before].
      * left. now exists after.
      * right. injection H as _ H. now exists before, after.
Qed.

Lemma truthy_false (s : jsstring) : truthy s = false <-> s = [].
Proof. destruct s; simpl; split; congruence. Qed.

End StringFacts.

(** ** The search filter *)

Section SearchFacts.
Import JSString Search.

Lemma matchesCategory_spec (category : jsstring) (post : NormalizedPost.t) :
  matchesCategory category post = true <-> categoryCondition category post.
Proof.
  unfold matchesCategory, categoryCondition.
  rewrite orb_true_iff, streq_true, existsb_exists.
  split; (intros [H | [tag [Hin Htag]]]; [now left | right; exists tag]);
    split; try assumption; now apply streq_true.
Qed.

Lemma haystack_join (post : NormalizedPost.t) :
  haystack post =
  toLowerCase
    (join (lit " ")
       (NormalizedPost.place post :: NormalizedPost.user post
        :: NormalizedPost.address post :: NormalizedPost.bio post
        :: NormalizedPost.tags post)).
Proof. reflexivity. Qed.

Lemma Selected_filter {A : Type} (P : A -> Prop) (f : A -> bool) (l : list A) :
  (forall x, f x = true <-> P x) -> Selected P l (List.filter f l).
Proof.
  intros Hf. induction l as [|x l IH]; simpl.
  - constructor.
  - destruct (f x) eqn:E.
    + apply Selected_keep; [now apply Hf | exact IH].
    + apply Selected_skip; [rewrite <- Hf; congruence | exact IH].
Qed.

(** What [Selected] keeps is determined by the list and the property. *)
Lemma Selected_unique {A : Type} (P : A -> Prop) (l l1 l2 : list A) :
  Selected P l l1 -> Selected P l l2 -> l1 = l2.
Proof.
  intros H1. revert l2. induction H1 as [|x l l1 Hx _ IH|x l l1 Hx _ IH];
    intros l2 H2; inversion H2; subst; try contradiction.
  - reflexivity.
  - f_equal. now apply IH.
  - now apply IH.
Qed.

Lemma Selected_in {A : Type} (P : A -> Prop) (l l' : list A) (x : A) :
  Selected P l l' -> (In x l' <-> In x l /\ P x).
Proof.
  induction 1 as [|y l l' Hy _ IH|y l l' Hy _ IH]; simpl.
  - tauto.
  - rewrite IH. split; [intros [-> | H]; tauto | intros [[-> | H] HP]; tauto].
  - rewrite IH. split; [tauto | intros [[-> | H] HP]; [contradiction | tauto]].
Qed.

(** C1. For every array of normalized posts, every category and every query,
    [filterPosts] returns exactly the posts of the array, in their original
    order, for which the category is ['all'] or equals the lower-cased form of
    one of the post's tags, and for which the trimmed and lower-cased query is
    empty or occurs in the lower-cased text made of the post's place, user,
    address, bio and tags joined with single spaces. *)
Theorem filterPosts_selects
  (data : list NormalizedPost.t) (category query : jsstring) :
  Selected (fun post => categoryCondition category post /\ queryCondition query post)
    data (filterPosts data category query).
Proof.
  unfold filterPosts. apply Selected_filter. intros post.
  unfold queryCondition, occursIn. rewrite <- haystack_join, <- matchesCategory_spec.
  rewrite <- truthy_false, <- includes_occurs.
  destruct (matchesCategory category post); simpl.
  - destruct (truthy (toLowerCase (trim query))); simpl.
    + split; [intros H; split; [reflexivity | now right] | intros [_ [H | H]]];
        congruence.
    + split; [intros _; split; [reflexivity | now left] | reflexivity].
  - split; [discriminate | intros [H _]; discriminate H].
Qed.

Example filterPosts_example :
  let cafe := samplePost (lit "Кофейня «Зерно»") [lit "Кофе"; lit "Завтраки"] in
  let park := samplePost (lit "Парк Победы") [lit "Прогулки"] in
  filterPosts [cafe; park] (lit "all") (lit "  ПАРК ") = [park]
  /\ filterPosts [cafe; park] (lit "кофе") [] = [cafe]
  /\ filterPosts [cafe; park] (lit "Кофе") [] = []
  /\ filterPosts [cafe; park] (lit "all") [] = [cafe; park].
Proof. repeat split. Qed.

End SearchFacts.

(** ** Normalising the posts *)

Section ContentFacts.
Import JSString JSNumber Content.

Lemma normalizePost_normalizedFrom (post : Post.t) (index : nat) :
  normalizedFrom post index (normalizePost post index).
Proof. unfold normalizedFrom. repeat split. Qed.

Lemma normalizeFrom_length (posts : list Post.t) (start : nat) :
  length (normalizeFrom start posts) = length posts.
Proof.
  revert start. induction posts as [|post rest IH]; intros start; simpl.
  - reflexivity.
  - now rewrite IH.
Qed.

Lemma normalizeFrom_lookup (posts : list Post.t) (start i : nat) :
  normalizeFrom start posts !! i
  = (fun post => normalizePost post (start + i)) <$> posts !! i.
Proof.
  revert start i. induction posts as [|post rest IH]; intros start i.
  - reflexivity.
  - destruct i as [|i]; simpl.
    + now rewrite Nat.add_0_r.
    + rewrite IH. now rewrite Nat.add_succ_comm.
Qed.

Lemma parseNumericValue_described (value : NumericValue) :
  parseNumericValue value = describedNumericValue value.
Proof.
  destruct value as [x|s]; simpl; [reflexivity|].
  unfold scaledOrZero.
  repeat match goal with |- context [if ?b then _ else _] => destruct b end;
    reflexivity.
Qed.

(** C2. [normalizePosts] returns a list of the same length whose element at
    index [i] agrees with the post at index [i] on every field, except that
    its [uid] is the post's id followed by a hyphen and [i], and that its
    [likes], [totalLikes] and [followers] are [parseNumericValue] of the
    post's; and [parseNumericValue] returns a number as it is and, for a
    string, trims, lower-cases and strips it, turns the first comma into a
    dot, scales by 1000000 for the suffix of millions, else by 1000 for the
    suffix of thousands or a final [k], and returns 0 when what is left does
    not parse to a finite number. *)
Theorem normalizePosts_spec (posts : list Post.t) :
  length (normalizePosts posts) = length posts
  /\ (forall (i : nat) (post : Post.t),
        posts !! i = Some post ->
        exists np, normalizePosts posts !! i = Some np /\ normalizedFrom post i np)
  /\ (forall value, parseNumericValue value = describedNumericValue value).
Proof.
  split; [apply normalizeFrom_length | split].
  - intros i post Hi. exists (normalizePost post i). split.
    + unfold normalizePosts. rewrite normalizeFrom_lookup, Hi. reflexivity.
    + apply normalizePost_normalizedFrom.
  - apply parseNumericValue_described.
Qed.

Example parseNumericValue_examples :
  parseNumericValue (NumV 7) = 7%float
  /\ parseNumericValue (StrV (lit " 1,5 Тыс ")) = 1500%float
  /\ parseNumericValue (StrV (lit "2.5 млн")) = 2500000%float
  /\ parseNumericValue (StrV (lit "12K")) = 12000%float
  /\ parseNumericValue (StrV (lit "1 234")) = 1234%float
  /\ parseNumericValue (StrV (lit "много")) = 0%float.
Proof. repeat split. Qed.

End ContentFacts.

(** ** Binary64, through its specification *)

Section FloatFacts.
Import JSNumber.

Lemma digits2_size (p : positive) : digits2_pos p = Pos.size p.
Proof. induction p as [p IH|p IH|]; simpl; now rewrite ?IH. Qed.

Lemma Zdigits2_nonneg_le (x k : Z) : 0 <= x < 2 ^ k -> 0 <= k -> Zdigits2 x <= k.
Proof.
  intros [Hx Hk] Hk0. destruct x as [|p|p]; simpl; [lia | | lia].
  rewrite digits2_size.
  assert (Hsize : 2 ^ Z.pos (Pos.size p) <= 2 * Z.pos p).
  { pose proof (Pos.size_le p) as H.
    change (2 * Z.pos p) with (Z.pos p~0).
    rewrite <- Pos2Z.inj_pow. now apply Pos2Z.pos_le_pos. }
  destruct (Z.le_gt_cases (Z.pos (Pos.size p)) k) as [Hle | Hgt]; [exact Hle|].
  assert (2 ^ (k + 1) <= 2 ^ Z.pos (Pos.size p))
    by (apply Z.pow_le_mono_r; lia).
  rewrite Z.pow_add_r in * by lia. change (2 ^ 1) with 2 in *. lia.
Qed.

Lemma fexp_mono (a b : Z) : a <= b -> fexp prec emax a <= fexp prec emax b.
Proof. unfold fexp. lia. Qed.

(** A mantissa that is not negative stays so, and does not grow, when it is
    shifted right. *)
Lemma shr_1_shifted (bound : Z) (mrs : shr_record) :
  shifted bound mrs -> shifted bound (shr_1 mrs).
Proof.
  unfold shifted. destruct mrs as [m r s]. simpl.
  destruct m as [|[p|p|]|[p|p|]]; simpl; lia.
Qed.

Lemma iter_pos_shifted (bound : Z) (n : positive) (mrs : shr_record) :
  shifted bound mrs -> shifted bound (SpecFloat.iter_pos shr_1 n mrs).
Proof.
  revert mrs. induction n as [n IH|n IH|]; intros mrs H; simpl.
  - now apply IH, IH, shr_1_shifted.
  - now apply IH, IH.
  - now apply shr_1_shifted.
Qed.

Lemma shr_fexp_shifted (m e : Z) (l : location) (digits : Z) :
  0 <= m < 2 ^ digits -> 0 <= digits ->
  shifted m (fst (shr_fexp prec emax m e l))
  /\ snd (shr_fexp prec emax m e l) <= Z.max e (fexp prec emax (digits + e)).
Proof.
  intros Hm Hd. unfold shr_fexp, shr.
  assert (Hstart : shifted m (shr_record_of_loc m l)).
  { unfold shifted. destruct l as [|[| |]]; simpl; lia. }
  pose proof (fexp_mono (Zdigits2 m + e) (digits + e)
                ltac:(pose proof (Zdigits2_nonneg_le m digits Hm Hd); lia)) as Hf.
  destruct (fexp prec emax (Zdigits2 m + e) - e) as [|n|n] eqn:Hn; simpl.
  - split; [exact Hstart | lia].
  - split; [now apply iter_pos_shifted | lia].
  - split; [exact Hstart | lia].
Qed.

Lemma round_nearest_even_bounds (m : Z) (l : location) :
  0 <= m -> 0 <= round_nearest_even m l <= m + 1.
Proof.
  intros Hm. destruct l as [|[| |]]; simpl; try lia.
  destruct (Z.even m); lia.
Qed.

(** What rounding a mantissa that is not negative comes to: never a NaN,
    and an exponent bounded through the number of digits. *)
Lemma binary_round_aux_shape (mx ex : Z) (lx : location) (digits : Z) :
  0 <= mx < 2 ^ digits -> 0 <= digits ->
  let e1 := Z.max ex (fexp prec emax (digits + ex)) in
  let e2 := Z.max e1 (fexp prec emax (digits + 1 + e1)) in
  binary_round_aux prec emax false mx ex lx = S754_zero false
  \/ (exists m e, binary_round_aux prec emax false mx ex lx = S754_finite false m e
                  /\ e <= e2)
  \/ (binary_round_aux prec emax false mx ex lx = S754_infinity false
      /\ emax - prec < e2).
Proof.
  intros Hmx Hd e1 e2. unfold binary_round_aux.
  destruct (shr_fexp_shifted mx ex lx digits Hmx Hd) as [Hs1 He1].
  destruct (shr_fexp prec emax mx ex lx) as [mrs' e'] eqn:E1. simpl in Hs1, He1.
  set (m1 := round_nearest_even (shr_m mrs') (loc_of_shr_record mrs')).
  assert (Hm1 : 0 <= m1 < 2 ^ (digits + 1)).
  { pose proof (round_nearest_even_bounds (shr_m mrs') (loc_of_shr_record mrs')
                  ltac:(unfold shifted in Hs1; lia)) as Hr.
    fold m1 in Hr. unfold shifted in Hs1.
    rewrite Z.pow_add_r by lia. change (2 ^ 1) with 2. lia. }
  destruct (shr_fexp_shifted m1 e' loc_Exact (digits + 1) Hm1 ltac:(lia))
    as [Hs2 He2].
  destruct (shr_fexp prec emax m1 e' loc_Exact) as [mrs'' e''] eqn:E2.
  simpl in Hs2, He2.
  assert (He'' : e'' <= e2).
  { pose proof (fexp_mono (digits + 1 + e') (digits + 1 + e1) ltac:(lia)).
    subst e2. fold e1 in He1. lia. }
  unfold shifted in Hs2.
  destruct (shr_m mrs'') as [|p|p]; [now left | | lia].
  destruct (e'' <=? emax - prec) eqn:Hle.
  - right. left. now exists p, e''.
  - right. right. apply Z.leb_gt in Hle. split; [reflexivity | lia].
Qed.

(** The quotient of an absolute value by a positive constant is a NaN only
    when the value is, and otherwise has the sign bit clear. *)
Lemma quotient_shape (v c : float) (mc : positive) (ec : Z) :
  Prim2SF c = S754_finite false mc ec ->
  Prim2SF (PrimFloat.abs v / c) = S754_nan /\ Prim2SF v = S754_nan
  \/ Prim2SF (PrimFloat.abs v / c) = S754_zero false
  \/ (exists m e, Prim2SF (PrimFloat.abs v / c) = S754_finite false m e)
  \/ Prim2SF (PrimFloat.abs v / c) = S754_infinity false.
Proof.
  intros Hc. rewrite div_spec, abs_spec, Hc.
  destruct (Prim2SF v) as [s|s| |s m e]; simpl; try tauto.
  destruct (SFdiv_core_binary prec emax (Z.pos m) e (Z.pos mc) ec)
    as [[mz ez] lz] eqn:Hdiv.
  assert (Hmz : 0 <= mz).
  { unfold SFdiv_core_binary in Hdiv.
    set (m' := match _ with Z.pos _ => _ | Z0 => _ | Z.neg _ => _ end) in Hdiv.
    assert (Hm' : 0 <= m').
    { subst m'. destruct (_ - _ - _); try lia. apply Z.shiftl_nonneg. lia. }
    pose proof (Z.div_eucl_eq m' (Z.pos mc) ltac:(lia)) as Heq.
    pose proof (Z.mod_pos_bound m' (Z.pos mc) ltac:(lia)) as Hmod.
    unfold Z.modulo in Hmod.
    destruct (Z.div_eucl m' (Z.pos mc)) as [q r]. injection Hdiv as <- _ _. nia. }
  destruct (binary_round_aux_shape mz ez lz (Z.log2 mz + 1))
    as [H | [(m' & e' & H & _) | [H _]]].
  - split; [lia|]. destruct (Z.eq_dec mz 0) as [-> | Hne]; [simpl; lia|].
    apply Z.log2_spec. lia.
  - pose proof (Z.log2_nonneg mz). lia.
  - tauto.
  - right. right. left. now exists m', e'.
  - tauto.
Qed.

Lemma SFcompare_refl_finite (s : bool) (m : positive) (e : Z) :
  SFcompare (S754_finite s m e) (S754_finite s m e) = Some Eq.
Proof.
  simpl. rewrite Z.compare_refl, Pos.compare_cont_refl. now destruct s.
Qed.

(** A double whose specification is a zero or a finite number is finite. *)
Lemma finite_shape (x : float) :
  (exists s, Prim2SF x = S754_zero s) \/ (exists s m e, Prim2SF x = S754_finite s m e) ->
  isFinite x = true.
Proof.
  intros Hx. unfold isFinite, PrimFloat.is_finite, PrimFloat.is_nan,
    PrimFloat.is_infinity.
  rewrite !FloatAxioms.eqb_spec, abs_spec.
  change (Prim2SF infinity) with (S754_infinity false).
  destruct Hx as [[s ->] | (s & m & e & ->)]; unfold SFeqb.
  - reflexivity.
  - rewrite SFcompare_refl_finite. reflexivity.
Qed.

(** The absolute value of what has its sign bit clear is itself. *)
Lemma abs_of_positive (x : float) :
  Prim2SF x = S754_nan \/ Prim2SF x = S754_zero false
  \/ (exists m e, Prim2SF x = S754_finite false m e)
  \/ Prim2SF x = S754_infinity false ->
  PrimFloat.abs x = x.
Proof.
  intros Hx. apply Prim2SF_inj. rewrite abs_spec.
  destruct Hx as [-> | [-> | [(m & e & ->) | ->]]]; reflexivity.
Qed.

Lemma quotient_abs (v c : float) (mc : positive) (ec : Z) :
  Prim2SF c = S754_finite false mc ec ->
  PrimFloat.abs (PrimFloat.abs v / c) = (PrimFloat.abs v / c)%float.
Proof.
  intros Hc. apply abs_of_positive.
  destruct (quotient_shape v c mc ec Hc) as [[H _] | H]; tauto.
Qed.

(** What the division of two mantissas hands to the rounding: a quotient
    that is not negative, with its exponent and a bound on its size. *)
Lemma div_core_shape (m1 m2 : positive) (e1 e2 : Z) :
  let x := Z.pos (digits2_pos m1) + e1 - (Z.pos (digits2_pos m2) + e2) in
  let e' := Z.min (fexp prec emax x) (e1 - e2) in
  exists q l,
    SFdiv_core_binary prec emax (Z.pos m1) e1 (Z.pos m2) e2 = (q, e', l)
    /\ 0 <= q < 2 ^ Z.max 0 (x + 1 - e').
Proof.
  intros x e'. unfold SFdiv_core_binary. simpl Zdigits2. fold x. fold e'.
  set (s := e1 - e2 - e').
  assert (Hs : 0 <= s) by (subst s e'; lia).
  set (m' := match s with Z.pos _ => Z.shiftl (Z.pos m1) s | 0 => Z.pos m1
                     | Z.neg _ => 0 end).
  assert (Hm' : m' = Z.pos m1 * 2 ^ s).
  { subst m'. destruct s as [|p|p] eqn:Es; [simpl; lia | | lia].
    now rewrite Z.shiftl_mul_pow2. }
  pose proof (Z.div_eucl_eq m' (Z.pos m2) ltac:(lia)) as Heq.
  pose proof (Z.mod_pos_bound m' (Z.pos m2) ltac:(lia)) as Hmod.
  unfold Z.modulo in Hmod.
  destruct (Z.div_eucl m' (Z.pos m2)) as [q r]. exists q, (new_location (Z.pos m2) r).
  split; [reflexivity|].
  assert (H1 : Z.pos m1 < 2 ^ Z.pos (digits2_pos m1)).
  { rewrite digits2_size, <- Pos2Z.inj_pow. apply Pos2Z.pos_lt_pos, Pos.size_gt. }
  assert (H2 : 2 ^ Z.pos (digits2_pos m2) <= 2 * Z.pos m2).
  { rewrite digits2_size. change (2 * Z.pos m2) with (Z.pos m2~0).
    rewrite <- Pos2Z.inj_pow. apply Pos2Z.pos_le_pos, Pos.size_le. }
  set (d1 := Z.pos (digits2_pos m1)) in *. set (d2 := Z.pos (digits2_pos m2)) in *.
  assert (Hd1 : 0 < d1) by (subst d1; lia).
  assert (Hd2 : 0 < d2) by (subst d2; lia).
  assert (Hq0 : 0 <= q) by nia.
  split; [exact Hq0|].
  assert (Hx : x + 1 - e' = d1 + s - d2 + 1) by (subst x s; lia).
  rewrite Hx.
  assert (Hnum : q * 2 ^ d2 < 2 * 2 ^ (d1 + s)).
  { rewrite Z.pow_add_r by lia.
    assert (0 < 2 ^ s) by (apply Z.pow_pos_nonneg; lia).
    nia. }
  assert (Hdouble : 2 * 2 ^ (d1 + s) = 2 ^ (d1 + s + 1))
    by (rewrite (Z.pow_add_r 2 (d1 + s) 1) by lia; change (2 ^ 1) with 2; lia).
  assert (Hpos2 : 0 < 2 ^ d2) by (apply Z.pow_pos_nonneg; lia).
  destruct (Z.le_gt_cases 0 (d1 + s - d2 + 1)) as [Hge | Hlt].
  - rewrite Z.max_r by lia.
    replace (d1 + s + 1) with (d1 + s - d2 + 1 + d2) in Hdouble by lia.
    rewrite (Z.pow_add_r 2 (d1 + s - d2 + 1) d2) in Hdouble by lia.
    apply (Z.mul_lt_mono_pos_r (2 ^ d2)); [exact Hpos2|].
    rewrite <- Hdouble. exact Hnum.
  - rewrite Z.max_l by lia. change (2 ^ 0) with 1.
    assert (Hpow : 2 ^ (d1 + s + 1) <= 2 ^ d2) by (apply Z.pow_le_mono_r; lia).
    rewrite Hdouble in Hnum. set (p := 2 ^ d2) in *. nia.
Qed.

(** Between a thousand and a million, the thousandth is a finite number far
    below [10^21]. *)
Lemma thousands_quotient (v : float) :
  (1000000 <=? PrimFloat.abs v)%float = false ->
  (1000 <=? PrimFloat.abs v)%float = true ->
  isFinite (PrimFloat.abs v / 1000) = true
  /\ (1e21 <=? PrimFloat.abs (PrimFloat.abs v / 1000))%float = false.
Proof.
  intros Hmillion Hthousand.
  rewrite (quotient_abs v 1000 8796093022208000%positive (-43) eq_refl).
  rewrite leb_spec, abs_spec in Hmillion, Hthousand.
  change (Prim2SF 1000000) with (S754_finite false 8589934592000000 (-33)) in Hmillion.
  change (Prim2SF 1000) with (S754_finite false 8796093022208000 (-43)) in Hthousand.
  pose proof (Prim2SF_valid v) as Hvalid.
  destruct (Prim2SF v) as [s|s| |s m e] eqn:Hv; try discriminate.
  unfold SFabs, SFleb, SFcompare in Hmillion, Hthousand.
  assert (He : -43 <= e <= -33).
  { destruct (Z.compare_spec (-33) e); destruct (Z.compare_spec (-43) e);
      try discriminate; lia. }
  clear Hmillion Hthousand.
  unfold valid_binary, bounded, canonical_mantissa in Hvalid.
  apply andb_true_iff in Hvalid as [Hcanon _]. apply Z.eqb_eq in Hcanon.
  assert (Hdigits : Z.pos (digits2_pos m) = 53).
  { unfold fexp, emin, prec, emax in Hcanon. lia. }
  assert (Hq : Prim2SF (PrimFloat.abs v / 1000) = S754_zero false
               \/ exists m' e', Prim2SF (PrimFloat.abs v / 1000) = S754_finite false m' e'
                                /\ e' <= -40).
  { rewrite div_spec, abs_spec, Hv.
    change (Prim2SF 1000) with (S754_finite false 8796093022208000 (-43)).
    unfold SFabs, SF64div, SFdiv. change (xorb false false) with false.
    destruct (div_core_shape m 8796093022208000 e (-43)) as (q & l & -> & Hq).
    rewrite Hdigits in *.
    change (Z.pos (digits2_pos 8796093022208000)) with 53 in *.
    assert (He' : Z.min (fexp prec emax (53 + e - (53 + -43))) (e - -43) = e - 10)
      by (unfold fexp, emin, prec, emax; lia).
    rewrite He' in *.
    replace (Z.max 0 (53 + e - (53 + -43) + 1 - (e - 10))) with 54 in Hq by lia.
    destruct (binary_round_aux_shape q (e - 10) l 54 Hq ltac:(lia))
      as [H | [(m' & e' & H & Hbound) | [_ Hbound]]].
    - now left.
    - right. exists m', e'. split; [exact H|].
      unfold fexp, emin, prec, emax in Hbound. lia.
    - unfold fexp, emin, prec, emax in Hbound. lia. }
  split.
  - apply finite_shape. destruct Hq as [-> | (m' & e' & -> & _)]; eauto.
  - rewrite leb_spec.
    change (Prim2SF 1e21) with (S754_finite false 7629394531250000 17).
    destruct Hq as [-> | (m' & e' & -> & Hbound)]; [reflexivity|].
    unfold SFleb, SFcompare.
    destruct (Z.compare_spec 17 e'); [lia | lia | reflexivity].
Qed.

(** From a million on, the millionth is finite as long as it is below
    [10^21]. *)
Lemma millions_quotient (v : float) :
  (1000000 <=? PrimFloat.abs v)%float = true ->
  (1e21 <=? PrimFloat.abs v / 1000000)%float = false ->
  isFinite (PrimFloat.abs v / 1000000) = true.
Proof.
  intros Hmillion Hbelow.
  destruct (quotient_shape v 1000000 8589934592000000%positive (-33) eq_refl)
    as [[_ Hnan] | [Hz | [(m & e & Hf) | Hinf]]].
  - rewrite leb_spec, abs_spec, Hnan in Hmillion. discriminate Hmillion.
  - apply finite_shape. eauto.
  - apply finite_shape. eauto.
  - rewrite leb_spec, Hinf in Hbelow. discriminate Hbelow.
Qed.

End FloatFacts.

(** ** Decimal digits *)

Section DecimalFacts.
Import JSString JSNumber.
Local Open Scope N_scope.

Lemma decimalAux_app (fuel : nat) (n : N) (acc : jsstring) :
  decimalAux fuel n acc = decimalAux fuel n [] ++ acc.
Proof.
  revert n acc. induction fuel as [|fuel IH]; intros n acc; simpl.
  - reflexivity.
  - destruct (n / 10 =? 0); [reflexivity|].
    rewrite (IH _ (_ :: acc)), (IH _ [_]), <- app_assoc. reflexivity.
Qed.

Lemma decimalAux_fuel (f1 f2 : nat) (n : N) :
  0 < n -> n < 2 ^ N.of_nat f1 -> n < 2 ^ N.of_nat f2 ->
  decimalAux f1 n [] = decimalAux f2 n [].
Proof.
  revert f2 n. induction f1 as [|f1 IH]; intros f2 n Hpos H1 H2.
  - simpl in H1. lia.
  - destruct f2 as [|f2]; [simpl in H2; lia|]. simpl.
    destruct (n / 10 =? 0) eqn:E; [reflexivity|].
    apply N.eqb_neq in E.
    rewrite (decimalAux_app f1), (decimalAux_app f2). f_equal.
    assert (Hhalf : forall f, n < 2 ^ N.of_nat (S f) -> n / 10 < 2 ^ N.of_nat f).
    { intros f Hf. rewrite Nat2N.inj_succ, N.pow_succ_r' in Hf.
      apply N.Div0.div_lt_upper_bound.
      set (p := 2 ^ N.of_nat f) in *. lia. }
    apply IH; [now apply N.neq_0_lt_0 | now apply Hhalf | now apply Hhalf].
Qed.

Lemma decimal_small (n : N) : n < 10 -> decimal n = [48 + n].
Proof.
  intros Hn. unfold decimal. simpl.
  rewrite (N.div_small n 10 Hn), (N.mod_small n 10 Hn). reflexivity.
Qed.

Lemma log2_bound (n : N) : 0 < n -> n < 2 ^ N.of_nat (S (N.to_nat (N.log2 n))).
Proof.
  intros Hn. rewrite Nat2N.inj_succ, N2Nat.id. now apply N.log2_spec.
Qed.

Lemma decimal_step (n : N) :
  10 <= n -> decimal n = decimal (n / 10) ++ [48 + n mod 10].
Proof.
  intros Hn. unfold decimal at 1. simpl.
  assert (Hq : 0 < n / 10) by (apply N.div_str_pos; lia).
  destruct (n / 10 =? 0) eqn:E; [apply N.eqb_eq in E; lia|].
  rewrite decimalAux_app. f_equal. unfold decimal.
  apply decimalAux_fuel; [exact Hq | | now apply log2_bound].
  rewrite N2Nat.id.
  apply N.Div0.div_lt_upper_bound.
  assert (Hlog : n < 2 ^ N.succ (N.log2 n)) by (apply N.log2_spec; lia).
  rewrite N.pow_succ_r' in Hlog.
  set (p := 2 ^ N.log2 n) in *. lia.
Qed.

Lemma decimal_digits (n : N) : Forall (fun c => isDigit c = true) (decimal n).
Proof.
  induction n as [n IH] using (well_founded_induction N.lt_wf_0).
  destruct (N.lt_ge_cases n 10) as [Hlt | Hge].
  - rewrite (decimal_small n Hlt). constructor; [|constructor].
    unfold isDigit. apply andb_true_iff. split; apply N.leb_le; lia.
  - rewrite (decimal_step n Hge). apply Forall_app. split.
    + apply IH. apply N.div_lt; lia.
    + constructor; [|constructor]. unfold isDigit.
      assert (Hd : n mod 10 < 10) by now apply N.mod_lt.
      set (d := n mod 10) in *.
      apply andb_true_iff. split; apply N.leb_le; lia.
Qed.

Lemma decimal_nonempty (n : N) : decimal n <> [].
Proof.
  destruct (N.lt_ge_cases n 10) as [Hlt | Hge].
  - now rewrite (decimal_small n Hlt).
  - rewrite (decimal_step n Hge). intros H. now apply app_eq_nil in H as [_ H].
Qed.

End DecimalFacts.

(** ** Fixed notation *)

Section FixedFacts.
Import JSString JSNumber Content.

Lemma exact_finite (x : float) :
  isFinite x = true -> exists neg m e, exact x = Some (neg, m, e) /\ 0 <= m.
Proof.
  unfold isFinite, PrimFloat.is_finite. intros H.
  apply negb_true_iff, orb_false_iff in H as [Hnan Hinf].
  unfold exact, Prim2SF. rewrite Hnan, Hinf.
  destruct (PrimFloat.is_zero x); [eexists _, 0, 0; split; [reflexivity | lia]|].
  destruct (Z.frexp x) as [r ex].
  destruct (shr_fexp prec emax _ _ _) as [sh e'].
  destruct (shr_m sh); eexists _, _, _; (split; [reflexivity | lia]).
Qed.

(** An absolute value divided by a positive constant is not below zero. *)
Lemma quotient_not_negative (v c : float) (mc : positive) (ec : Z) :
  Prim2SF c = S754_finite false mc ec ->
  (PrimFloat.abs v / c <? 0)%float = false.
Proof.
  intros Hc. rewrite ltb_spec. change (Prim2SF 0) with (S754_zero false).
  destruct (quotient_shape v c mc ec Hc)
    as [[-> _] | [-> | [(m & e & ->) | ->]]]; reflexivity.
Qed.

Lemma nearestTenth_exists (x : float) :
  isFinite x = true -> exists n, nearestTenth x n.
Proof.
  intros Hfin. destruct (exact_finite x Hfin) as (neg & m & e & Hx & Hm).
  unfold nearestTenth. rewrite Hx.
  destruct (Z.le_gt_cases 0 e) as [He | He].
  - exists (10 * (m * 2 ^ e)).
    rewrite (Z.max_r (- e) 0), (Z.max_l e 0) by lia. change (2 ^ 0) with 1. lia.
  - rewrite (Z.max_l (- e) 0), (Z.max_r e 0) by lia. change (2 ^ 0) with 1.
    assert (Hd : 0 < 2 ^ (- e)) by (apply Z.pow_pos_nonneg; lia).
    set (d := 2 ^ (- e)) in *.
    exists ((20 * m + d) / (2 * d)).
    pose proof (Z.mul_div_le (20 * m + d) (2 * d) ltac:(lia)).
    pose proof (Z.mul_succ_div_gt (20 * m + d) (2 * d) ltac:(lia)).
    lia.
Qed.

Lemma replaceFirst_skip (c : N) (s r : jsstring) :
  isDigit c = true ->
  replaceFirst (c :: s) [46%N] r = c :: replaceFirst s [46%N] r.
Proof.
  intros Hc.
  change (replaceFirst (c :: s) [46%N] r)
    with (if (46 =? c)%N && true then r ++ drop 1 (c :: s)
          else c :: replaceFirst s [46%N] r).
  destruct (46 =? c)%N eqn:E; [|reflexivity].
  apply N.eqb_eq in E. subst c. discriminate Hc.
Qed.

Lemma replaceFirst_absent (w r : jsstring) :
  Forall (fun c => isDigit c = true) w -> replaceFirst w [46%N] r = w.
Proof.
  induction 1 as [|c w Hc _ IH]; [reflexivity|].
  now rewrite replaceFirst_skip, IH.
Qed.

Lemma replaceFirst_after_digits (w r t : jsstring) :
  Forall (fun c => isDigit c = true) w ->
  replaceFirst (w ++ 46%N :: t) [46%N] r = w ++ r ++ t.
Proof.
  induction 1 as [|c w Hc _ IH]; [reflexivity|].
  simpl app. now rewrite replaceFirst_skip, IH.
Qed.

(** The integer that [toFixed] computes is the nearest tenth. *)
Lemma nearest_tenth_unique (m e n : Z) :
  0 <= m ->
  (2 * n - 1) * 2 ^ Z.max (- e) 0 <= 20 * m * 2 ^ Z.max e 0 ->
  20 * m * 2 ^ Z.max e 0 < (2 * n + 1) * 2 ^ Z.max (- e) 0 ->
  (if 0 <=? e then m * 10 * 2 ^ e else (2 * (m * 10) + 2 ^ (- e)) / 2 ^ (1 - e)) = n
  /\ 0 <= n.
Proof.
  intros Hm Hlo Hhi. destruct (0 <=? e) eqn:He.
  - apply Z.leb_le in He.
    rewrite (Z.max_r (- e) 0), (Z.max_l e 0) in * by lia.
    assert (Hp : 0 <= m * 2 ^ e) by (apply Z.mul_nonneg_nonneg; [lia | apply Z.pow_nonneg; lia]).
    change (2 ^ 0) with 1 in *.
    replace (20 * m * 2 ^ e) with (20 * (m * 2 ^ e)) in * by ring.
    replace (m * 10 * 2 ^ e) with (10 * (m * 2 ^ e)) by ring.
    set (p := m * 2 ^ e) in *. lia.
  - apply Z.leb_gt in He.
    rewrite (Z.max_l (- e) 0), (Z.max_r e 0) in * by lia.
    change (2 ^ 0) with 1 in *.
    replace (1 - e) with (Z.succ (- e)) by lia.
    rewrite Z.pow_succ_r by lia.
    assert (Hd : 0 < 2 ^ (- e)) by (apply Z.pow_pos_nonneg; lia).
    set (d := 2 ^ (- e)) in *.
    assert (Hn : (2 * (m * 10) + d) / (2 * d) = n).
    { symmetry. apply (Z.div_unique_pos _ _ n (2 * (m * 10) + d - 2 * d * n)); nia. }
    split; [exact Hn | nia].
Qed.

Lemma toFixed_tenths (x : float) (n : Z) :
  isFinite x = true ->
  (1e21 <=? PrimFloat.abs x)%float = false ->
  (x <? 0)%float = false ->
  nearestTenth x n ->
  0 <= n
  /\ toFixed x 1
     = decimal (Z.to_N (n / 10)) ++ 46%N :: [(48 + Z.to_N (n mod 10))%N].
Proof.
  intros Hfin Hbig Hneg Hn.
  destruct (exact_finite x Hfin) as (neg & m & e & Hx & Hm).
  unfold nearestTenth in Hn. unfold toFixed. rewrite Hx in *. rewrite Hbig, Hneg.
  destruct Hn as [Hlo Hhi].
  change (10 ^ Z.of_nat 1) with 10.
  destruct (nearest_tenth_unique m e n Hm Hlo Hhi) as [-> Hpos].
  split; [exact Hpos|].
  change (Nat.eqb 1 0) with false. cbv iota.
  rewrite (Z2N.inj_div n 10), (Z2N.inj_mod n 10) by lia.
  change (Z.to_N 10) with 10%N.
  set (k := Z.to_N n).
  destruct (N.lt_ge_cases k 10) as [Hlt | Hge].
  - rewrite (decimal_small k Hlt), (N.div_small k 10 Hlt), (N.mod_small k 10 Hlt).
    reflexivity.
  - rewrite (decimal_step k Hge).
    assert (Hlen : (2 <= length (decimal (k / 10) ++ [(48 + k mod 10)%N]))%nat).
    { rewrite length_app. simpl.
      pose proof (decimal_nonempty (k / 10)).
      destruct (decimal (k / 10)); [contradiction | simpl; lia]. }
    replace (2 - length (decimal (k / 10) ++ [(48 + k mod 10)%N]))%nat with O by lia.
    simpl repeat. simpl app at 1.
    rewrite length_app. simpl length.
    replace (length (decimal (k / 10)) + 1 - 1)%nat with (length (decimal (k / 10))) by lia.
    rewrite take_app_length, drop_app_length. reflexivity.
Qed.

Lemma dropPointZero_tenths (w : jsstring) (d : N) :
  dropPointZero (w ++ 46%N :: [d])
  = if (48 =? d)%N then w else w ++ 46%N :: [d].
Proof.
  unfold dropPointZero, endsWith.
  replace (rev (w ++ 46%N :: [d])) with (d :: 46%N :: rev w)
    by (rewrite rev_app_distr; reflexivity).
  change (startsWith (d :: 46%N :: rev w) (rev (lit ".0")))
    with ((48 =? d)%N && ((46 =? 46)%N && true)).
  change ((46 =? 46)%N && true) with true. rewrite andb_true_r.
  destruct (48 =? d)%N; [|reflexivity].
  rewrite length_app. simpl length.
  replace (length w + 2 - 2)%nat with (length w) by lia.
  apply take_app_length.
Qed.

(** [formatWithSuffix] on a number that [toFixed] writes in fixed notation. *)
Lemma formatWithSuffix_tenths (sign suffix : jsstring) (x : float) (n : Z) :
  isFinite x = true ->
  (1e21 <=? PrimFloat.abs x)%float = false ->
  (x <? 0)%float = false ->
  nearestTenth x n ->
  formatWithSuffix sign x suffix = sign ++ writeTenths n ++ lit " " ++ suffix.
Proof.
  intros Hfin Hbig Hneg Hn.
  destruct (toFixed_tenths x n Hfin Hbig Hneg Hn) as [Hpos Hfixed].
  unfold formatWithSuffix, writeTenths. rewrite Hfixed. do 2 f_equal.
  rewrite dropPointZero_tenths.
  assert (Hd : 0 <= n mod 10 < 10) by (apply Z.mod_pos_bound; lia).
  change (lit ".") with [46%N]. change (lit ",") with [44%N].
  destruct (n mod 10 =? 0) eqn:E.
  - apply Z.eqb_eq in E. rewrite E. change (48 =? 48 + Z.to_N 0)%N with true.
    cbv iota. rewrite app_nil_r. apply replaceFirst_absent, decimal_digits.
  - apply Z.eqb_neq in E. set (d := n mod 10) in *.
    replace (48 =? 48 + Z.to_N d)%N with false
      by (symmetry; apply N.eqb_neq; lia).
    rewrite replaceFirst_after_digits by apply decimal_digits.
    rewrite (decimal_small (Z.to_N d)) by lia. reflexivity.
Qed.

(** C7, as the code has it. With [sign] a hyphen when [v < 0] and [a] the
    absolute value of [v]: when [a >= 1000000] and the quotient
    [a / 1000000], a double, is below [10^21], [formatCompactNumber v] is the
    sign, the quotient in tenths as [toFixed(1)] rounds it (the number of
    tenths nearest to the exact value of the double, the larger of two that
    are equally near; written without the decimal when it is zero, and with a
    comma for the point), a space and the suffix of millions; from [10^21] on
    the quotient is what [String] writes for it, without a final [.0] if it
    had one, and with its first point made a comma; when
    [1000 <= a < 1000000] the result is the sign, [a / 1000] in tenths in the
    same way, a space and the suffix of thousands; and otherwise it is the
    Russian formatting of [v]. *)
Theorem formatCompactNumber_described (v : float) :
  let a := PrimFloat.abs v in
  let sign := if (v <? 0)%float then lit "-" else [] in
  ((1000000 <=? a)%float = true ->
   ((1e21 <=? a / 1000000)%float = false ->
    exists n,
      nearestTenth (a / 1000000) n
      /\ formatCompactNumber v = sign ++ writeTenths n ++ lit " " ++ mln)
   /\ ((1e21 <=? a / 1000000)%float = true ->
       formatCompactNumber v
       = sign
           ++ replaceFirst (dropPointZero (toString (a / 1000000))) (lit ".") (lit ",")
           ++ lit " " ++ mln))
  /\ ((1000000 <=? a)%float = false -> (1000 <=? a)%float = true ->
      exists n,
        nearestTenth (a / 1000) n
        /\ formatCompactNumber v = sign ++ writeTenths n ++ lit " " ++ tys)
  /\ ((1000000 <=? a)%float = false -> (1000 <=? a)%float = false ->
      formatCompactNumber v = formatRu v).
Proof.
  intros a sign. subst a. split; [|split].
  - intros Hm. unfold formatCompactNumber. rewrite Hm. fold sign.
    pose proof (quotient_abs v 1000000 8589934592000000%positive (-33) eq_refl)
      as Habs.
    split.
    + intros Hbelow.
      pose proof (millions_quotient v Hm Hbelow) as Hfin.
      destruct (nearestTenth_exists _ Hfin) as [n Hn]. exists n.
      split; [exact Hn|].
      apply formatWithSuffix_tenths; try assumption.
      * now rewrite Habs.
      * now apply (quotient_not_negative v 1000000 8589934592000000%positive (-33)).
    + intros Hbig. unfold formatWithSuffix, toFixed. rewrite Habs, Hbig.
      now destruct (exact (PrimFloat.abs v / 1000000)) as [[[neg m] e]|].
  - intros Hm Ht. unfold formatCompactNumber. rewrite Hm, Ht. fold sign.
    destruct (thousands_quotient v Hm Ht) as [Hfin Hbelow].
    destruct (nearestTenth_exists _ Hfin) as [n Hn]. exists n.
    split; [exact Hn|].
    apply formatWithSuffix_tenths; try assumption.
    now apply (quotient_not_negative v 1000 8796093022208000%positive (-43)).
  - intros Hm Ht. unfold formatCompactNumber. now rewrite Hm, Ht.
Qed.

Lemma nearestTenth_unique (x : float) (n n' : Z) :
  nearestTenth x n -> nearestTenth x n' -> n = n'.
Proof.
  unfold nearestTenth. destruct (exact x) as [[[neg m] e]|] eqn:Hx; [|contradiction].
  assert (Hm : 0 <= m).
  { unfold exact in Hx. destruct (Prim2SF x); inversion Hx; lia. }
  intros [Hlo Hhi] [Hlo' Hhi'].
  destruct (nearest_tenth_unique m e n Hm Hlo Hhi) as [<- _].
  now destruct (nearest_tenth_unique m e n' Hm Hlo' Hhi') as [<- _].
Qed.

(** The theorem at 16100, at -3000000 and at 1150, whose thousandth is the
    double just below 1.15 and is written [1,1]. *)
Lemma formatCompactNumber_described_witness :
  formatCompactNumber (ofZ 16100) = lit "16,1 тыс"
  /\ formatCompactNumber (ofZ (-3000000)) = lit "-3 млн"
  /\ formatCompactNumber (ofZ 1150) = lit "1,1 тыс".
Proof.
  split; [|split].
  - destruct (formatCompactNumber_described (ofZ 16100)) as (_ & Hthousands & _).
    destruct (Hthousands eq_refl eq_refl) as (n & Hn & ->).
    assert (H161 : nearestTenth (PrimFloat.abs (ofZ 16100) / 1000) 161)
      by (vm_compute; split; [intros H; discriminate H | reflexivity]).
    now rewrite (nearestTenth_unique _ n 161 Hn H161).
  - destruct (formatCompactNumber_described (ofZ (-3000000))) as (Hmillions & _).
    destruct (Hmillions eq_refl) as [Hbelow _].
    destruct (Hbelow eq_refl) as (n & Hn & ->).
    assert (H30 : nearestTenth (PrimFloat.abs (ofZ (-3000000)) / 1000000) 30)
      by (vm_compute; split; [intros H; discriminate H | reflexivity]).
    now rewrite (nearestTenth_unique _ n 30 Hn H30).
  - destruct (formatCompactNumber_described (ofZ 1150)) as (_ & Hthousands & _).
    destruct (Hthousands eq_refl eq_refl) as (n & Hn & ->).
    assert (H11 : nearestTenth (PrimFloat.abs (ofZ 1150) / 1000) 11)
      by (vm_compute; split; [intros H; discriminate H | reflexivity]).
    now rewrite (nearestTenth_unique _ n 11 Hn H11).
Defined.

(** C7 as it was stated fails from [10^27] on. The double of [10^27]
    divided by 1000000 is [10^21], which rounded to one decimal is
    1000000000000000000000, but [toFixed] writes it [1e+21]. The double of
    [15 * 10^26] gives [1.5e+21], of which the point is made a comma. *)
Lemma formatCompactNumber_counterexample :
  let v := ofZ (10 ^ 27) in
  isFinite v = true
  /\ (1000000 <=? PrimFloat.abs v)%float = true
  /\ nearestTenth (PrimFloat.abs v / 1000000)%float (10 ^ 22)
  /\ writeTenths (10 ^ 22) ++ lit " " ++ mln = lit "1000000000000000000000 млн"
  /\ formatCompactNumber v = lit "1e+21 млн"
  /\ toString (PrimFloat.abs (ofZ (15 * 10 ^ 26)) / 1000000) = lit "1.5e+21"
  /\ formatCompactNumber (ofZ (15 * 10 ^ 26)) = lit "1,5e+21 млн".
Proof.
  intros v. split; [reflexivity|]. split; [reflexivity|].
  split; [|split; [|split; [|split]]].
  - vm_compute. split; [intros H; discriminate H | reflexivity].
  - vm_compute. reflexivity.
  - vm_compute. reflexivity.
  - vm_compute. reflexivity.
  - vm_compute. reflexivity.
Qed.

End FixedFacts.

(** ** Formatting and parsing back *)

Section RoundTripFacts.
Import JSString JSNumber Content.

Lemma holdsAlong_sound (test : Z -> bool) (start step : Z) (count : nat) :
  holdsAlong test start step count = true ->
  forall n,
    0 < step -> start <= n < start + step * Z.of_nat count -> (step | n - start) ->
    test n = true.
Proof.
  unfold holdsAlong. rewrite forallb_forall. intros Hall n Hstep Hrange [i Hi].
  assert (Hn : n = start + step * Z.of_nat (Z.to_nat i)).
  { rewrite Z2Nat.id by nia. lia. }
  rewrite Hn. apply Hall. apply in_seq. nia.
Qed.

(** An integer below [bound] in absolute value that [step] divides is
    reached from [- bound] rounded up to [step]. *)
Lemma holdsBetween (test : Z -> bool) (low high step : Z) (count : nat) :
  holdsAlong test low step count = true ->
  0 < step -> (step | low) -> high <= low + step * Z.of_nat count ->
  forall n, low <= n < high -> (step | n) -> test n = true.
Proof.
  intros Hall Hstep Hlow Hhigh n Hn Hdiv.
  apply (holdsAlong_sound test low step count Hall); [exact Hstep | lia |].
  now apply Z.divide_sub_r.
Qed.

Lemma exact_roundTrip (n : Z) :
  PrimFloat.Leibniz.eqb (roundTrip n) (ofZ n) = true -> roundTrip n = ofZ n.
Proof. apply FloatAxioms.Leibniz.eqb_spec. Qed.

Lemma units_checked : holdsAlong exactAt (-999) 1 (Z.to_nat 1999) = true.
Proof. vm_compute. reflexivity. Qed.

End RoundTripFacts.

(** ** The map bridge *)

Section MapFacts.
Import JSString JS YandexMap.

Lemma streq_refl (a : jsstring) : streq a a = true.
Proof. now apply streq_true. Qed.

Lemma isString_true (v : value) (text : jsstring) :
  isString v text = true <-> v = String text.
Proof.
  destruct v; simpl; try (split; [discriminate | intros H; discriminate H]).
  rewrite streq_true. split; [now intros -> | now intros [= ->]].
Qed.

Lemma isString_false (v : value) (text : jsstring) :
  isString v text = false <-> v <> String text.
Proof.
  rewrite <- isString_true. destruct (isString v text); split; congruence.
Qed.

(** A payload whose [type] is not one of the six fails every test of the
    [switch]. *)
Lemma unknown_type_tests (message : parsed) (type : value) :
  ~ knownType message -> typeOf message = Some type ->
  Forall (fun name => isString type name = false) messageTypes.
Proof.
  intros Hunknown Htype. apply List.Forall_forall. intros name Hin.
  apply isString_false. intros ->. apply Hunknown. now exists name.
Qed.

Lemma handleMessage_unknown (props : Props) (st : State) (message : parsed) :
  ~ knownType message ->
  handleMessage props st message = Normal []
  \/ handleMessage props st message = Thrown [].
Proof.
  intros Hunknown. destruct message as [|data]; simpl; [now right|].
  destruct (get data (lit "type")) as [type|] eqn:Htype; [|now right].
  pose proof (unknown_type_tests (Parsed data) type Hunknown Htype) as Htests.
  unfold messageTypes in Htests.
  repeat match goal with
         | H : Forall _ (_ :: _) |- _ => inversion H; subst; clear H
         end.
  repeat match goal with
         | H : isString type ?n = false |- _ => rewrite H; clear H
         end.
  now left.
Qed.

(** The tests of the [switch] on a [type] that is a known string are decided
    by computation. *)
Ltac decide_type_tests :=
  repeat match goal with
         | |- context [isString (String ?a) ?b] =>
             let v := eval vm_compute in (isString (String a) b) in
             change (isString (String a) b) with v
         end;
  cbv iota.

Lemma handleMessage_loaded (props : Props) (st : State) (data : value) :
  get data (lit "type") = Some (String (lit "MAP_LOADED")) ->
  handleMessage props st (Parsed data)
  = Normal [SetIsLoading false; SetIsMapLoaded true].
Proof. intros Htype. unfold handleMessage. rewrite Htype. now decide_type_tests. Qed.

Lemma handleMessage_location (props : Props) (st : State) (data : value)
  (name : jsstring) :
  In name [lit "MAP_CLICK"; lit "SEARCH_RESULT"; lit "ROUTE_BUILT"] ->
  get data (lit "type") = Some (String name) ->
  handleMessage props st (Parsed data) = selectLocation props data.
Proof.
  intros Hin Htype. unfold handleMessage. rewrite Htype.
  simpl in Hin. destruct Hin as [<- | [<- | [<- | []]]]; now decide_type_tests.
Qed.

Lemma handleMessage_long_press (props : Props) (st : State) (data lat lon : value) :
  get data (lit "type") = Some (String (lit "MAP_LONG_PRESS")) ->
  get data (lit "latitude") = Some lat ->
  get data (lit "longitude") = Some lon ->
  handleMessage props st (Parsed data)
  = if truthy lat && truthy lon then
      if isString (userRole st) (lit "businessOwner") then
        Normal [SetNewPlaceCoords (Some {| latitude := lat; longitude := lon |});
                SetShowAddModal true]
      else
        Normal
          [Alert (lit "Ошибка")
             (String (lit "Только бизнес-пользователь может добавлять маркеры"))]
    else Normal [].
Proof.
  intros Htype Hlat Hlon. unfold handleMessage. rewrite Htype, Hlat, Hlon.
  now decide_type_tests.
Qed.

Lemma handleMessage_error (props : Props) (st : State) (data err : value) :
  get data (lit "type") = Some (String (lit "ERROR")) ->
  get data (lit "error") = Some err ->
  handleMessage props st (Parsed data)
  = Normal [Alert (lit "Ошибка") (orElse err (String (lit "Произошла ошибка")))].
Proof.
  intros Htype Herr. unfold handleMessage. rewrite Htype, Herr.
  now decide_type_tests.
Qed.

(** C4. [handleWebViewMessage] acts on exactly six message types: on a sample
    message of each of [MAP_LOADED], [MAP_CLICK], [SEARCH_RESULT],
    [ROUTE_BUILT], [MAP_LONG_PRESS] and [ERROR] it sets state or raises an
    alert; and on every payload that is not valid JSON or whose [type] is none
    of the six it completes without an exception, does nothing but possibly
    write to the log, and leaves the state as it was. *)
Theorem handleWebViewMessage_six_types :
  (forall name props st,
      In name messageTypes ->
      existsb visible
        (actionsOf (handleWebViewMessage props st (Parsed (sampleMessage name))))
      = true)
  /\ (forall props st message,
        ~ knownType message ->
        exists log,
          handleWebViewMessage props st message = Normal log
          /\ forallb (fun a => negb (visible a)) log = true
          /\ run st log = st).
Proof.
  split.
  - intros name props st Hin. unfold handleWebViewMessage.
    unfold messageTypes in Hin. simpl in Hin.
    destruct Hin as [<- | [<- | [<- | [<- | [<- | [<- | []]]]]]].
    + now rewrite handleMessage_loaded.
    + rewrite (handleMessage_location _ _ _ (lit "MAP_CLICK")); [|simpl; tauto|reflexivity].
      now destruct props as [key loc []].
    + rewrite (handleMessage_location _ _ _ (lit "SEARCH_RESULT")); [|simpl; tauto|reflexivity].
      now destruct props as [key loc []].
    + rewrite (handleMessage_location _ _ _ (lit "ROUTE_BUILT")); [|simpl; tauto|reflexivity].
      now destruct props as [key loc []].
    + rewrite (handleMessage_long_press _ _ _ (Number 55.75) (Number 37.5));
        try reflexivity.
      now destruct (isString (userRole st) (lit "businessOwner")).
    + now rewrite (handleMessage_error _ _ _ Undefined).
  - intros props st message Hunknown. unfold handleWebViewMessage.
    destruct (handleMessage_unknown props st message Hunknown) as [-> | ->].
    + exists []. repeat split.
    + exists [ConsoleError]. repeat split.
Qed.

Lemma truthy_number (x : float) :
  truthy (Number x) = true
  <-> PrimFloat.is_zero x = false /\ PrimFloat.is_nan x = false.
Proof.
  simpl. unfold JSNumber.truthy. rewrite negb_true_iff, orb_false_iff. tauto.
Qed.

(** C8. On a [MAP_LONG_PRESS] message whose latitude and longitude are both
    truthy (present and nonzero), the handler records the pressed
    coordinates and opens the add-place modal if and only if the loaded
    role is exactly ['businessOwner']; with any other role it only raises
    the error alert and the state stays as it was. *)
Theorem long_press_business_owner_only
  (props : Props) (st : State) (data lat lon : value) :
  get data (lit "type") = Some (String (lit "MAP_LONG_PRESS")) ->
  get data (lit "latitude") = Some lat ->
  get data (lit "longitude") = Some lon ->
  truthy lat = true ->
  truthy lon = true ->
  let coords := {| latitude := lat; longitude := lon |} in
  let outcome := handleWebViewMessage props st (Parsed data) in
  (outcome = Normal [SetNewPlaceCoords (Some coords); SetShowAddModal true]
   <-> userRole st = String (lit "businessOwner"))
  /\ (userRole st = String (lit "businessOwner") ->
      newPlaceCoords (run st (actionsOf outcome)) = Some coords
      /\ showAddModal (run st (actionsOf outcome)) = true)
  /\ (userRole st <> String (lit "businessOwner") ->
      outcome
      = Normal
          [Alert (lit "Ошибка")
             (String (lit "Только бизнес-пользователь может добавлять маркеры"))]
      /\ run st (actionsOf outcome) = st).
Proof.
  intros Htype Hlat Hlon Tlat Tlon coords outcome. subst outcome.
  unfold handleWebViewMessage.
  rewrite (handleMessage_long_press props st data lat lon Htype Hlat Hlon).
  rewrite Tlat, Tlon. simpl andb. cbv iota.
  destruct (isString (userRole st) (lit "businessOwner")) eqn:Hrole.
  - apply isString_true in Hrole. split; [|split].
    + split; [intros _; exact Hrole | reflexivity].
    + intros _. now split.
    + intros Hno. contradiction.
  - apply isString_false in Hrole. split; [|split].
    + split; [intros H; discriminate H | intros H; contradiction].
    + intros H. contradiction.
    + intros _. now split.
Qed.

Lemma long_press_business_owner_only_witness :
  let data := sampleMessage (lit "MAP_LONG_PRESS") in
  let coords := {| latitude := Number 55.75; longitude := Number 37.5 |} in
  let owner := sampleState (lit "businessOwner") in
  let visitor := sampleState (lit "user") in
  handleWebViewMessage sampleProps owner (Parsed data)
  = Normal [SetNewPlaceCoords (Some coords); SetShowAddModal true]
  /\ handleWebViewMessage sampleProps visitor (Parsed data)
     = Normal
         [Alert (lit "Ошибка")
            (String (lit "Только бизнес-пользователь может добавлять маркеры"))].
Proof.
  intros data coords owner visitor. split.
  - apply (long_press_business_owner_only sampleProps owner data
             (Number 55.75) (Number 37.5)); reflexivity.
  - apply (long_press_business_owner_only sampleProps visitor data
             (Number 55.75) (Number 37.5)); try reflexivity.
    intros H; discriminate H.
Defined.

Lemma run_keeps_location (st : State) (actions : list Action) :
  existsb touchesLocation actions = false ->
  selectedLocation (run st actions) = selectedLocation st
  /\ address (run st actions) = address st.
Proof.
  unfold run. revert st. induction actions as [|a actions IH]; intros st H; simpl.
  - now split.
  - simpl in H. apply orb_false_iff in H as [Ha Hrest].
    destruct (IH (apply st a) Hrest) as [-> ->].
    destruct a; simpl in Ha; try discriminate Ha; now split.
Qed.

Lemma selectLocation_selected (props : Props) (data : value)
  (coords : MapCoordinates) (addr : value) :
  get data (lit "latitude") = Some (latitude coords) ->
  get data (lit "longitude") = Some (longitude coords) ->
  get data (lit "address") = Some addr ->
  truthy (latitude coords) = true ->
  truthy (longitude coords) = true ->
  selectLocation props data
  = Normal
      ([SetSelectedLocation coords; SetAddress (orElse addr (String []))]
       ++ (if hasOnLocationSelect props then [OnLocationSelect coords addr] else [])).
Proof.
  intros Hlat Hlon Haddr Tlat Tlon. unfold selectLocation.
  rewrite Hlat, Hlon, Haddr, Tlat, Tlon. now destruct coords.
Qed.

Lemma selectLocation_touches (props : Props) (data : value) :
  existsb touchesLocation (actionsOf (selectLocation props data)) = true ->
  exists coords addr,
    get data (lit "latitude") = Some (latitude coords)
    /\ get data (lit "longitude") = Some (longitude coords)
    /\ get data (lit "address") = Some addr
    /\ truthy (latitude coords) = true
    /\ truthy (longitude coords) = true.
Proof.
  unfold selectLocation.
  destruct (get data (lit "latitude")) as [lat|]; [|discriminate].
  destruct (get data (lit "longitude")) as [lon|]; [|discriminate].
  destruct (get data (lit "address")) as [addr|]; [|discriminate].
  destruct (truthy lat) eqn:Tlat; [|discriminate].
  destruct (truthy lon) eqn:Tlon; [|discriminate].
  intros _. now exists {| latitude := lat; longitude := lon |}, addr.
Qed.

Lemma existsb_touches_log (actions : list Action) :
  existsb touchesLocation (actions ++ [ConsoleError])
  = existsb touchesLocation actions.
Proof. rewrite existsb_app. simpl. now rewrite orb_false_r. Qed.

(** Only a location message with truthy coordinates makes the handler call
    [setSelectedLocation] or [setAddress]. *)
Lemma handler_touches_location (props : Props) (st : State) (message : parsed) :
  existsb touchesLocation (actionsOf (handleWebViewMessage props st message)) = true ->
  exists coords addr, selectsLocation message coords addr.
Proof.
  unfold handleWebViewMessage.
  assert (Hlog : forall c,
             existsb touchesLocation
               (actionsOf match c with
                          | Normal actions => Normal actions
                          | Thrown actions => Normal (actions ++ [ConsoleError])
                          end)
             = existsb touchesLocation (actionsOf c)).
  { intros [actions|actions]; simpl; [reflexivity | apply existsb_touches_log]. }
  rewrite Hlog. clear Hlog.
  destruct message as [|data]; simpl; [discriminate|].
  destruct (get data (lit "type")) as [type|] eqn:Htype; [|discriminate].
  destruct (isString type (lit "MAP_LOADED")); [discriminate|].
  assert (Hsel : forall name,
             In name locationTypes -> isString type name = true ->
             existsb touchesLocation (actionsOf (selectLocation props data)) = true ->
             exists coords addr, selectsLocation (Parsed data) coords addr).
  { intros name Hin Hname Htouch. apply isString_true in Hname. subst type.
    destruct (selectLocation_touches props data Htouch)
      as (coords & addr & Hlat & Hlon & Haddr & Tlat & Tlon).
    exists coords, addr, name, data. tauto. }
  destruct (isString type (lit "MAP_CLICK")) eqn:E1.
  { apply (Hsel (lit "MAP_CLICK")); [simpl; tauto | exact E1]. }
  destruct (isString type (lit "SEARCH_RESULT")) eqn:E2.
  { apply (Hsel (lit "SEARCH_RESULT")); [simpl; tauto | exact E2]. }
  destruct (isString type (lit "ROUTE_BUILT")) eqn:E3.
  { apply (Hsel (lit "ROUTE_BUILT")); [simpl; tauto | exact E3]. }
  destruct (isString type (lit "MAP_LONG_PRESS")).
  { destruct (get data (lit "latitude")) as [lat|]; [|discriminate].
    destruct (get data (lit "longitude")) as [lon|]; [|discriminate].
    destruct (truthy lat && truthy lon); [|discriminate].
    destruct (isString (userRole st) (lit "businessOwner")); discriminate. }
  destruct (isString type (lit "ERROR")); [|discriminate].
  destruct (get data (lit "error")); discriminate.
Qed.

(** C9, as the code has it. [selectedLocation] and [address] change only on
    a [MAP_CLICK], [SEARCH_RESULT] or [ROUTE_BUILT] message whose latitude
    and longitude are both truthy (present and nonzero); on such a message
    they become the message's coordinates and its address, or the empty
    string when the address is missing or falsy, and [onLocationSelect], when
    the parent passed one, is called once with the coordinates and with the
    address as the message has it ([undefined] when it has none); a message
    of these types whose latitude or longitude is zero leaves both fields
    as they were. *)
Theorem location_changes_only_on_selection
  (props : Props) (st : State) (message : parsed) :
  let actions := actionsOf (handleWebViewMessage props st message) in
  let st' := run st actions in
  ((selectedLocation st' <> selectedLocation st \/ address st' <> address st) ->
   exists coords addr, selectsLocation message coords addr)
  /\ (forall coords addr,
        selectsLocation message coords addr ->
        selectedLocation st' = coords
        /\ address st' = orElse addr (String [])
        /\ callbackCalls actions
           = if hasOnLocationSelect props then [(coords, addr)] else [])
  /\ (forall name data lat lon x,
        In name locationTypes ->
        message = Parsed data ->
        get data (lit "type") = Some (String name) ->
        get data (lit "latitude") = Some lat ->
        get data (lit "longitude") = Some lon ->
        PrimFloat.is_zero x = true ->
        lat = Number x \/ lon = Number x ->
        selectedLocation st' = selectedLocation st /\ address st' = address st).
Proof.
  intros actions st'. split; [|split].
  - intros Hchange.
    destruct (existsb touchesLocation actions) eqn:Htouch.
    + now apply (handler_touches_location props st).
    + destruct (run_keeps_location st actions Htouch) as [Hloc Haddr].
      destruct Hchange as [H | H]; contradiction.
  - intros coords addr (name & data & Hin & -> & Htype & Hlat & Hlon & Haddr & Tlat & Tlon).
    subst st' actions. unfold handleWebViewMessage.
    rewrite (handleMessage_location props st data name Hin Htype).
    rewrite (selectLocation_selected props data coords addr Hlat Hlon Haddr Tlat Tlon).
    now destruct (hasOnLocationSelect props).
  - intros name data lat lon x Hin -> Htype Hlat Hlon Hzero Hx.
    apply run_keeps_location. subst actions. unfold handleWebViewMessage.
    rewrite (handleMessage_location props st data name Hin Htype).
    unfold selectLocation. rewrite Hlat, Hlon.
    assert (Hfalsy : truthy lat && truthy lon = false).
    { destruct Hx as [-> | ->]; simpl; unfold JSNumber.truthy; rewrite Hzero;
        simpl; [reflexivity | apply andb_false_r]. }
    rewrite Hfalsy. now destruct (get data (lit "address")).
Qed.

(** C9 as it was stated fails on a click that carries no address: the
    state's address becomes the empty string, and [onLocationSelect] is
    called with [undefined], not with the value the state was set to. *)
Lemma location_callback_counterexample :
  let coords := {| latitude := Number 55.75; longitude := Number 37.5 |} in
  let message := Parsed (sampleMessage (lit "MAP_CLICK")) in
  let st := sampleState (lit "user") in
  let actions := actionsOf (handleWebViewMessage sampleProps st message) in
  selectsLocation message coords Undefined
  /\ address (run st actions) = String []
  /\ callbackCalls actions = [(coords, Undefined)]
  /\ callbackCalls actions
     <> [(selectedLocation (run st actions), address (run st actions))].
Proof.
  intros coords message st actions. split; [|split; [|split]].
  - exists (lit "MAP_CLICK"), (sampleMessage (lit "MAP_CLICK")).
    repeat split; try reflexivity. simpl. tauto.
  - reflexivity.
  - reflexivity.
  - intros H. vm_compute in H. discriminate H.
Qed.

End MapFacts.

(** ** The login screen and the token *)

Section AuthFacts.
Import JSString JS Auth.

Lemma buildSession_token (f : Form) (data : value) (s : UserSession) :
  buildSession f data = Some s -> exists tokenValue, get data (lit "token") = Some tokenValue.
Proof.
  unfold buildSession. destruct data; simpl; try discriminate; intros _; eauto.
Qed.

Lemma handleSubmit_accepted (f : Form) (data : value) (tokenText : jsstring)
  (s : UserSession) :
  canSubmit f = true ->
  buildSession f data = Some s ->
  get data (lit "token") ≫= toStringOrThrow = Some tokenText ->
  handleSubmit f (Response true (Parsed data))
  = [KeyboardDismiss; request f;
     LocalStorageSetItem (lit "token") tokenText;
     SetUserSession s; RouterReplace (lit "/profile")].
Proof.
  intros Hcan Hs Htok. unfold handleSubmit, afterFetch.
  rewrite Hcan, Hs. cbn [negb mbind option_bind].
  destruct (get data (lit "token")) as [tokenValue|]; [|discriminate Htok].
  cbn [mbind option_bind] in Htok |- *. now rewrite Htok.
Qed.

(** Whatever goes wrong after the form was accepted ends in one alert. *)
Lemma handleSubmit_refused (f : Form) (outcome : fetched) :
  canSubmit f = true ->
  (forall data s tokenText,
      outcome = Response true (Parsed data) ->
      buildSession f data = Some s ->
      get data (lit "token") ≫= toStringOrThrow = Some tokenText -> False) ->
  exists title message,
    handleSubmit f outcome = [KeyboardDismiss; request f; Alert title message].
Proof.
  intros Hcan Hno. unfold handleSubmit. rewrite Hcan. simpl.
  destruct outcome as [|[|] [|data]]; simpl;
    try (now eexists _, _; unfold networkAlert).
  - destruct (buildSession f data) as [s|] eqn:Hs; simpl;
      [|now eexists _, _; unfold networkAlert].
    destruct (get data (lit "token")) as [tokenValue|] eqn:Htok; simpl;
      [|now eexists _, _; unfold networkAlert].
    destruct (toStringOrThrow tokenValue) as [tokenText|] eqn:Htext; simpl;
      [|now eexists _, _; unfold networkAlert].
    destruct (Hno data s tokenText eq_refl Hs). now rewrite Htok.
  - destruct (get data (lit "error")) as [err|]; simpl.
    + unfold refusalAlert. destruct (isRegister f); now eexists _, _.
    + now eexists _, _; unfold networkAlert.
Qed.

(** An accepted form is answered by the three calls of a login that went
    through, or by one alert. *)
Lemma handleSubmit_cases (f : Form) (outcome : fetched) :
  canSubmit f = true ->
  (exists data s tokenText,
      outcome = Response true (Parsed data)
      /\ buildSession f data = Some s
      /\ get data (lit "token") ≫= toStringOrThrow = Some tokenText)
  \/ (exists title message,
        handleSubmit f outcome = [KeyboardDismiss; request f; Alert title message]).
Proof.
  intros Hcan.
  destruct outcome as [|[|] [|data]];
    try (right; apply (handleSubmit_refused f _ Hcan);
         intros data' s tokenText Hout; discriminate Hout).
  destruct (buildSession f data) as [s|] eqn:Hs.
  - destruct (get data (lit "token") ≫= toStringOrThrow) as [tokenText|] eqn:Htok.
    + left. now exists data, s, tokenText.
    + right. apply (handleSubmit_refused f _ Hcan).
      intros data' s' tokenText Hout Hs' Htok'.
      injection Hout as <-. rewrite Htok in Htok'. discriminate Htok'.
  - right. apply (handleSubmit_refused f _ Hcan).
    intros data' s' tokenText Hout Hs' Htok'.
    injection Hout as <-. rewrite Hs in Hs'. discriminate Hs'.
Qed.



(** The calls of an accepted submission where [localStorage] exists: all are
    completed. *)
Lemma attempt_accepted_web (f : Form) (w : World) (t : jsstring) (s : UserSession) :
  Device.platform (stores w) = Device.Web ->
  let effects := [KeyboardDismiss; request f; LocalStorageSetItem (lit "token") t;
                  SetUserSession s; RouterReplace (lit "/profile")] in
  attempt w effects
  = ({| stores := {| Device.platform := Device.Web;
                     Device.localStorage := <[lit "token" := t]> (Device.localStorage (stores w));
                     Device.asyncStorage := Device.asyncStorage (stores w) |};
        session := Some s;
        route := lit "/profile" |}, effects).
Proof.
  intros Hweb effects. subst effects. unfold request.
  destruct (isRegister f); cbn [attempt perform mbind option_bind];
    unfold Device.localSetItem; rewrite Hweb; reflexivity.
Qed.


Lemma attempt_alert (f : Form) (w : World) (title : jsstring) (message : value) :
  attempt w [KeyboardDismiss; request f; Alert title message]
  = (w, [KeyboardDismiss; request f; Alert title message]).
Proof. unfold request. now destruct (isRegister f). Qed.





(** The calls that were completed were completed in order, each in the world
    the ones before it left. *)
Lemma attempt_stored (w : World) (effects : list Effect) (key t : jsstring) :
  In (LocalStorageSetItem key t) (happened w effects) ->
  Device.platform (stores w) = Device.Web.
Proof.
  unfold happened. revert w. induction effects as [|e effects IH]; intros w; simpl.
  - intros [].
  - destruct (perform w e) as [w1|] eqn:Hperform; simpl.
    + destruct (attempt w1 effects) as [w2 completed] eqn:Hrest. simpl.
      intros [-> | Hin].
      * simpl in Hperform. unfold Device.localSetItem in Hperform.
        now destruct (Device.platform (stores w)).
      * specialize (IH w1). rewrite Hrest in IH. specialize (IH Hin).
        destruct e; simpl in Hperform; try (now injection Hperform as <-).
        unfold Device.localSetItem in Hperform.
        now destruct (Device.platform (stores w)).
    + intros [Hin | []]. discriminate Hin.
Qed.

(** The map presents the token that [AsyncStorage] holds under ['token']. *)
Lemma map_presents_async_token (s : Device.Stores) (me : fetched) (t : jsstring) :
  Device.asyncGetItem (lit "token") s = Some t ->
  MapSession.authorizations (MapSession.loadTokenAndRole s me)
  = if JSString.truthy t then [lit "Bearer " ++ t] else [].
Proof.
  intros Ht. unfold MapSession.loadTokenAndRole. rewrite Ht.
  destruct t as [|c t]; [reflexivity|]. simpl.
  destruct me as [|[|] [|data]]; simpl; try reflexivity.
  now destruct (get data (lit "role")).
Qed.

(** C6. In every execution in which the login screen, on a login or a
    registration, completes the call that stores a token [t], the map
    component that mounts next reads that same [t] from [AsyncStorage], and
    the request to [/me] it then sends carries [Bearer t] as its
    [Authorization]; it sends one unless [t] is the empty string. The call is
    completed only where there is a [localStorage], in a browser, and there
    [AsyncStorage] reads that same store. *)
Theorem login_token_presented (w : World) (f : Form) (outcome me : fetched)
  (t : jsstring) :
  let effects := handleSubmit f outcome in
  let w' := run w effects in
  In (LocalStorageSetItem (lit "token") t) (happened w effects) ->
  Device.asyncGetItem (lit "token") (stores w') = Some t
  /\ MapSession.authorizations (MapSession.loadTokenAndRole (stores w') me)
     = if JSString.truthy t then [lit "Bearer " ++ t] else [].
Proof.
  intros effects w' Hin.
  assert (Hread : Device.asyncGetItem (lit "token") (stores w') = Some t).
  { pose proof (attempt_stored w effects _ t Hin) as Hweb.
    subst w' effects. unfold run, happened in *.
    destruct (canSubmit f) eqn:Hcan.
    - destruct (handleSubmit_cases f outcome Hcan)
        as [(data & s & tokenText & -> & Hs & Htok) | (title & message & Heq)].
      + rewrite (handleSubmit_accepted f data tokenText s Hcan Hs Htok) in Hin |- *.
        rewrite (attempt_accepted_web f w tokenText s Hweb) in Hin |- *.
        cbn [fst snd stores] in Hin |- *.
        assert (tokenText = t) as ->.
        { unfold request in Hin.
          destruct (isRegister f);
            repeat (destruct Hin as [Hin | Hin]; try discriminate Hin);
            try contradiction; now injection Hin. }
        unfold Device.asyncGetItem. cbn [Device.platform Device.localStorage].
        apply lookup_insert_eq.
      + rewrite Heq, attempt_alert in Hin. cbn [snd] in Hin. unfold request in Hin.
        destruct (isRegister f);
          repeat (destruct Hin as [Hin | Hin]; try discriminate Hin);
          contradiction.
    - unfold handleSubmit in Hin. rewrite Hcan in Hin.
      destruct Hin as [Hin | []]. discriminate Hin. }
  split; [exact Hread | now apply map_presents_async_token].
Qed.

Lemma login_token_presented_witness :
  let w' := run (freshWorld Device.Web) (handleSubmit sampleForm acceptedResponse) in
  Device.asyncGetItem (lit "token") (stores w') = Some (lit "t0k3n")
  /\ MapSession.authorizations (MapSession.loadTokenAndRole (stores w') NetworkFailure)
     = [lit "Bearer t0k3n"].
Proof.
  intros w'.
  apply (login_token_presented (freshWorld Device.Web) sampleForm acceptedResponse
           NetworkFailure (lit "t0k3n")).
  right. right. left. reflexivity.
Defined.

End AuthFacts.

(** ** The schema *)

Section SchemaFacts.
Import Schema.
Local Open Scope string_scope.

Lemma cell_eqb_eq (a b : cell) : cell_eqb a b = true -> a = b /\ a <> CNull.
Proof.
  destruct a, b; simpl; try discriminate.
  - intros H. apply Z.eqb_eq in H. now subst.
  - intros H. apply String.eqb_eq in H. now subst.
Qed.

Lemma cell_eqb_int (a : cell) (k : Z) : cell_eqb a (CInt k) = true <-> a = CInt k.
Proof.
  split.
  - intros H. now apply cell_eqb_eq in H.
  - intros ->. simpl. apply Z.eqb_refl.
Qed.

Lemma refersTo_exists (fk : ForeignKey) (targets : list row) (r : row) :
  refersTo fk targets r = true
  <-> exists t, In t targets
                /\ cellOf t (refColumn fk) = cellOf r (fkColumn fk)
                /\ cellOf r (fkColumn fk) <> CNull.
Proof.
  unfold refersTo. rewrite existsb_exists. split.
  - intros (t & Hin & Heq). apply cell_eqb_eq in Heq as [Heq Hnn].
    exists t. rewrite <- Heq. auto.
  - intros (t & Hin & Heq & Hnn). exists t. split; [assumption|].
    rewrite Heq. destruct (cellOf r (fkColumn fk)); simpl;
      [contradiction | apply Z.eqb_refl | apply String.eqb_refl].
Qed.

(** In a consistent database a review has a place and a user. *)
Lemma review_has_place_and_user (db : database) (r : row) :
  consistent reviewed db ->
  In r (rowsOf db "reviews") ->
  (exists p, In p (rowsOf db "places") /\ cellOf p "id" = cellOf r "place_id")
  /\ (exists u, In u (rowsOf db "users") /\ cellOf u "id" = cellOf r "user_id").
Proof.
  intros Hdb Hr.
  destruct (Hdb (nth 2 reviewed (Build_Table "" [] [])) r) as [Hnn Hfk];
    [simpl; tauto | exact Hr |].
  split.
  - destruct (Hfk (nth 0 (foreignKeys (nth 2 reviewed (Build_Table "" [] [])))
                     (Build_ForeignKey None "" "" "" NoAction)))
      as [Hnull | Href]; [simpl; tauto | |].
    + exfalso. eapply (Hnn (NOT_NULL (column "place_id" INT)));
        [simpl; tauto | reflexivity | exact Hnull].
    + apply refersTo_exists in Href as (p & Hp & Heq & _). now exists p.
  - destruct (Hfk (nth 1 (foreignKeys (nth 2 reviewed (Build_Table "" [] [])))
                     (Build_ForeignKey None "" "" "" NoAction)))
      as [Hnull | Href]; [simpl; tauto | |].
    + exfalso. eapply (Hnn (NOT_NULL (column "user_id" INT)));
        [simpl; tauto | reflexivity | exact Hnull].
    + apply refersTo_exists in Href as (u & Hu & Heq & _). now exists u.
Qed.

Lemma rowsOf_insert_eq (db : database) (table : string) (rows : list row) :
  rowsOf (<[table := rows]> db) table = rows.
Proof. unfold rowsOf. now rewrite lookup_insert_eq. Qed.

Lemma rowsOf_insert_ne (db : database) (table other : string) (rows : list row) :
  table <> other -> rowsOf (<[table := rows]> db) other = rowsOf db other.
Proof. intros Hne. unfold rowsOf. now rewrite lookup_insert_ne. Qed.

Ltac lookup_tables :=
  repeat first [ rewrite rowsOf_insert_eq
               | rewrite rowsOf_insert_ne by discriminate ].

(** [DELETE FROM users WHERE id = k]: the user goes, the user's reviews go
    with it, and the places the user owned stay with their [owner_id] set to
    [NULL]. *)
Lemma delete_user (db : database) (k : Z) :
  consistent reviewed db ->
  exists db',
    deleteById reviewed db "users" k = Some db'
    /\ (forall u, In u (rowsOf db' "users")
                  <-> In u (rowsOf db "users") /\ cellOf u "id" <> CInt k)
    /\ (forall r, In r (rowsOf db' "reviews")
                  <-> In r (rowsOf db "reviews") /\ cellOf r "user_id" <> CInt k)
    /\ rowsOf db' "places"
       = List.map
           (fun p => if cell_eqb (cellOf p "owner_id") (CInt k)
                     then <["owner_id" := CNull]> p else p)
           (rowsOf db "places").
Proof.
  intros Hdb. eexists. split.
  { unfold deleteById. cbn -[rowsOf refersTo cell_eqb cellOf insert]. reflexivity. }
  assert (Hvictim : forall fkc (r : row),
             (fkc = "owner_id" /\ In r (rowsOf db "places")
              \/ fkc = "user_id" /\ In r (rowsOf db "reviews")) ->
             existsb (fun t => cell_eqb (cellOf t "id") (cellOf r fkc))
               (List.filter (fun u => cell_eqb (cellOf u "id") (CInt k))
                  (rowsOf db "users"))
             = cell_eqb (cellOf r fkc) (CInt k)).
  { intros fkc r Hr. apply eq_true_iff_eq. rewrite existsb_exists, cell_eqb_int.
    split.
    - intros (u & Hu & Heq). apply filter_In in Hu as [_ Hid].
      apply cell_eqb_int in Hid. rewrite Hid in Heq.
      apply cell_eqb_eq in Heq as [Heq _]. now symmetry.
    - intros Hk.
      assert (Href : exists u, In u (rowsOf db "users")
                               /\ cellOf u "id" = cellOf r fkc).
      { destruct Hr as [[-> Hr] | [-> Hr]].
        - destruct (Hdb (nth 1 reviewed (Build_Table "" [] [])) r) as [_ Hfk];
            [simpl; tauto | exact Hr |].
          destruct (Hfk (Build_ForeignKey None "owner_id" "users" "id" SetNull))
            as [Hnull | Href]; [simpl; tauto | simpl in Hnull; congruence |].
          apply refersTo_exists in Href as (u & Hu & Heq & _). now exists u.
        - now apply review_has_place_and_user. }
      destruct Href as (u & Hu & Heq). exists u. split.
      + apply filter_In. split; [exact Hu|]. apply cell_eqb_int. congruence.
      + rewrite Heq, Hk. simpl. apply Z.eqb_refl. }
  split; [|split].
  - intros u. lookup_tables. rewrite filter_In, negb_true_iff.
    rewrite <- cell_eqb_int. now destruct (cell_eqb (cellOf u "id") (CInt k)).
  - intros r. lookup_tables. rewrite filter_In, negb_true_iff. unfold refersTo.
    simpl fkColumn. simpl refColumn.
    split.
    + intros [Hr Hno]. split; [exact Hr|].
      rewrite (Hvictim "user_id" r) in Hno by tauto.
      rewrite <- cell_eqb_int. congruence.
    + intros [Hr Hno]. split; [exact Hr|].
      rewrite (Hvictim "user_id" r) by tauto.
      rewrite <- cell_eqb_int in Hno. now destruct (cell_eqb _ _).
  - lookup_tables. apply map_ext_in. intros p Hp. unfold refersTo.
    simpl fkColumn. simpl refColumn.
    now rewrite (Hvictim "owner_id" p) by tauto.
Qed.

(** [DELETE FROM places WHERE id = k]: the place goes and its reviews go
    with it; the users stay. *)
Lemma delete_place (db : database) (k : Z) :
  consistent reviewed db ->
  exists db',
    deleteById reviewed db "places" k = Some db'
    /\ (forall p, In p (rowsOf db' "places")
                  <-> In p (rowsOf db "places") /\ cellOf p "id" <> CInt k)
    /\ (forall r, In r (rowsOf db' "reviews")
                  <-> In r (rowsOf db "reviews") /\ cellOf r "place_id" <> CInt k)
    /\ rowsOf db' "users" = rowsOf db "users".
Proof.
  intros Hdb. eexists. split.
  { unfold deleteById. cbn -[rowsOf refersTo cell_eqb cellOf insert]. reflexivity. }
  split; [|split].
  - intros p. lookup_tables. rewrite filter_In, negb_true_iff.
    rewrite <- cell_eqb_int. now destruct (cell_eqb (cellOf p "id") (CInt k)).
  - intros r. lookup_tables. rewrite filter_In, negb_true_iff.
    assert (Hvictim : In r (rowsOf db "reviews") ->
              refersTo (Build_ForeignKey (Some "fk_reviews_place") "place_id"
                          "places" "id" Cascade)
                (List.filter (fun p => cell_eqb (cellOf p "id") (CInt k))
                   (rowsOf db "places")) r
              = cell_eqb (cellOf r "place_id") (CInt k)).
    { intros Hr. apply eq_true_iff_eq.
      rewrite refersTo_exists, cell_eqb_int. simpl fkColumn. simpl refColumn.
      split.
      - intros (p & Hp & Heq & _). apply filter_In in Hp as [_ Hid].
        apply cell_eqb_int in Hid. congruence.
      - intros Hk.
        destruct (review_has_place_and_user db r Hdb Hr) as [(p & Hp & Heq) _].
        exists p. split; [|split; congruence].
        apply filter_In. split; [exact Hp|]. apply cell_eqb_int. congruence. }
    split.
    + intros [Hr Hno]. split; [exact Hr|].
      rewrite (Hvictim Hr) in Hno. rewrite <- cell_eqb_int. congruence.
    + intros [Hr Hno]. split; [exact Hr|].
      rewrite (Hvictim Hr). rewrite <- cell_eqb_int in Hno.
      now destruct (cell_eqb _ _).
  - now lookup_tables.
Qed.

Lemma honours_exists (db : database) (fk : ForeignKey) (r : row) :
  honours db fk r
  <-> cellOf r (fkColumn fk) = CNull
      \/ exists t, In t (rowsOf db (refTable fk))
                   /\ cellOf t (refColumn fk) = cellOf r (fkColumn fk)
                   /\ cellOf r (fkColumn fk) <> CNull.
Proof. unfold honours. now rewrite refersTo_exists. Qed.

Lemma cellOf_insert_ne (r : row) (col other : string) (c : cell) :
  col <> other -> cellOf (<[col := c]> r) other = cellOf r other.
Proof. intros Hne. unfold cellOf. now rewrite lookup_insert_ne. Qed.

Lemma cellOf_insert_eq (r : row) (col : string) (c : cell) :
  cellOf (<[col := c]> r) col = c.
Proof. unfold cellOf. now rewrite lookup_insert_eq. Qed.

(** Deleting a user keeps the database consistent. *)
Lemma delete_user_consistent (db db' : database) (k : Z) :
  consistent reviewed db ->
  deleteById reviewed db "users" k = Some db' ->
  consistent reviewed db'.
Proof.
  intros Hdb Hdel.
  destruct (delete_user db k Hdb) as (db0 & Hdel0 & Husers & Hreviews & Hplaces).
  rewrite Hdel in Hdel0. injection Hdel0 as <-.
  assert (Huser_kept : forall (r : row) col,
             (exists u, In u (rowsOf db "users") /\ cellOf u "id" = cellOf r col
                        /\ cellOf r col <> CNull) ->
             cellOf r col <> CInt k ->
             exists u, In u (rowsOf db' "users") /\ cellOf u "id" = cellOf r col
                       /\ cellOf r col <> CNull).
  { intros r col (u & Hu & Heq & Hnn) Hne. exists u. split; [|now split].
    apply Husers. split; [exact Hu | congruence]. }
  intros t r Ht Hr. unfold reviewed in Ht. simpl in Ht.
  destruct Ht as [<- | [<- | [<- | []]]]; simpl tableName in Hr;
    simpl columns; simpl foreignKeys.
  - apply Husers in Hr as [Hr _].
    destruct (Hdb (nth 0 reviewed (Build_Table "" [] [])) r) as [Hnn _];
      [simpl; tauto | exact Hr |].
    split; [exact Hnn | intros fk []].
  - rewrite Hplaces in Hr. apply in_map_iff in Hr as (p & <- & Hp).
    destruct (Hdb (nth 1 reviewed (Build_Table "" [] [])) p) as [Hnn Hfk];
      [simpl; tauto | exact Hp |].
    split.
    + intros c Hc Hnull.
      destruct (cell_eqb (cellOf p "owner_id") (CInt k)); [|now apply Hnn].
      pose proof (Hnn c Hc Hnull) as Hold.
      simpl in Hc.
      destruct Hc as [<- | [<- | [<- | [<- | [<- | [<- | []]]]]]];
        try discriminate Hnull; now rewrite cellOf_insert_ne.
    + intros fk [<- | []]. apply honours_exists. simpl fkColumn.
      simpl refTable. simpl refColumn.
      destruct (cell_eqb (cellOf p "owner_id") (CInt k)) eqn:Hk.
      * left. apply cellOf_insert_eq.
      * destruct (proj1 (honours_exists db _ p) (Hfk _ ltac:(simpl; tauto)))
          as [Hnull | Href].
        -- now left.
        -- right. apply (Huser_kept p "owner_id" Href).
           intros Heq. apply cell_eqb_int in Heq. congruence.
  - apply Hreviews in Hr as [Hr Hne].
    destruct (Hdb (nth 2 reviewed (Build_Table "" [] [])) r) as [Hnn Hfk];
      [simpl; tauto | exact Hr |].
    split; [exact Hnn|].
    intros fk [<- | [<- | []]]; apply honours_exists; right.
    + destruct (proj1 (honours_exists db _ r)
                  (Hfk (Build_ForeignKey (Some "fk_reviews_place") "place_id" "places"
                          "id" Cascade) ltac:(simpl; tauto)))
        as [Hnull | (p & Hp & Heq & Hnotnull)].
      * exfalso. eapply (Hnn (NOT_NULL (column "place_id" INT)));
          [simpl; tauto | reflexivity | exact Hnull].
      * simpl in *. rewrite Hplaces.
        exists (if cell_eqb (cellOf p "owner_id") (CInt k)
                then <["owner_id" := CNull]> p else p).
        split; [apply in_map_iff; now exists p|].
        split; [|exact Hnotnull].
        destruct (cell_eqb (cellOf p "owner_id") (CInt k)); [|exact Heq].
        now rewrite cellOf_insert_ne.
    + destruct (proj1 (honours_exists db _ r)
                  (Hfk (Build_ForeignKey (Some "fk_reviews_user") "user_id" "users"
                          "id" Cascade) ltac:(simpl; tauto)))
        as [Hnull | Href].
      * exfalso. eapply (Hnn (NOT_NULL (column "user_id" INT)));
          [simpl; tauto | reflexivity | exact Hnull].
      * now apply (Huser_kept r "user_id" Href).
Qed.

(** Deleting a place keeps the database consistent. *)
Lemma delete_place_consistent (db db' : database) (k : Z) :
  consistent reviewed db ->
  deleteById reviewed db "places" k = Some db' ->
  consistent reviewed db'.
Proof.
  intros Hdb Hdel.
  destruct (delete_place db k Hdb) as (db0 & Hdel0 & Hplaces & Hreviews & Husers).
  rewrite Hdel in Hdel0. injection Hdel0 as <-.
  intros t r Ht Hr. unfold reviewed in Ht. simpl in Ht.
  destruct Ht as [<- | [<- | [<- | []]]]; simpl tableName in Hr;
    simpl columns; simpl foreignKeys.
  - rewrite Husers in Hr.
    destruct (Hdb (nth 0 reviewed (Build_Table "" [] [])) r) as [Hnn _];
      [simpl; tauto | exact Hr |].
    split; [exact Hnn | intros fk []].
  - apply Hplaces in Hr as [Hr _].
    destruct (Hdb (nth 1 reviewed (Build_Table "" [] [])) r) as [Hnn Hfk];
      [simpl; tauto | exact Hr |].
    split; [exact Hnn|]. intros fk [<- | []].
    unfold honours. simpl refTable. rewrite Husers.
    apply (Hfk (Build_ForeignKey None "owner_id" "users" "id" SetNull)).
    simpl; tauto.
  - apply Hreviews in Hr as [Hr Hne].
    destruct (Hdb (nth 2 reviewed (Build_Table "" [] [])) r) as [Hnn Hfk];
      [simpl; tauto | exact Hr |].
    split; [exact Hnn|]. intros fk [<- | [<- | []]].
    + apply honours_exists. right.
      destruct (proj1 (honours_exists db _ r)
                  (Hfk (Build_ForeignKey (Some "fk_reviews_place") "place_id" "places"
                          "id" Cascade) ltac:(simpl; tauto)))
        as [Hnull | (p & Hp & Heq & Hnotnull)].
      * exfalso. eapply (Hnn (NOT_NULL (column "place_id" INT)));
          [simpl; tauto | reflexivity | exact Hnull].
      * simpl in *. exists p. split; [|now split].
        apply Hplaces. split; [exact Hp | congruence].
    + unfold honours. simpl refTable. rewrite Husers.
      apply (Hfk (Build_ForeignKey (Some "fk_reviews_user") "user_id" "users" "id"
                    Cascade)).
      simpl; tauto.
Qed.

Lemma cellOf_empty (col : string) : cellOf ∅ col = CNull.
Proof. reflexivity. Qed.

(** Reading the sample database: every lookup is decided by the names. *)
Ltac read_sample :=
  unfold sampleDatabase, sampleUsers, samplePlaces, sampleReviews in *;
  repeat first [ rewrite rowsOf_insert_eq
               | rewrite rowsOf_insert_ne by discriminate
               | rewrite cellOf_insert_eq
               | rewrite cellOf_insert_ne by discriminate
               | rewrite cellOf_empty ].

Lemma sample_rows :
  rowsOf sampleDatabase "users" = sampleUsers
  /\ rowsOf sampleDatabase "places" = samplePlaces
  /\ rowsOf sampleDatabase "reviews" = sampleReviews.
Proof. unfold sampleDatabase. now lookup_tables. Qed.

(** The sample database keeps to the schema. *)
Lemma sampleDatabase_consistent : consistent reviewed sampleDatabase.
Proof.
  destruct sample_rows as (Husers & Hplaces & Hreviews).
  intros t r Ht Hr. unfold reviewed in Ht. simpl in Ht.
  destruct Ht as [<- | [<- | [<- | []]]]; simpl tableName in Hr;
    simpl columns; simpl foreignKeys.
  - rewrite Husers in Hr. split; [|intros fk []].
    intros c Hc Hnull.
    destruct Hr as [<- | [<- | []]];
      destruct Hc as [<- | [<- | [<- | [<- | [<- | [<- | []]]]]]];
      try discriminate Hnull; simpl columnName; read_sample; discriminate.
  - rewrite Hplaces in Hr. destruct Hr as [<- | []]. split.
    + intros c Hc Hnull.
      destruct Hc as [<- | [<- | [<- | [<- | [<- | [<- | []]]]]]];
        try discriminate Hnull; simpl columnName; read_sample; discriminate.
    + intros fk [<- | []]. right. unfold refersTo. simpl. rewrite Husers.
      read_sample. reflexivity.
  - rewrite Hreviews in Hr. destruct Hr as [<- | []]. split.
    + intros c Hc Hnull.
      destruct Hc as [<- | [<- | [<- | [<- | [<- | []]]]]];
        try discriminate Hnull; simpl columnName; read_sample; discriminate.
    + intros fk [<- | [<- | []]]; right; unfold refersTo; simpl;
        rewrite ?Husers, ?Hplaces; read_sample; reflexivity.
Qed.

(** C3, for the script that declares the reviews. It creates exactly three
    tables, [users], [places] and [reviews]; [places] has the columns [lat]
    and [lon], both of which may be [NULL], and its [owner_id] refers to
    [users(id)] with [ON DELETE SET NULL]; the two keys of [reviews] refer
    to [places(id)] and [users(id)] with [ON DELETE CASCADE] and refuse
    [NULL]. So in a database that keeps to the schema every review has an
    existing place and an existing user; deleting a user deletes the user's
    reviews and leaves the user's places with [owner_id] set to [NULL];
    deleting a place deletes its reviews; and after either deletion the
    database still keeps to the schema. *)
Theorem reviews_schema :
  tableNames init_sql_with_reviews = ["users"; "places"; "reviews"]
  /\ (exists places,
        findTable init_sql_with_reviews "places" = Some places
        /\ nullable <$> findColumn places "lat" = Some true
        /\ nullable <$> findColumn places "lon" = Some true
        /\ foreignKeys places
           = [Build_ForeignKey None "owner_id" "users" "id" SetNull])
  /\ (exists reviews,
        findTable init_sql_with_reviews "reviews" = Some reviews
        /\ nullable <$> findColumn reviews "place_id" = Some false
        /\ nullable <$> findColumn reviews "user_id" = Some false
        /\ foreignKeys reviews
           = [Build_ForeignKey (Some "fk_reviews_place") "place_id" "places" "id" Cascade;
              Build_ForeignKey (Some "fk_reviews_user") "user_id" "users" "id" Cascade])
  /\ (forall db : database,
        consistent reviewed db ->
        (forall r,
            In r (rowsOf db "reviews") ->
            (exists p, In p (rowsOf db "places") /\ cellOf p "id" = cellOf r "place_id")
            /\ (exists u, In u (rowsOf db "users") /\ cellOf u "id" = cellOf r "user_id"))
        /\ (forall k, exists db',
               deleteById reviewed db "users" k = Some db'
               /\ consistent reviewed db'
               /\ (forall r, In r (rowsOf db' "reviews")
                             <-> In r (rowsOf db "reviews") /\ cellOf r "user_id" <> CInt k)
               /\ rowsOf db' "places"
                  = List.map
                      (fun p => if cell_eqb (cellOf p "owner_id") (CInt k)
                                then <["owner_id" := CNull]> p else p)
                      (rowsOf db "places"))
        /\ (forall k, exists db',
               deleteById reviewed db "places" k = Some db'
               /\ consistent reviewed db'
               /\ (forall r, In r (rowsOf db' "reviews")
                             <-> In r (rowsOf db "reviews")
                                 /\ cellOf r "place_id" <> CInt k))).
Proof.
  split; [reflexivity|]. split; [eexists; repeat split|].
  split; [eexists; repeat split|].
  intros db Hdb. split; [|split].
  - intros r Hr. now apply review_has_place_and_user.
  - intros k. destruct (delete_user db k Hdb) as (db' & Hdel & _ & Hrev & Hpl).
    exists db'. split; [exact Hdel|].
    split; [now apply (delete_user_consistent db db' k) | now split].
  - intros k. destruct (delete_place db k Hdb) as (db' & Hdel & _ & Hrev & _).
    exists db'. split; [exact Hdel|].
    split; [now apply (delete_place_consistent db db' k) | exact Hrev].
Qed.

(** The theorem on the sample database: deleting the owner leaves the cafe
    without an owner, and deleting the cafe deletes its review. *)
Lemma reviews_schema_witness :
  (exists db',
      deleteById reviewed sampleDatabase "users" 1 = Some db'
      /\ List.map (fun p => cellOf p "owner_id") (rowsOf db' "places") = [CNull])
  /\ (exists db',
        deleteById reviewed sampleDatabase "places" 10 = Some db'
        /\ forall r, ~ In r (rowsOf db' "reviews")).
Proof.
  destruct sample_rows as (Husers & Hplaces & Hreviews).
  destruct reviews_schema as (_ & _ & _ & Hsem).
  destruct (Hsem sampleDatabase sampleDatabase_consistent) as (_ & Huser & Hplace).
  split.
  - destruct (Huser 1) as (db' & Hdel & _ & _ & Hrows). exists db'.
    split; [exact Hdel|]. rewrite Hrows, Hplaces. unfold samplePlaces.
    cbn [List.map]. read_sample. cbn [cell_eqb Z.eqb Pos.eqb]. now read_sample.
  - destruct (Hplace 10) as (db' & Hdel & _ & Hrows). exists db'.
    split; [exact Hdel|]. intros r Hr. apply Hrows in Hr as [Hr Hne].
    rewrite Hreviews in Hr. destruct Hr as [<- | []]. apply Hne.
    now read_sample.
Defined.

(** C3 as it was stated fails on [backend/app/init.sql]: that script creates
    two tables, has no [reviews], and its [places] has neither [lat] nor
    [lon]. *)
Lemma init_sql_counterexample :
  tableNames init_sql = ["users"; "places"]
  /\ findTable init_sql "reviews" = None
  /\ findTable init_sql "places" ≫= (fun t => findColumn t "lat") = None
  /\ findTable init_sql "places" ≫= (fun t => findColumn t "lon") = None.
Proof. repeat split. Qed.

End SchemaFacts.

(** * Strings: trimming and lower-casing *)

(** The comparisons of a code unit whose range is known. *)
Ltac decide_tests :=
  repeat match goal with
         | |- context [(?a <=? ?b)%N] =>
             first [rewrite (proj2 (N.leb_le a b)) by lia
                   | rewrite (proj2 (N.leb_gt a b)) by lia]
         | |- context [(?a =? ?b)%N] =>
             first [rewrite (proj2 (N.eqb_neq a b)) by lia
                   | rewrite (proj2 (N.eqb_eq a b)) by lia]
         end.

Section TrimFacts.

Lemma lowerChar_cases (c : N) :
  lowerChar c = c
  \/ (lowerChar c = (c + 32)%N
      /\ (65 <= c <= 90 \/ 192 <= c <= 222 \/ 1040 <= c <= 1071)%N)
  \/ (lowerChar c = (c + 80)%N /\ (1024 <= c <= 1039)%N).
Proof.
  unfold lowerChar.
  destruct (N.leb_spec 65 c), (N.leb_spec c 90); simpl; try (right; left; lia).
  all: destruct (N.leb_spec 192 c), (N.leb_spec c 222), (N.eqb_spec c 215); simpl;
    try (right; left; lia).
  all: destruct (N.leb_spec 1024 c), (N.leb_spec c 1039); simpl;
    try (right; right; lia).
  all: destruct (N.leb_spec 1040 c), (N.leb_spec c 1071); simpl;
    try (right; left; lia); now left.
Qed.

Lemma lowerChar_idem (c : N) : lowerChar (lowerChar c) = lowerChar c.
Proof.
  destruct (lowerChar_cases c) as [H | [[H [Hc | [Hc | Hc]]] | [H Hc]]]; rewrite H;
    [exact H | | | |]; unfold lowerChar; decide_tests; reflexivity.
Qed.

Lemma isWhiteSpace_lowerChar (c : N) : isWhiteSpace (lowerChar c) = isWhiteSpace c.
Proof.
  destruct (lowerChar_cases c) as [H | [[H [Hc | [Hc | Hc]]] | [H Hc]]]; rewrite H;
    [reflexivity | | | |]; unfold isWhiteSpace; decide_tests; reflexivity.
Qed.

Lemma toLowerCase_idem (s : jsstring) : toLowerCase (toLowerCase s) = toLowerCase s.
Proof.
  unfold toLowerCase. rewrite List.map_map. apply List.map_ext, lowerChar_idem.
Qed.

Lemma trimStart_toLowerCase (s : jsstring) :
  trimStart (toLowerCase s) = toLowerCase (trimStart s).
Proof.
  induction s as [|c s IH]; [reflexivity|]. simpl.
  rewrite isWhiteSpace_lowerChar. now destruct (isWhiteSpace c).
Qed.

Lemma toLowerCase_rev (s : jsstring) : toLowerCase (rev s) = rev (toLowerCase s).
Proof. apply List.map_rev. Qed.

Lemma trim_toLowerCase (s : jsstring) : trim (toLowerCase s) = toLowerCase (trim s).
Proof.
  unfold trim, trimEnd.
  now rewrite trimStart_toLowerCase, <- toLowerCase_rev, trimStart_toLowerCase,
    toLowerCase_rev.
Qed.

Lemma trimStart_idem (s : jsstring) : trimStart (trimStart s) = trimStart s.
Proof.
  induction s as [|c s IH]; [reflexivity|]. simpl.
  destruct (isWhiteSpace c) eqn:Hc; [exact IH|]. simpl. now rewrite Hc.
Qed.

Lemma trimStart_snoc (s : jsstring) (c : N) :
  isWhiteSpace c = false -> trimStart (s ++ [c]) = trimStart s ++ [c].
Proof.
  intros Hc. induction s as [|d s IH]; simpl; [now rewrite Hc|].
  now destruct (isWhiteSpace d).
Qed.

Lemma trimEnd_cons (c : N) (s : jsstring) :
  isWhiteSpace c = false -> trimEnd (c :: s) = c :: trimEnd s.
Proof.
  intros Hc. unfold trimEnd. simpl. rewrite trimStart_snoc by exact Hc.
  now rewrite rev_app_distr.
Qed.

Lemma trimEnd_idem (s : jsstring) : trimEnd (trimEnd s) = trimEnd s.
Proof. unfold trimEnd. now rewrite rev_involutive, trimStart_idem. Qed.

Lemma trimStart_head (s : jsstring) :
  trimStart s = [] \/ exists c rest, trimStart s = c :: rest /\ isWhiteSpace c = false.
Proof.
  induction s as [|c s IH]; [now left|]. simpl.
  destruct (isWhiteSpace c) eqn:Hc; [exact IH|]. right. now exists c, s.
Qed.

Lemma trim_idem (s : jsstring) : trim (trim s) = trim s.
Proof.
  unfold trim. destruct (trimStart_head s) as [-> | (c & rest & -> & Hc)];
    [reflexivity|].
  rewrite trimEnd_cons by exact Hc. simpl. rewrite Hc.
  rewrite trimEnd_cons by exact Hc. now rewrite trimEnd_idem.
Qed.

Lemma trimStart_blank (s : jsstring) :
  trimStart s = [] <-> Forall (fun c => isWhiteSpace c = true) s.
Proof.
  induction s as [|c s IH]; simpl; [split; [constructor | reflexivity]|].
  destruct (isWhiteSpace c) eqn:Hc.
  - rewrite IH. split; [now constructor|]. now inversion 1.
  - split; [discriminate|]. inversion 1; congruence.
Qed.

Lemma trim_blank (s : jsstring) :
  trim s = [] <-> Forall (fun c => isWhiteSpace c = true) s.
Proof.
  rewrite <- trimStart_blank. unfold trim.
  destruct (trimStart_head s) as [-> | (c & rest & -> & Hc)]; [easy|].
  rewrite trimEnd_cons by exact Hc. split; discriminate.
Qed.

End TrimFacts.

(** * Decimal numerals read back *)

Section NumeralFacts.
Import JSNumber.

Lemma digitsValue_snoc (ds : jsstring) (c : N) :
  digitsValue (ds ++ [c]) = 10 * digitsValue ds + digitValue c.
Proof. unfold digitsValue. now rewrite fold_left_app. Qed.

Lemma digitsValue_decimal (n : N) : digitsValue (decimal n) = Z.of_N n.
Proof.
  induction n as [n IH] using (well_founded_induction N.lt_wf_0).
  destruct (N.lt_ge_cases n 10) as [Hlt | Hge].
  - rewrite (decimal_small n Hlt). unfold digitsValue, digitValue. simpl. lia.
  - rewrite (decimal_step n Hge), digitsValue_snoc, IH by (apply N.div_lt; lia).
    unfold digitValue. rewrite (N.div_mod n 10) at 3 by lia.
    assert (Hd : (n mod 10 < 10)%N) by now apply N.mod_lt.
    set (q := (n / 10)%N) in *. set (r := (n mod 10)%N) in *. lia.
Qed.

Lemma decimal_inj (n m : N) : decimal n = decimal m -> n = m.
Proof.
  intros H. apply N2Z.inj. now rewrite <- !digitsValue_decimal, H.
Qed.

Lemma decimal_no_hyphen (n : N) : ~ In 45%N (decimal n).
Proof.
  intros H. pose proof (decimal_digits n) as Hd.
  rewrite List.Forall_forall in Hd. now specialize (Hd _ H).
Qed.

Lemma hyphen_split (a b x y : jsstring) :
  ~ In 45%N x -> ~ In 45%N y ->
  a ++ 45%N :: x = b ++ 45%N :: y -> a = b /\ x = y.
Proof.
  intros Hx Hy. revert b. induction a as [|c a IH]; intros [|d b] H; simpl in H.
  - now injection H.
  - injection H as <- ->. exfalso. apply Hx, in_or_app. right. now left.
  - injection H as -> <-. exfalso. apply Hy, in_or_app. right. now left.
  - injection H as <- H. destruct (IH b H) as [-> ->]. now split.
Qed.

End NumeralFacts.

(** * The search screen around its filter *)

Section SearchScreenFacts.
Import JSNumber Content Search SearchScreen.

(** X1. The search ignores the case of the query and the blanks around it. *)
Theorem filterPosts_query_normalized
  (data : list NormalizedPost.t) (category query : jsstring) :
  filterPosts data category query
  = filterPosts data category (toLowerCase (trim query)).
Proof.
  unfold filterPosts.
  now rewrite trim_toLowerCase, trim_idem, toLowerCase_idem.
Qed.

Lemma has_spec (unique : list (jsstring * jsstring)) (key : jsstring) :
  has unique key = true <-> In key (List.map fst unique).
Proof.
  unfold has. rewrite existsb_exists, in_map_iff. split.
  - intros (entry & Hin & Heq). apply streq_true in Heq. now exists entry.
  - intros (entry & Heq & Hin). exists entry. split; [exact Hin|].
    now apply streq_true.
Qed.

Lemma firstSpellings_step (seen : list jsstring)
  (unique : list (jsstring * jsstring)) (tag : jsstring) :
  firstSpellings seen unique -> firstSpellings (seen ++ [tag]) (addTag unique tag).
Proof.
  intros (Hnodup & Hfirst & Hall). unfold addTag.
  destruct (has unique (toLowerCase tag)) eqn:Hhas; simpl.
  - apply has_spec, in_map_iff in Hhas as ([key name] & Hkey & Hin).
    simpl in Hkey. subst key.
    split; [exact Hnodup|]. split.
    + intros key name' Hin'. destruct (Hfirst key name' Hin')
        as (Hkey & before & after & -> & Hbefore).
      split; [exact Hkey|]. exists before, (after ++ [tag]).
      split; [|exact Hbefore]. now rewrite <- app_assoc.
    + intros t [Ht | [<- | []]]%in_app_or; [now apply Hall|]. now exists name.
  - assert (Hnew : ~ In (toLowerCase tag) (List.map fst unique)).
    { intros Hin. apply has_spec in Hin. congruence. }
    split; [|split].
    + rewrite List.map_app. simpl. apply NoDup_app. split; [exact Hnodup|].
      split; [|apply NoDup_singleton].
      intros key Hkey [<- | []]%list_elem_of_In. apply Hnew.
      now apply list_elem_of_In.
    + intros key name [Hin | [Heq | []]]%in_app_or.
      * destruct (Hfirst key name Hin) as (Hkey & before & after & -> & Hbefore).
        split; [exact Hkey|]. exists before, (after ++ [tag]).
        split; [|exact Hbefore]. now rewrite <- app_assoc.
      * injection Heq as <- <-. split; [reflexivity|]. exists seen, [].
        split; [reflexivity|]. intros t Ht Heq. apply Hnew.
        destruct (Hall t Ht) as (name & Hin). rewrite Heq in Hin.
        apply in_map_iff. now exists (toLowerCase tag, name).
    + intros t [Ht | [<- | []]]%in_app_or.
      * destruct (Hall t Ht) as (name & Hin). exists name.
        apply in_or_app. now left.
      * exists tag. apply in_or_app. right. now left.
Qed.

Lemma firstSpellings_fold (tags : list jsstring) :
  firstSpellings tags (fold_left addTag tags []).
Proof.
  induction tags as [|tag tags IH] using rev_ind.
  - split; [constructor|]. split; intros; contradiction.
  - rewrite fold_left_app. simpl. now apply firstSpellings_step.
Qed.

Lemma uniqueTags_fold (posts : list NormalizedPost.t)
  (unique : list (jsstring * jsstring)) :
  fold_left (fun unique post => fold_left addTag (NormalizedPost.tags post) unique)
    posts unique
  = fold_left addTag (flat_map NormalizedPost.tags posts) unique.
Proof.
  revert unique. induction posts as [|post posts IH]; intros unique; simpl.
  - reflexivity.
  - now rewrite IH, fold_left_app.
Qed.

Lemma uniqueTags_firstSpellings (posts : list NormalizedPost.t) :
  firstSpellings (flat_map NormalizedPost.tags posts) (uniqueTags posts).
Proof. unfold uniqueTags. rewrite uniqueTags_fold. apply firstSpellings_fold. Qed.

(** X2. The category chips: after the chip of all posts comes one chip for
    every tag, whatever its case: no two of these chips have the same id, a
    chip's id is its name in lower case, its name is the first tag, in the
    order of the posts and of their tags, that has this lower-case form, and
    every tag of every post has its lower-case form among the ids. *)
Theorem categoryOptions_first_spellings (posts : list NormalizedPost.t) :
  let allTags := flat_map NormalizedPost.tags posts in
  exists options,
    categoryOptions posts
    = {| id := lit "all"; name := lit "Все"; icon := lit "apps" |} :: options
    /\ NoDup (List.map id options)
    /\ (forall o,
          In o options ->
          id o = toLowerCase (name o)
          /\ icon o = lit "pricetag-outline"
          /\ exists before after,
               allTags = before ++ name o :: after
               /\ forall t, In t before -> toLowerCase t <> id o)
    /\ (forall t, In t allTags -> exists o, In o options /\ id o = toLowerCase t).
Proof.
  intros allTags. eexists. split; [reflexivity|].
  destruct (uniqueTags_firstSpellings posts) as (Hnodup & Hfirst & Hall).
  split; [|split].
  - now rewrite List.map_map.
  - intros o ([key tag] & <- & Hin)%in_map_iff. simpl.
    destruct (Hfirst key tag Hin) as (Hkey & Hrest). now repeat split.
  - intros t Ht. destruct (Hall t Ht) as (tag & Hin).
    eexists. split; [apply in_map_iff; eexists; split; [reflexivity | exact Hin]|].
    reflexivity.
Qed.

Lemma filterPosts_blank (data : list NormalizedPost.t) (category query : jsstring) :
  trim query = [] ->
  filterPosts data category query = List.filter (matchesCategory category) data.
Proof.
  intros Hblank. unfold filterPosts. rewrite Hblank. apply List.filter_ext.
  intros post. now destruct (matchesCategory category post).
Qed.

(** X3. No chip leads to an empty list: with a blank query, every category
    among the options selects at least one post (the chip of all posts as
    soon as there is a post). *)
Theorem category_option_selects
  (posts : list NormalizedPost.t) (o : CategoryOption) (query : jsstring) :
  In o (categoryOptions posts) -> posts <> [] -> trim query = [] ->
  exists post, In post (filterPosts posts (id o) query).
Proof.
  intros Hin Hposts Hblank. rewrite filterPosts_blank by exact Hblank.
  destruct Hin as [<- | Hin].
  - destruct posts as [|post rest]; [contradiction|]. exists post.
    apply filter_In. split; [now left | reflexivity].
  - apply in_map_iff in Hin as ([key tag] & <- & Hin). simpl.
    destruct (uniqueTags_firstSpellings posts) as (_ & Hfirst & _).
    destruct (Hfirst key tag Hin) as (-> & before & after & Htags & _).
    assert (Htag : In tag (flat_map NormalizedPost.tags posts)).
    { rewrite Htags. apply in_or_app. right. now left. }
    apply in_flat_map in Htag as (post & Hpost & Htag). exists post.
    apply filter_In. split; [exact Hpost|].
    unfold matchesCategory. apply orb_true_iff. right.
    apply existsb_exists. exists tag. split; [exact Htag | now apply streq_true].
Qed.

Lemma category_option_selects_witness :
  let park := samplePost (lit "Парк Победы") [lit "Прогулки"] in
  exists post, In post (filterPosts [park] (lit "прогулки") (lit "  ")).
Proof.
  intros park.
  apply (category_option_selects [park]
           {| id := lit "прогулки"; name := lit "Прогулки";
              icon := lit "pricetag-outline" |} (lit "  ")).
  - right. left. reflexivity.
  - discriminate.
  - reflexivity.
Defined.

Lemma map_lookup {A B : Type} (f : A -> B) (l : list A) (i : nat) :
  List.map f l !! i = f <$> l !! i.
Proof.
  revert i. induction l as [|x l IH]; intros [|i]; simpl; try reflexivity.
  apply IH.
Qed.

Lemma normalizePosts_uid (posts : list Post.t) (i : nat) (p : NormalizedPost.t) :
  normalizePosts posts !! i = Some p ->
  exists post,
    posts !! i = Some post
    /\ NormalizedPost.uid p = Post.id post ++ 45%N :: decimal (N.of_nat i).
Proof.
  unfold normalizePosts. rewrite normalizeFrom_lookup.
  destruct (posts !! i) as [post|]; [|discriminate].
  intros [= <-]. now exists post.
Qed.

Lemma normalizePosts_uid_inj (posts : list Post.t) (i j : nat)
  (p q : NormalizedPost.t) :
  normalizePosts posts !! i = Some p ->
  normalizePosts posts !! j = Some q ->
  NormalizedPost.uid p = NormalizedPost.uid q ->
  i = j.
Proof.
  intros (post & _ & Hp)%normalizePosts_uid (post' & _ & Hq)%normalizePosts_uid Heq.
  rewrite Hp, Hq in Heq.
  apply hyphen_split in Heq as [_ Heq]; try apply decimal_no_hyphen.
  apply decimal_inj in Heq. lia.
Qed.

(** X4. A like reaches one post. The uids that [normalizePosts] gives are
    pairwise distinct, so [handleLike] with the uid of the post at index [i]
    adds one to the likes of that post and leaves every other post, and the
    order, as they were. *)
Theorem handleLike_one_post (posts : list Post.t) (i : nat) (p : NormalizedPost.t) :
  normalizePosts posts !! i = Some p ->
  handleLike (NormalizedPost.uid p) (normalizePosts posts)
  = <[i := liked p]> (normalizePosts posts).
Proof.
  intros Hp. apply list_eq. intros j. unfold handleLike. rewrite map_lookup.
  destruct (decide (i = j)) as [<- | Hne].
  - rewrite list_lookup_insert_eq by (eapply lookup_lt_Some; exact Hp).
    rewrite Hp. simpl. now rewrite streq_refl.
  - rewrite list_lookup_insert_ne by exact Hne.
    destruct (normalizePosts posts !! j) as [q|] eqn:Hq; [|reflexivity]. simpl.
    destruct (streq (NormalizedPost.uid q) (NormalizedPost.uid p)) eqn:Heq;
      [|reflexivity].
    apply streq_true in Heq. exfalso. apply Hne.
    now apply (normalizePosts_uid_inj posts i j p q).
Qed.

Lemma handleLike_one_post_witness :
  let cafe post_id :=
    {| Post.id := post_id; Post.user := []; Post.userAvatar := [];
       Post.userHandle := []; Post.place := []; Post.address := [];
       Post.image := []; Post.gallery := []; Post.likes := StrV (lit "1,5 тыс");
       Post.totalLikes := NumV 0; Post.followers := NumV 0; Post.rating := 0;
       Post.tags := []; Post.bio := []; Post.workingHours := [];
       Post.reviews := []; Post.contact := [] |} in
  List.map NormalizedPost.likes
    (handleLike (lit "b-1") (normalizePosts [cafe (lit "a"); cafe (lit "b")]))
  = [1500%float; 1501%float].
Proof.
  intros cafe.
  replace (lit "b-1") with (NormalizedPost.uid (normalizePost (cafe (lit "b")) 1))
    by reflexivity.
  rewrite (handleLike_one_post [cafe (lit "a"); cafe (lit "b")] 1
             (normalizePost (cafe (lit "b")) 1) eq_refl).
  reflexivity.
Defined.

Lemma filter_map_commute {A : Type} (f : A -> bool) (g : A -> A) (l : list A) :
  (forall x, f (g x) = f x) ->
  List.filter f (List.map g l) = List.map g (List.filter f l).
Proof.
  intros Hfg. induction l as [|x l IH]; [reflexivity|]. simpl.
  rewrite Hfg, IH. now destruct (f x).
Qed.

Lemma filterPosts_handleLike
  (data : list NormalizedPost.t) (category query uid : jsstring) :
  filterPosts (handleLike uid data) category query
  = handleLike uid (filterPosts data category query).
Proof.
  unfold filterPosts, handleLike. apply filter_map_commute. intros post.
  now destruct (streq (NormalizedPost.uid post) uid).
Qed.

Lemma after_snoc (posts : list NormalizedPost.t) (events : list Event) (e : Event) :
  after posts (events ++ [e]) = step (after posts events) e.
Proof. unfold after. now rewrite fold_left_app. Qed.

Lemma after_results (posts : list NormalizedPost.t) (events : list Event) :
  let st := after posts events in
  searchResults st = filterPosts (postsData st) (selectedCategory st) (searchQuery st)
  /\ isSearching st = (0 <? length (trim (searchQuery st)))%nat.
Proof.
  destruct events as [|e events _] using rev_ind; [now split|].
  rewrite after_snoc. now split.
Qed.

Lemma sameButLikes_handleLike (l l' : list NormalizedPost.t) (uid : jsstring) :
  Forall2 sameButLikes l l' -> Forall2 sameButLikes l (handleLike uid l').
Proof.
  induction 1 as [|p q l l' Hpq _ IH]; [constructor|]. simpl.
  constructor; [|exact IH].
  now destruct (streq (NormalizedPost.uid q) uid).
Qed.

(** X5. A like changes no result. After [handleLike] the list on the screen
    is the list that was there, in the same order, with one more like on
    the posts of that uid: no post appears and none goes away. *)
Theorem like_keeps_results
  (posts : list NormalizedPost.t) (events : list Event) (uid : jsstring) :
  searchResults (after posts (events ++ [Like uid]))
  = handleLike uid (searchResults (after posts events)).
Proof.
  rewrite after_snoc. destruct (after_results posts events) as [Hresults _].
  rewrite Hresults. simpl. apply filterPosts_handleLike.
Qed.

Lemma postsData_sameButLikes (posts : list NormalizedPost.t) (events : list Event) :
  Forall2 sameButLikes posts (postsData (after posts events)).
Proof.
  induction events as [|e events IH] using rev_ind.
  - simpl. induction posts; constructor; [reflexivity | assumption].
  - rewrite after_snoc.
    destruct e; simpl; try exact IH. now apply sameButLikes_handleLike.
Qed.

(** X6. Whatever is done on the screen, in any order, [postsData] keeps the
    posts it was mounted with, in their order, changed in their likes
    alone; the results shown are the filter of them by the category and the
    query of the moment; and while [isSearching] is off, they are all the
    posts of the category. *)
Theorem postsData_changes_by_likes_only
  (posts : list NormalizedPost.t) (events : list Event) :
  let st := after posts events in
  Forall2 sameButLikes posts (postsData st)
  /\ searchResults st
     = filterPosts (postsData st) (selectedCategory st) (searchQuery st)
  /\ (isSearching st = false ->
      searchResults st
      = List.filter (matchesCategory (selectedCategory st)) (postsData st)).
Proof.
  intros st. destruct (after_results posts events) as [Hresults Hsearching].
  fold st in Hresults, Hsearching.
  split; [apply postsData_sameButLikes | split; [exact Hresults|]].
  intros Hoff. rewrite Hresults. apply filterPosts_blank.
  rewrite Hsearching in Hoff. apply Nat.ltb_ge in Hoff.
  destruct (trim (searchQuery st)); [reflexivity | simpl in Hoff; lia].
Qed.

End SearchScreenFacts.

(** * The map component's commands to the page *)

Section HandleFacts.
Import JS YandexMap YandexMapHandle.

Lemma escapeQuotes_escaped (s : jsstring) : quotesEscaped (escapeQuotes s).
Proof.
  induction s as [|c s IH]; intros i Hi; [destruct i; discriminate Hi|].
  simpl in Hi. destruct (N.eqb_spec c 34) as [-> | Hc].
  - destruct i as [|[|i]]; simpl in Hi.
    + discriminate Hi.
    + now exists O.
    + destruct (IH i Hi) as (j & -> & Hj). now exists (S (S j)).
  - destruct i as [|i]; simpl in Hi.
    + congruence.
    + destruct (IH i Hi) as (j & -> & Hj). exists (S j).
      split; [reflexivity|]. simpl.
      destruct (N.eqb_spec c 34); [contradiction | exact Hj].
Qed.

Lemma escapeQuotes_without_quotes (s : jsstring) :
  ~ In 34%N s -> escapeQuotes s = s.
Proof.
  induction s as [|c s IH]; intros Hs; [reflexivity|]. simpl.
  destruct (N.eqb_spec c 34) as [-> | _]; [exfalso; apply Hs; now left|].
  simpl. f_equal. apply IH. intros Hin. apply Hs. now right.
Qed.

(** X7. [searchAddress] sends nothing for a blank query; for any other it
    injects one script (none while there is no [WebView]), which calls
    [window.searchAddress] with the trimmed query between double quotes,
    every double quote of it preceded by a backslash; a query without
    double quotes is passed as it is, backslashes and line breaks included.
    Trimming the query beforehand changes nothing. *)
Theorem searchAddress_escapes (webView : bool) (query : jsstring) :
  let body := escapeQuotes (trim query) in
  (trim query = [] -> searchAddress webView query = [])
  /\ (trim query <> [] ->
      searchAddress webView query
      = if webView
        then [script (lit "window.searchAddress(" ++ quote ++ body ++ quote ++ lit ");")]
        else [])
  /\ quotesEscaped body
  /\ (~ In 34%N (trim query) -> body = trim query)
  /\ searchAddress webView (trim query) = searchAddress webView query.
Proof.
  intros body. unfold searchAddress. split; [|split; [|split; [|split]]].
  - now intros ->.
  - intros Hne. destruct (trim query) eqn:Hq; [contradiction|].
    subst body. rewrite ?Hq. now destruct webView.
  - apply escapeQuotes_escaped.
  - apply escapeQuotes_without_quotes.
  - now rewrite trim_idem.
Qed.

End HandleFacts.

(** * Markers and the add-place modal *)

(** Every path through [handleWebViewMessage]. *)
Ltac handler_paths props st message :=
  unfold YandexMap.handleWebViewMessage, YandexMap.handleMessage,
    YandexMap.selectLocation;
  destruct message as [|?data]; [|destruct (JS.get data (lit "type")) as [?type|]];
  repeat match goal with
         | |- context [JS.isString ?v ?n] => destruct (JS.isString v n) eqn:?
         | |- context [JS.get ?v ?n] => destruct (JS.get v n)
         | |- context [JS.truthy ?a && JS.truthy ?b] =>
             destruct (JS.truthy a && JS.truthy b)
         | |- context [YandexMap.hasOnLocationSelect ?p] =>
             destruct (YandexMap.hasOnLocationSelect p)
         end.


Section AddPlaceFacts.
Import JS YandexMap YandexMapHandle AddPlace.

Lemma markerScript_wellFormed (marker : value) :
  wellFormed marker = true -> exists js, markerScript marker = Some js.
Proof.
  unfold wellFormed, markerScript.
  destruct (get marker (lit "lat")) as [lat|]; [|discriminate].
  destruct (get marker (lit "lon")) as [lon|]; [|discriminate].
  destruct (get marker (lit "name")) as [[| | | |name| |]|]; try discriminate.
  destruct (get marker (lit "description")) as [[| | | |description| |]|];
    try discriminate.
  destruct lat; try discriminate; destruct lon; try discriminate;
    intros _; eexists; reflexivity.
Qed.

Lemma markerScript_null_description (marker : value) :
  get marker (lit "description") = Some Null -> markerScript marker = None.
Proof.
  intros Hdesc. unfold markerScript. rewrite Hdesc.
  destruct (get marker (lit "lat")) as [lat|]; [|reflexivity].
  destruct (get marker (lit "lon")) as [lon|]; [|reflexivity].
  destruct (get marker (lit "name")) as [name|]; [|reflexivity].
  cbn [mbind option_bind].
  destruct (toStringOrThrow lat); [|reflexivity].
  destruct (toStringOrThrow lon); [|reflexivity].
  cbn [mbind option_bind].
  now destruct (callEscapeQuotes name).
Qed.

Lemma forEachMarker_wellFormed (webView : bool) (markers : list value) :
  Forall (fun marker => wellFormed marker = true) markers ->
  threw (forEachMarker webView markers) = false
  /\ Forall2 (fun marker js => markerScript marker = Some js) markers
       (scripts (forEachMarker true markers))
  /\ scripts (forEachMarker false markers) = [].
Proof.
  induction 1 as [|marker markers Hmarker _ (IH1 & IH2 & IH3)]; simpl.
  - repeat split. constructor.
  - destruct (markerScript_wellFormed marker Hmarker) as (js & Hjs).
    rewrite Hjs. simpl. repeat split; [exact IH1 | | exact IH3].
    constructor; [exact Hjs | exact IH2].
Qed.

(** X8. The markers of the map. Nothing is injected before the page has
    reported that the map is loaded. Once it has, and every marker is
    well formed (coordinates that are numbers or [null], a name and a
    description that are strings), one script is injected for each marker,
    in the order of the markers, and nothing is thrown. A marker whose
    description is [null] makes the effect throw: the scripts of the markers
    before it have been injected, those of the markers after it never are. *)
Theorem addMarkers_scripts (webView : bool) (st : State) :
  (isMapLoaded st = false ->
   addMarkers webView st = {| scripts := []; threw := false |})
  /\ (isMapLoaded st = true ->
      Forall (fun marker => wellFormed marker = true) (markers st) ->
      threw (addMarkers webView st) = false
      /\ Forall2 (fun marker js => markerScript marker = Some js) (markers st)
           (scripts (addMarkers true st))
      /\ scripts (addMarkers false st) = [])
  /\ (forall before marker after,
        isMapLoaded st = true ->
        markers st = before ++ marker :: after ->
        Forall (fun marker => wellFormed marker = true) before ->
        get marker (lit "description") = Some Null ->
        threw (addMarkers webView st) = true
        /\ Forall2 (fun marker js => markerScript marker = Some js) before
             (scripts (addMarkers true st))).
Proof.
  unfold addMarkers. split; [|split].
  - now intros ->.
  - intros ->. apply forEachMarker_wellFormed.
  - intros before marker after -> -> Hbefore Hdesc.
    apply markerScript_null_description in Hdesc.
    induction Hbefore as [|first before Hfirst _ [IH1 IH2]]; simpl.
    + rewrite Hdesc. split; [reflexivity | constructor].
    + destruct (markerScript_wellFormed first Hfirst) as (js & Hjs).
      rewrite Hjs. simpl. split; [exact IH1|]. constructor; [exact Hjs | exact IH2].
Qed.

Lemma requests_app (a b : list Effect) : requests (a ++ b) = requests a ++ requests b.
Proof. unfold requests. apply flat_map_app. Qed.

Lemma requests_handled (actions : list Action) :
  requests (List.map Handled actions) = [].
Proof. induction actions as [|a actions IH]; [reflexivity | exact IH]. Qed.

(** X9. [handleAddMarker] does nothing while no coordinates are held.
    With coordinates it sends one request, to [/places], which carries the
    name and the description typed and the coordinates held, and an
    [Authorization] header exactly when a non-empty token is held. If the
    response is ok and its body is JSON, the place it returns is appended to
    the markers and the modal is closed and cleared, without an alert; in
    every other case the state stays as it was, the modal and what was typed
    in it included, and one alert is shown. *)
Theorem handleAddMarker_outcome (st : State) (reply : Reply) :
  let st' := fst (handleAddMarker st reply) in
  let effects := snd (handleAddMarker st reply) in
  (newPlaceCoords st = None -> st' = st /\ effects = [])
  /\ (forall coords,
        newPlaceCoords st = Some coords ->
        requests effects = [placeRequest st coords]
        /\ body (placeRequest st coords)
           = Object [(lit "name", String (newPlaceName st));
                     (lit "desc", String (newPlaceDesc st));
                     (lit "lat", latitude coords);
                     (lit "lon", longitude coords)]
        /\ (forall h,
              In (lit "Authorization", h) (headers (placeRequest st coords))
              <-> exists t, token st = Some t /\ t <> [] /\ h = lit "Bearer " ++ t)
        /\ (forall status created,
              reply = Replied status (Parsed created) -> ok status = true ->
              st' = added created st /\ alertsShown effects = [])
        /\ ((forall status created,
               reply = Replied status (Parsed created) -> ok status = false) ->
            st' = st /\ exists alert, alertsShown effects = [alert])).
Proof.
  intros st' effects. subst st' effects. unfold handleAddMarker. split.
  - now intros ->.
  - intros coords ->. split; [|split; [|split; [|split]]].
    + destruct reply as [|status [|created]]; [reflexivity | |];
        now destruct (ok status).
    + reflexivity.
    + intros h. unfold placeRequest. cbn [headers]. split.
      * intros [Hin | Hin]; [discriminate Hin|].
        destruct (token st) as [t|]; [|contradiction].
        destruct t as [|c t]; [contradiction|].
        destruct Hin as [[= <-] | []]. exists (c :: t). now repeat split.
      * intros (t & -> & Hne & ->). right.
        destruct t as [|c t]; [contradiction|]. now left.
    + intros status created -> Hok. now rewrite Hok.
    + intros Hrefused. destruct reply as [|status [|created]].
      * split; [reflexivity|]. now eexists.
      * destruct (ok status); split; try reflexivity; now eexists.
      * rewrite (Hrefused status created eq_refl). split; [reflexivity|].
        now eexists.
Qed.

Lemma run_without_modal (st : State) (actions : list Action) :
  existsb opensModal actions = false ->
  newPlaceCoords (run st actions) = newPlaceCoords st
  /\ showAddModal (run st actions) = showAddModal st.
Proof.
  unfold run. revert st. induction actions as [|a actions IH]; intros st H; simpl.
  - now split.
  - simpl in H. apply orb_false_iff in H as [Ha Hrest].
    destruct (IH (apply st a) Hrest) as [-> ->].
    destruct a; simpl in Ha; try discriminate Ha; now split.
Qed.

Lemma run_keeps_role (st : State) (actions : list Action) :
  Forall (fun a => forall role, a <> SetUserRole role) actions ->
  userRole (run st actions) = userRole st.
Proof.
  unfold run. revert st. induction actions as [|a actions IH]; intros st H; simpl.
  - reflexivity.
  - inversion H as [|? ? Ha Hrest]; subst. rewrite (IH _ Hrest).
    destruct a; try reflexivity. now contradiction (Ha role).
Qed.

Lemma run_keeps_markers (st : State) (actions : list Action) :
  markers (run st actions) = markers st
  /\ newPlaceName (run st actions) = newPlaceName st
  /\ newPlaceDesc (run st actions) = newPlaceDesc st.
Proof.
  unfold run. revert st. induction actions as [|a actions IH]; intros st; simpl.
  - now repeat split.
  - destruct (IH (apply st a)) as (-> & -> & ->). now destruct a.
Qed.

Lemma handler_never_sets_role (props : Props) (st : State) (message : parsed) :
  Forall (fun a => forall role, a <> SetUserRole role)
    (actionsOf (handleWebViewMessage props st message)).
Proof.
  handler_paths props st message; simpl; repeat constructor; discriminate.
Qed.

Lemma visitor_never_opens_modal (props : Props) (st : State) (message : parsed) :
  isString (userRole st) (lit "businessOwner") = false ->
  existsb opensModal (actionsOf (handleWebViewMessage props st message)) = false.
Proof.
  intros Hrole. handler_paths props st message; try reflexivity; congruence.
Qed.

Lemma step_of_visitor (props : Props) (st : State) (e : Event) :
  isString (userRole st) (lit "businessOwner") = false ->
  newPlaceCoords st = None ->
  let st' := fst (step props st e) in
  requests (snd (step props st e)) = []
  /\ userRole st' = userRole st
  /\ newPlaceCoords st' = None
  /\ markers st' = markers st
  /\ (showAddModal st = false -> showAddModal st' = false).
Proof.
  intros Hrole Hcoords.
  destruct e as [message|text|text| |reply| |]; simpl;
    try (rewrite Hcoords; now repeat split).
  - destruct (run_without_modal st _ (visitor_never_opens_modal props st message Hrole))
      as [-> ->].
    rewrite (run_keeps_role st _ (handler_never_sets_role props st message)).
    destruct (run_keeps_markers st (actionsOf (handleWebViewMessage props st message)))
      as (-> & _).
    rewrite requests_handled. now repeat split.
  - now repeat split.
  - unfold handleAddMarker. rewrite Hcoords. now repeat split.
Qed.

(** X10. Without the role of a business owner no place is ever sent. If
    the role held is not ['businessOwner'] and no coordinates are held (as
    when the component mounts), then whatever messages the page sends and
    whatever is typed or pressed, in any order, no place is sent to the
    server, no coordinates of a new place are ever held, the markers stay as
    they were, and a modal that was closed stays closed. *)
Theorem no_place_without_owner (props : Props) (st : State) (events : list Event) :
  isString (userRole st) (lit "businessOwner") = false ->
  newPlaceCoords st = None ->
  let st' := fst (steps props st events) in
  requests (snd (steps props st events)) = []
  /\ newPlaceCoords st' = None
  /\ markers st' = markers st
  /\ (showAddModal st = false -> showAddModal st' = false).
Proof.
  revert st. induction events as [|e events IH]; intros st Hrole Hcoords; simpl.
  - now repeat split.
  - destruct (step_of_visitor props st e Hrole Hcoords)
      as (Hsent & Hsame & Hnone & Hmarkers & Hmodal).
    destruct (step props st e) as [st1 done] eqn:Hstep. simpl in *.
    rewrite <- Hsame in Hrole.
    destruct (IH st1 Hrole Hnone) as (IHsent & IHnone & IHmarkers & IHmodal).
    destruct (steps props st1 events) as [st2 later]. simpl in *.
    rewrite requests_app, Hsent, IHsent, IHmarkers, Hmarkers.
    repeat split; auto.
Qed.

Lemma no_place_without_owner_witness :
  let press := WebViewMessage (Parsed (sampleMessage (lit "MAP_LONG_PRESS"))) in
  let events := [press; NameChanged (lit "Кафе"); AddPressed (Replied 201 (Parsed Null))] in
  requests (snd (steps sampleProps (sampleState (lit "user")) events)) = []
  /\ markers (fst (steps sampleProps (sampleState (lit "user")) events)) = [].
Proof.
  intros press events.
  destruct (no_place_without_owner sampleProps (sampleState (lit "user")) events
              eq_refl eq_refl) as (Hsent & _ & Hmarkers & _).
  now split.
Defined.

(** X11. A business owner adds a place. On a long press with coordinates
    that are present and nonzero, followed by a name and a description typed
    into the modal and by the add button, one request is sent that carries
    exactly that name, that description and the pressed coordinates; when
    the server answers with an ok status and a JSON body, that body is
    appended to the markers, and the modal is closed and emptied. *)
Theorem owner_adds_place (props : Props) (st : State) (data lat lon created : value)
  (name desc : jsstring) (status : N) :
  isString (userRole st) (lit "businessOwner") = true ->
  get data (lit "type") = Some (String (lit "MAP_LONG_PRESS")) ->
  get data (lit "latitude") = Some lat ->
  get data (lit "longitude") = Some lon ->
  truthy lat = true -> truthy lon = true ->
  ok status = true ->
  let events := [WebViewMessage (Parsed data); NameChanged name; DescChanged desc;
                 AddPressed (Replied status (Parsed created))] in
  let st' := fst (steps props st events) in
  List.map body (requests (snd (steps props st events)))
  = [Object [(lit "name", String name); (lit "desc", String desc);
             (lit "lat", lat); (lit "lon", lon)]]
  /\ markers st' = markers st ++ [created]
  /\ showAddModal st' = false
  /\ newPlaceCoords st' = None
  /\ newPlaceName st' = []
  /\ newPlaceDesc st' = [].
Proof.
  intros Hrole Htype Hlat Hlon Tlat Tlon Hok events st'. subst st' events.
  cbn [steps step]. unfold handleWebViewMessage.
  rewrite (handleMessage_long_press props st data lat lon Htype Hlat Hlon).
  rewrite Tlat, Tlon, Hrole. cbn [andb actionsOf List.map run fold_left apply].
  unfold handleAddMarker. cbn [newPlaceCoords]. rewrite Hok.
  cbn [fst snd app]. repeat split.
Qed.

Lemma owner_adds_place_witness :
  let press := WebViewMessage (Parsed (sampleMessage (lit "MAP_LONG_PRESS"))) in
  let events := [press; NameChanged (lit "Кафе"); DescChanged (lit "У парка");
                 AddPressed (Replied 201 (Parsed Null))] in
  markers (fst (steps sampleProps (sampleState (lit "businessOwner")) events))
  = [Null].
Proof.
  intros press events.
  destruct (owner_adds_place sampleProps (sampleState (lit "businessOwner"))
              (sampleMessage (lit "MAP_LONG_PRESS")) (Number 55.75) (Number 37.5)
              Null (lit "Кафе") (lit "У парка") 201
              eq_refl eq_refl eq_refl eq_refl eq_refl eq_refl eq_refl)
    as (_ & Hmarkers & _).
  exact Hmarkers.
Defined.

End AddPlaceFacts.

(** * The map screen *)

Section MapScreenFacts.
Import JS YandexMap MapScreen.

Lemma truthy_nonempty (s : jsstring) : JSString.truthy s = true <-> s <> [].
Proof. destruct s; simpl; split; congruence. Qed.

Lemma step_texts (st : State) (e : Event) (text : jsstring) :
  In text (textsSent (snd (step st e))) -> text <> [] /\ trim text = text.
Proof.
  destruct e as [coords address|query| | | | |[[query|]|query]|coords|]; simpl;
    try contradiction.
  - unfold performSearch.
    destruct (JSString.truthy (trim (searchQuery st))) eqn:Hq; simpl;
      [|contradiction].
    intros [<- | []]. split; [now apply truthy_nonempty | apply trim_idem].
  - destruct (JSString.truthy (trim query)) eqn:Hq; simpl; [|contradiction].
    intros [<- | []]. split; [now apply truthy_nonempty | apply trim_idem].
  - destruct (JSString.truthy (trim query)) eqn:Hq; simpl; [|contradiction].
    intros [<- | []]. split; [now apply truthy_nonempty | apply trim_idem].
  - unfold centerOnUser. simpl. destruct (hasCenteredInitial st); contradiction.
Qed.

Lemma textsSent_app (a b : list Call) : textsSent (a ++ b) = textsSent a ++ textsSent b.
Proof. unfold textsSent. apply flat_map_app. Qed.

(** X12. The map screen never sends a blank text to the map. Whatever
    happens on the screen, in any order, every text it passes to
    [searchAddress] or to [buildRoute] is non-empty and trimmed; so
    [searchAddress] injects a script for it whenever there is a [WebView]. *)
Theorem map_screen_sends_trimmed_text
  (st : State) (events : list Event) (text : jsstring) :
  In text (textsSent (snd (steps st events))) ->
  text <> [] /\ trim text = text
  /\ exists js, YandexMapHandle.searchAddress true text = [js].
Proof.
  intros Hin.
  assert (H : text <> [] /\ trim text = text).
  { revert st Hin. induction events as [|e events IH]; intros st; simpl;
      [contradiction|].
    pose proof (step_texts st e text) as Hstep.
    destruct (step st e) as [st1 done]. specialize (IH st1).
    destruct (steps st1 events) as [st2 later]. simpl in *.
    rewrite textsSent_app. intros [Hdone | Hlater]%in_app_or; auto. }
  destruct H as [Hne Htrim]. repeat split; [exact Hne | exact Htrim|].
  unfold YandexMapHandle.searchAddress. rewrite Htrim.
  destruct text; [contradiction|]. now eexists.
Qed.

Lemma map_screen_sends_trimmed_text_witness :
  let events := [QueryChanged (lit "  Донецк  "); SearchSubmitted;
                 External (Route (lit "   "))] in
  textsSent (snd (steps initial events)) = [lit "Донецк"]
  /\ trim (lit "Донецк") = lit "Донецк".
Proof.
  intros events. split; [reflexivity|].
  apply (map_screen_sends_trimmed_text initial events (lit "Донецк")).
  now left.
Defined.

Lemma moves_app (a b : list Call) : moves (a ++ b) = moves a ++ moves b.
Proof. unfold moves. apply flat_map_app. Qed.

Lemma moves_from (st : State) (events : list Event) :
  forallb (fun e => negb (pressesRecenter e)) events = true ->
  moves (snd (steps st events))
  = if hasCenteredInitial st then []
    else match firstFix events with Some coords => [coords] | None => [] end.
Proof.
  revert st. induction events as [|e events IH]; intros st Hno; simpl.
  - now destruct (hasCenteredInitial st).
  - simpl in Hno. apply andb_true_iff in Hno as [He Hno].
    specialize (fun st => IH st Hno).
    destruct e as [coords address|query| | | | |[[query|]|query]|coords|];
      try discriminate He; simpl;
      try (specialize (IH st);
           destruct (steps st events) as [st2 later]; exact IH).
    + specialize (IH (handleLocationSelect coords address st)).
      destruct (steps _ events) as [st2 later]. exact IH.
    + specialize (IH (setSearch query (searchActive st) st)).
      destruct (steps _ events) as [st2 later]. exact IH.
    + specialize (IH (setSearch [] (searchActive st) st)).
      destruct (steps _ events) as [st2 later]. exact IH.
    + specialize (IH (setSearch (searchQuery st) true st)).
      destruct (steps _ events) as [st2 later]. exact IH.
    + specialize (IH (setSearch (searchQuery st) false st)).
      destruct (steps _ events) as [st2 later]. exact IH.
    + unfold performSearch.
      destruct (JSString.truthy (trim (searchQuery st))); simpl;
        specialize (IH st); destruct (steps st events) as [st2 later]; exact IH.
    + destruct (JSString.truthy (trim query)); simpl.
      * specialize (IH (setSearch (trim query) false st)).
        destruct (steps _ events) as [st2 later]. exact IH.
      * specialize (IH (setSearch (searchQuery st) true st)).
        destruct (steps _ events) as [st2 later]. exact IH.
    + specialize (IH (setSearch (searchQuery st) true st)).
      destruct (steps _ events) as [st2 later]. exact IH.
    + destruct (JSString.truthy (trim query)); simpl.
      * specialize (IH (setSearch (trim query) false st)).
        destruct (steps _ events) as [st2 later]. exact IH.
      * specialize (IH st). destruct (steps st events) as [st2 later]. exact IH.
    + unfold centerOnUser, firstFix. simpl.
      destruct (hasCenteredInitial st) eqn:Hcentered; simpl.
      * match goal with
        | |- context [steps ?s events] =>
            specialize (IH s); destruct (steps s events) as [st2 later]
        end.
        simpl in *. now rewrite IH.
      * match goal with
        | |- context [steps ?s events] =>
            specialize (IH s); destruct (steps s events) as [st2 later]
        end.
        simpl in *. now rewrite IH.
Qed.

(** X13. The map is centred on the user once. As long as the recentre
    button is not pressed, the screen moves the map at most once, whatever
    else happens and however many positions arrive: to the first position
    of the user, and not at all while none has arrived. *)
Theorem map_centred_once (events : list Event) :
  forallb (fun e => negb (pressesRecenter e)) events = true ->
  moves (snd (steps initial events))
  = match firstFix events with Some coords => [coords] | None => [] end.
Proof. intros Hno. now rewrite moves_from. Qed.

Lemma map_centred_once_witness :
  let here := {| latitude := Number 48; longitude := Number 37.5 |} in
  let there := {| latitude := Number 55.75; longitude := Number 37.5 |} in
  moves (snd (steps initial [UserLocated here; QueryChanged (lit "парк");
                             UserLocated there]))
  = [here].
Proof.
  intros here there.
  exact (map_centred_once [UserLocated here; QueryChanged (lit "парк");
                           UserLocated there] eq_refl).
Defined.

Lemma handler_callback (props : Props) (st : YandexMap.State) (message : parsed) :
  callbackCalls (actionsOf (handleWebViewMessage props st message)) <> [] ->
  existsb touchesLocation (actionsOf (handleWebViewMessage props st message)) = true.
Proof.
  handler_paths props st message; simpl; intros H; try reflexivity;
    now contradiction H.
Qed.

(** X14. The map screen follows the map component. With the screen's
    [handleLocationSelect] as [onLocationSelect], a message that selects a
    location leaves the screen with the message's coordinates and with its
    address as it came, [undefined] when it had none, while the component
    itself holds the empty string for it; any other message leaves the
    screen as it was. *)
Theorem map_screen_follows_selection
  (props : Props) (st : YandexMap.State) (message : parsed) (screen : State) :
  hasOnLocationSelect props = true ->
  let actions := actionsOf (handleWebViewMessage props st message) in
  let screen' := deliver actions screen in
  (forall coords addr,
      selectsLocation message coords addr ->
      selectedLocation screen' = coords
      /\ selectedAddress screen' = addr
      /\ YandexMap.address (run st actions) = orElse addr (String []))
  /\ ((forall coords addr, ~ selectsLocation message coords addr) ->
      screen' = screen).
Proof.
  intros Hcallback actions screen'. split.
  - intros coords addr
      (name & data & Hin & -> & Htype & Hlat & Hlon & Haddr & Tlat & Tlon).
    subst screen' actions. unfold handleWebViewMessage.
    rewrite (handleMessage_location props st data name Hin Htype).
    rewrite (selectLocation_selected props data coords addr Hlat Hlon Haddr Tlat Tlon).
    rewrite Hcallback. now repeat split.
  - intros Hnone. subst screen'. unfold deliver.
    destruct (callbackCalls actions) as [|call calls] eqn:Hcalls; [reflexivity|].
    assert (Htouch : existsb touchesLocation actions = true).
    { apply handler_callback. fold actions. now rewrite Hcalls. }
    destruct (handler_touches_location props st message Htouch) as (coords & addr & H).
    now contradiction (Hnone coords addr).
Qed.

Lemma map_screen_follows_selection_witness :
  let message := Parsed (sampleMessage (lit "MAP_CLICK")) in
  let actions :=
    actionsOf (handleWebViewMessage sampleProps (sampleState (lit "user")) message) in
  selectedAddress (deliver actions initial) = Undefined
  /\ YandexMap.address (run (sampleState (lit "user")) actions) = String [].
Proof.
  intros message actions.
  destruct (map_screen_follows_selection sampleProps (sampleState (lit "user"))
              message initial eq_refl) as [Hselected _].
  destruct (Hselected {| latitude := Number 55.75; longitude := Number 37.5 |}
              Undefined) as (_ & Haddress & Hown).
  - exists (lit "MAP_CLICK"), (sampleMessage (lit "MAP_CLICK")).
    repeat split. now left.
  - split; [exact Haddress | exact Hown].
Defined.

(** X27. The recentre button. It moves the map to the user's position
    when one is known and to the current selection otherwise, and makes
    that the selection, while the address shown stays the one of the
    earlier selection; pressing it again does the same and changes nothing
    more; for coordinates that are numbers the script that reaches the page
    calls [window.moveToCoordinates] with the two numbers as JavaScript
    writes them. *)
Theorem recenter_target (st : State) :
  let outcome := handleRecenter st in
  let target := default (selectedLocation st) (userLocation st) in
  snd outcome = [MoveToCoordinates target]
  /\ selectedLocation (fst outcome) = target
  /\ selectedAddress (fst outcome) = selectedAddress st
  /\ handleRecenter (fst outcome) = outcome
  /\ (forall x y,
        target = {| latitude := Number x; longitude := Number y |} ->
        YandexMapHandle.moveToCoordinates true target
        = Some [YandexMapHandle.script
                  (lit "window.moveToCoordinates(" ++ JSNumber.toString x
                   ++ lit ", " ++ JSNumber.toString y ++ lit ");")]).
Proof.
  intros outcome target. subst outcome target. unfold handleRecenter.
  destruct (userLocation st) as [coords|] eqn:Hlocated; simpl;
    (repeat split; [now rewrite Hlocated | now intros x y ->]).
Qed.

(** X26. A route asked from outside. An external route action with a
    blank text does nothing; with any other text, the screen shows the
    trimmed text in its search field, closes the search, and asks the map for
    a route to it from the user's position; while no position is known, the
    script that reaches the page calls [window.buildRoute] with the text,
    its double quotes escaped, and [null, null]. *)
Theorem external_route_script (st : State) (query : jsstring) :
  let outcome := handleExternalAction (Route query) st in
  (trim query = [] -> outcome = (st, []))
  /\ (trim query <> [] ->
      snd outcome = [BuildRoute (trim query) (userLocation st)]
      /\ searchQuery (fst outcome) = trim query
      /\ searchActive (fst outcome) = false
      /\ selectedLocation (fst outcome) = selectedLocation st
      /\ (userLocation st = None ->
          YandexMapHandle.buildRoute true (trim query) None
          = Some [YandexMapHandle.script
                    (lit "window.buildRoute(" ++ YandexMapHandle.quote
                     ++ YandexMapHandle.escapeQuotes (trim query)
                     ++ YandexMapHandle.quote ++ lit ", null, null);")])).
Proof.
  intros outcome. subst outcome. unfold handleExternalAction. split.
  - now intros ->.
  - intros Hne. apply truthy_nonempty in Hne. rewrite Hne. simpl.
    repeat split. intros _. unfold YandexMapHandle.buildRoute.
    now rewrite trim_idem, Hne.
Qed.

End MapScreenFacts.

(** * The login screen that works without a server *)

Section LocalAuthFacts.
Import Auth LocalAuth.

Lemma orText_nonempty (a b : jsstring) : b <> [] -> orText a b <> [].
Proof. unfold orText. now destruct a. Qed.

Lemma orText_Forall (P : N -> Prop) (a b : jsstring) :
  Forall P a -> Forall P b -> Forall P (orText a b).
Proof. unfold orText. now destruct (truthy a). Qed.

Lemma nonBlank_trim (s : jsstring) : nonBlank s = true <-> trim s <> [].
Proof.
  unfold nonBlank. destruct (trim s); simpl; split; try congruence; try lia.
  - intros H. apply Nat.ltb_lt in H. lia.
  - intros _. now apply Nat.ltb_lt; lia.
Qed.

Lemma lowerChar_handle (c : N) :
  isHandleChar c = true -> isLowerHandleChar (lowerChar c) = true.
Proof.
  unfold isHandleChar. rewrite !orb_true_iff, !andb_true_iff, !N.leb_le, N.eqb_eq.
  intros [[[Hc | Hc] | Hc] | Hc]; unfold lowerChar; decide_tests;
    cbn [andb orb negb]; unfold isLowerHandleChar; decide_tests; reflexivity.
Qed.

Lemma digit_handle (c : N) : JSNumber.isDigit c = true -> isLowerHandleChar c = true.
Proof.
  unfold JSNumber.isDigit. rewrite andb_true_iff, !N.leb_le. intros Hc.
  unfold isLowerHandleChar. decide_tests. reflexivity.
Qed.

Lemma normalizedHandle_chars (f : Form) (now : Z) :
  0 <= now ->
  normalizedHandle f now <> []
  /\ Forall (fun c => isLowerHandleChar c = true) (normalizedHandle f now).
Proof.
  intros Hnow. unfold normalizedHandle. split.
  - apply orText_nonempty. discriminate.
  - apply orText_Forall.
    + unfold toLowerCase. rewrite List.Forall_map. apply List.Forall_forall.
      intros c [_ Hc]%filter_In. now apply lowerChar_handle.
    + apply Forall_app. split; [repeat constructor|].
      unfold integerText. destruct (Z.ltb_spec now 0) as [Hneg | _]; [lia|].
      simpl. eapply List.Forall_impl; [|apply decimal_digits].
      intros c Hc. now apply digit_handle.
Qed.

(** X15. The session made without a server. With a blank required field
    the handler shows one alert and does nothing else. Otherwise, unless the
    address cannot be encoded, it sets a session and moves to the profile,
    and in that session the name is never empty, the handle is never empty
    and consists of lower-case Latin letters, digits and underscores alone
    (as long as the clock is not before 1970), the address is the one typed,
    trimmed, and the account type is the one chosen. *)
Theorem local_session_well_formed
  (posts : list Post.t) (f : Form) (nowHandle nowId : Z) :
  let result := handleSubmit posts f nowHandle nowId in
  (canSubmit f = false ->
   exists title message,
     result = {| effects := [AlertShown title message]; threw := false |})
  /\ (canSubmit f = true -> threw result = false ->
      exists s,
        effects result = [KeyboardDismissed; SessionSet s; Replaced (lit "/profile")]
        /\ name s <> []
        /\ (0 <= nowHandle ->
            handle s <> []
            /\ Forall (fun c => isLowerHandleChar c = true) (handle s))
        /\ email s = trim (Auth.email f)
        /\ email s <> []
        /\ accountType s = Auth.accountType f).
Proof.
  intros result. subst result. unfold handleSubmit. split.
  - intros ->. now eexists _, _.
  - intros Hcan. rewrite Hcan. simpl negb. cbv iota.
    destruct (encodeURIComponent _) as [encoded|]; [|discriminate].
    intros _. eexists. split; [reflexivity|]. cbn [name handle email accountType].
    split; [apply orText_nonempty; discriminate|].
    split; [apply normalizedHandle_chars|].
    split; [reflexivity|]. split; [|reflexivity].
    unfold canSubmit in Hcan. apply andb_true_iff in Hcan as [Hcan _].
    apply andb_true_iff in Hcan as [Hemail _]. now apply nonBlank_trim.
Qed.

Example local_session_example :
  let f := {| mode := Login; Auth.email := lit " Анна.Smith_7@example.org ";
              password := lit "x"; Auth.name := []; companyName := [];
              companyINN := []; Auth.accountType := User |} in
  exists s,
    effects (handleSubmit [] f 0 0)
    = [KeyboardDismissed; SessionSet s; Replaced (lit "/profile")]
    /\ name s = lit "Анна.Smith_7" /\ handle s = lit "smith_7"
    /\ id s = lit "user-0".
Proof. eexists. repeat split. Qed.

End LocalAuthFacts.

(** * The login screen and the rest of the application *)

Section AccountFacts.
Import JS Auth Account.

Lemma nonBlank_blank (s : jsstring) : nonBlank s = false <-> blank s.
Proof.
  unfold blank. rewrite <- trim_blank. unfold nonBlank.
  destruct (trim s); cbn [length]; split; try reflexivity; discriminate.
Qed.

Lemma canSubmit_required (f : Form) :
  canSubmit f = false <-> Exists blank (required f).
Proof.
  unfold canSubmit, required. rewrite !andb_false_iff.
  destruct (isRegister f); simpl; rewrite !Exists_cons, Exists_nil,
    <- !nonBlank_blank.
  - destruct (isCompany f); tauto.
  - intuition congruence.
Qed.

(** X16. A submission needs every required field. If the address, the
    password or, on registration, the name (the company's name for a company)
    consists of white space only, the handler shows one alert, sends nothing
    to the server and leaves the stores, the session and the route as they
    were; otherwise it sends one request, with the address and the password
    trimmed, whatever the server then answers. *)
Theorem submission_needs_every_field (f : Form) (outcome : fetched) (w : World) :
  (Exists blank (required f) ->
   requests (handleSubmit f outcome) = []
   /\ (exists title message, handleSubmit f outcome = [Alert title message])
   /\ run w (handleSubmit f outcome) = w)
  /\ (~ Exists blank (required f) ->
      requests (handleSubmit f outcome) = [request f]
      /\ exists url fields,
           request f = Fetch url fields
           /\ In (lit "login", trim (email f)) fields
           /\ In (lit "passwd", trim (password f)) fields).
Proof.
  split.
  - intros Hblank%canSubmit_required. unfold handleSubmit. rewrite Hblank.
    split; [reflexivity|]. split; [now eexists _, _ | reflexivity].
  - intros Hfilled. assert (Hcan : canSubmit f = true).
    { destruct (canSubmit f) eqn:Hcan; [reflexivity|].
      now apply canSubmit_required in Hcan. }
    unfold handleSubmit. rewrite Hcan. split.
    + assert (Hrequest : exists url fields, request f = Fetch url fields).
      { unfold request. destruct (isRegister f); now eexists _, _. }
      destruct Hrequest as (url & fields & Hrequest).
      simpl. rewrite Hrequest. simpl. f_equal.
      destruct (afterFetch f outcome) as [effects|] eqn:Hafter; [|reflexivity].
      unfold afterFetch in Hafter.
      destruct outcome as [|[|] [|data]]; try discriminate Hafter.
      * destruct (buildSession f data); [|discriminate Hafter].
        destruct (get data (lit "token")) as [tokenValue|]; [|discriminate Hafter].
        cbn [mbind option_bind] in Hafter.
        destruct (toStringOrThrow tokenValue); [|discriminate Hafter].
        now injection Hafter as <-.
      * destruct (get data (lit "error")); [|discriminate Hafter].
        injection Hafter as <-. unfold refusalAlert. now destruct (isRegister f).
    + unfold request. destruct (isRegister f); eexists _, _;
        (split; [reflexivity|]); simpl; tauto.
Qed.

Lemma buildSession_inv (f : Form) (data : value) (s : UserSession) :
  buildSession f data = Some s ->
  exists user role username hasAt,
    get data (lit "user") = Some user
    /\ get user (lit "role") = Some role
    /\ get user (lit "username") = Some username
    /\ callIncludesAt username = Some hasAt
    /\ (if hasAt : bool then callSplitAtFirst username else Some username)
       = Some (handle s)
    /\ sessionName s = username
    /\ sessionAccountType s
       = (if isRegister f then accountType f
          else if isString role (lit "businessOwner") then Company else User).
Proof.
  unfold buildSession.
  destruct (get data (lit "user")) as [user|] eqn:Huser; [|discriminate].
  cbn [mbind option_bind].
  destruct (get user (lit "role")) as [role|] eqn:Hrole; [|discriminate].
  cbn [mbind option_bind].
  destruct (get user (lit "id")) as [idValue|]; [|discriminate].
  cbn [mbind option_bind].
  destruct (callToString idValue) as [idString|]; [|discriminate].
  cbn [mbind option_bind].
  destruct (get user (lit "username")) as [username|] eqn:Hname; [|discriminate].
  cbn [mbind option_bind].
  destruct (get user (lit "email")) as [userEmail|]; [|discriminate].
  cbn [mbind option_bind].
  destruct (callIncludesAt username) as [hasAt|] eqn:Hat; [|discriminate].
  cbn [mbind option_bind].
  destruct (if hasAt then callSplitAtFirst username else Some username)
    as [userHandle|] eqn:Hhandle; [|discriminate].
  cbn [mbind option_bind].
  destruct (toStringOrThrow userEmail) as [emailText|]; [|discriminate].
  cbn [mbind option_bind].
  destruct (encodeURIComponent emailText) as [encoded|]; [|discriminate].
  cbn [mbind option_bind]. intros [= <-].
  exists user, role, username, hasAt.
  exact (conj eq_refl (conj Hrole (conj Hname (conj Hat
           (conj Hhandle (conj eq_refl eq_refl)))))).
Qed.

Lemma beforeAt_prefix (u : jsstring) :
  ~ In 64%N (beforeAt u) /\ exists rest, u = beforeAt u ++ rest.
Proof.
  induction u as [|c u [IH1 [rest IH2]]]; simpl.
  - split; [tauto | now exists []].
  - destruct (N.eqb_spec c 64) as [-> | Hc].
    + split; [tauto | now eexists].
    + split; [intros [-> | Hin]; tauto|]. exists rest. simpl. now f_equal.
Qed.

Lemma beforeAt_without_at (u : jsstring) :
  includes u (lit "@") = false -> beforeAt u = u.
Proof.
  change (lit "@") with [64%N].
  induction u as [|c u IH]; [reflexivity|]. intros H.
  cbn [includes startsWith] in H. apply orb_false_iff in H as [Hc Hu].
  rewrite andb_true_r in Hc. apply N.eqb_neq in Hc.
  cbn [beforeAt]. destruct (N.eqb_spec c 64) as [-> | _]; [contradiction|].
  f_equal. now apply IH.
Qed.

(** X17. The handle of a session has no [@]. When the server's user has a
    string for [username] and the session is built, the handle is the part
    of the user name before its first [@], the whole name when it has none:
    a prefix of the name, free of [@]. *)
Theorem session_handle_before_at
  (f : Form) (data : value) (s : UserSession) (u : jsstring) :
  buildSession f data = Some s ->
  sessionName s = String u ->
  handle s = String (beforeAt u)
  /\ ~ In 64%N (beforeAt u)
  /\ exists rest, u = beforeAt u ++ rest.
Proof.
  intros (user & role & username & hasAt & _ & _ & _ & Hat & Hhandle & Hname & _)
    %buildSession_inv Hu.
  subst username. rewrite Hu in Hat, Hhandle. unfold callIncludesAt in Hat.
  injection Hat as Hat. subst hasAt. split; [|apply beforeAt_prefix].
  destruct (includes u (lit "@")) eqn:Hincl; unfold callSplitAtFirst in Hhandle.
  - now injection Hhandle as <-.
  - injection Hhandle as <-. now rewrite beforeAt_without_at.
Qed.

Lemma session_handle_before_at_witness :
  let data := Object [(lit "token", String (lit "t0k3n")); (lit "user", sampleUser)] in
  exists s, buildSession sampleForm data = Some s /\ handle s = String (lit "ann").
Proof.
  intros data.
  destruct (buildSession sampleForm data) as [s|] eqn:Hs;
    [|vm_compute in Hs; discriminate Hs].
  exists s. split; [reflexivity|].
  assert (Hname : sessionName s = String (lit "ann@example.org")).
  { vm_compute in Hs. now injection Hs as <-. }
  now destruct (session_handle_before_at sampleForm data s _ Hs Hname) as [-> _].
Defined.

(** X18. The role of a registration is a role of the schema. The request
    of a registration carries the role ['businessOwner'] for a company and
    the role ['user'] for every other account, and the role it carries is
    among the values of the column [role] of [users], an [ENUM], in each of
    the two scripts. *)
Theorem registration_role_in_schema (f : Form) :
  isRegister f = true ->
  exists role fields,
    request f = Fetch (lit "http://localhost:8443/auth/register") fields
    /\ lookupField (lit "role") (List.map (fun kv => (fst kv, String (snd kv))) fields)
       = String (lit role)
    /\ role = (if isCompany f then "businessOwner" else "user")%string
    /\ forall script,
         In script [Schema.init_sql; Schema.init_sql_with_reviews] ->
         exists users values,
           Schema.findTable script "users" = Some users
           /\ Schema.columnType <$> Schema.findColumn users "role"
              = Some (Schema.ENUM values)
           /\ In role values.
Proof.
  intros Hregister. unfold request. rewrite Hregister.
  destruct (isCompany f).
  - exists "businessOwner"%string. eexists. split; [reflexivity|].
    split; [reflexivity|]. split; [reflexivity|].
    intros script [<- | [<- | []]]; eexists _, _;
      (split; [reflexivity|]); (split; [reflexivity|]); simpl; tauto.
  - exists "user"%string. eexists. split; [reflexivity|].
    split; [reflexivity|]. split; [reflexivity|].
    intros script [<- | [<- | []]]; eexists _, _;
      (split; [reflexivity|]); (split; [reflexivity|]); simpl; tauto.
Qed.

Lemma registration_role_in_schema_witness :
  let f := {| mode := Register; email := lit "cafe@example.org";
              password := lit "secret"; name := []; companyName := lit "Кафе";
              companyINN := []; accountType := Company |} in
  exists role fields,
    request f = Fetch (lit "http://localhost:8443/auth/register") fields
    /\ lookupField (lit "role") (List.map (fun kv => (fst kv, String (snd kv))) fields)
       = String (lit role)
    /\ role = (if isCompany f then "businessOwner" else "user")%string
    /\ forall script,
         In script [Schema.init_sql; Schema.init_sql_with_reviews] ->
         exists users values,
           Schema.findTable script "users" = Some users
           /\ Schema.columnType <$> Schema.findColumn users "role"
              = Some (Schema.ENUM values)
           /\ In role values.
Proof. intros f. exact (registration_role_in_schema f eq_refl). Defined.

(** X19. Company accounts, and only they, add places. For a login whose
    server answer carries the role [role]: the session is a company's
    exactly when a map component that holds the same role, its modal closed,
    opens the modal for adding a place on a long press with coordinates that
    are present and nonzero. *)
Theorem company_accounts_add_places
  (f : Form) (data user role : value) (s : UserSession)
  (props : YandexMap.Props) (st : YandexMap.State) (press lat lon : value) :
  mode f = Login ->
  buildSession f data = Some s ->
  get data (lit "user") = Some user ->
  get user (lit "role") = Some role ->
  YandexMap.userRole st = role ->
  YandexMap.showAddModal st = false ->
  get press (lit "type") = Some (String (lit "MAP_LONG_PRESS")) ->
  get press (lit "latitude") = Some lat ->
  get press (lit "longitude") = Some lon ->
  truthy lat = true -> truthy lon = true ->
  let st' :=
    YandexMap.run st
      (YandexMap.actionsOf (YandexMap.handleWebViewMessage props st (Parsed press))) in
  sessionAccountType s = Company <-> YandexMap.showAddModal st' = true.
Proof.
  intros Hmode Hs Huser Hrole Hheld Hclosed Htype Hlat Hlon Tlat Tlon st'.
  apply buildSession_inv in Hs
    as (user' & role' & _ & _ & Huser' & Hrole' & _ & _ & _ & _ & Haccount).
  rewrite Huser in Huser'. injection Huser' as <-.
  rewrite Hrole in Hrole'. injection Hrole' as <-.
  unfold isRegister in Haccount. rewrite Hmode in Haccount. rewrite Haccount.
  subst st'. unfold YandexMap.handleWebViewMessage.
  rewrite (handleMessage_long_press props st press lat lon Htype Hlat Hlon).
  rewrite Tlat, Tlon, Hheld. cbn [andb].
  destruct (isString role (lit "businessOwner")); simpl.
  - tauto.
  - rewrite Hclosed. split; discriminate.
Qed.

Lemma company_accounts_add_places_witness :
  let data := Object [(lit "token", String (lit "t0k3n")); (lit "user", sampleUser)] in
  let st := YandexMap.sampleState (lit "businessOwner") in
  let press := YandexMap.sampleMessage (lit "MAP_LONG_PRESS") in
  exists s,
    buildSession sampleForm data = Some s
    /\ (sessionAccountType s = Company
        <-> YandexMap.showAddModal
              (YandexMap.run st
                 (YandexMap.actionsOf
                    (YandexMap.handleWebViewMessage YandexMap.sampleProps st
                       (Parsed press))))
            = true).
Proof.
  intros data st press.
  destruct (buildSession sampleForm data) as [s|] eqn:Hs;
    [|vm_compute in Hs; discriminate Hs].
  exists s. split; [reflexivity|].
  exact (company_accounts_add_places sampleForm data sampleUser
           (String (lit "businessOwner")) s YandexMap.sampleProps st press
           (Number 55.75) (Number 37.5)
           eq_refl Hs eq_refl eq_refl eq_refl eq_refl eq_refl eq_refl eq_refl
           eq_refl eq_refl).
Defined.

End AccountFacts.

(** * Numbers: what parsing and compact notation never give *)

Section NumberFacts.
Import JSNumber Content.

Lemma binary_round_aux_sign (s : bool) (mx ex : Z) (lx : location) :
  binary_round_aux prec emax false mx ex lx <> S754_nan ->
  binary_round_aux prec emax s mx ex lx <> S754_nan.
Proof.
  unfold binary_round_aux.
  destruct (shr_fexp prec emax mx ex lx) as [mrs' e'].
  destruct (shr_fexp prec emax _ e' loc_Exact) as [mrs'' e''].
  destruct (shr_m mrs'') as [|p|p]; [discriminate | | congruence].
  destruct (e'' <=? emax - prec); discriminate.
Qed.

Lemma binary_round_aux_not_nan (s : bool) (p : positive) (ex : Z) (lx : location) :
  binary_round_aux prec emax s (Z.pos p) ex lx <> S754_nan.
Proof.
  apply binary_round_aux_sign.
  assert (Hp : 0 <= Z.pos p < 2 ^ Z.pos (Pos.size p)).
  { split; [lia|]. rewrite <- Pos2Z.inj_pow. apply Pos2Z.pos_lt_pos, Pos.size_gt. }
  destruct (binary_round_aux_shape (Z.pos p) ex lx (Z.pos (Pos.size p)) Hp
              ltac:(lia)) as [-> | [(m & e & -> & _) | [-> _]]]; discriminate.
Qed.

Lemma isFinite_shape (x : float) :
  isFinite x = true ->
  (exists s, Prim2SF x = S754_zero s) \/ (exists s m e, Prim2SF x = S754_finite s m e).
Proof.
  unfold isFinite, PrimFloat.is_finite, PrimFloat.is_nan, PrimFloat.is_infinity.
  rewrite !FloatAxioms.eqb_spec, abs_spec.
  change (Prim2SF infinity) with (S754_infinity false).
  destruct (Prim2SF x) as [s|s| |s m e].
  - intros _. left. now exists s.
  - destruct s; discriminate.
  - discriminate.
  - intros _. right. now exists s, m, e.
Qed.

Lemma not_nan_shape (x : float) :
  Prim2SF x <> S754_nan -> PrimFloat.is_nan x = false.
Proof.
  intros Hx. unfold PrimFloat.is_nan. rewrite FloatAxioms.eqb_spec.
  destruct (Prim2SF x) as [s|s| |s m e]; unfold SFeqb.
  - reflexivity.
  - now destruct s.
  - contradiction.
  - now rewrite SFcompare_refl_finite.
Qed.

Lemma finite_product_not_nan (x c : float) (mc : positive) (ec : Z) :
  isFinite x = true -> Prim2SF c = S754_finite false mc ec ->
  PrimFloat.is_nan (x * c) = false.
Proof.
  intros Hx Hc. apply not_nan_shape. rewrite mul_spec, Hc.
  destruct (isFinite_shape x Hx) as [[s ->] | (s & m & e & ->)]; simpl.
  - discriminate.
  - apply binary_round_aux_not_nan.
Qed.

(** X20. A count read from a text is never NaN. Whatever the string,
    [parseNumericValue] returns a number that is not NaN: the parsed value
    times the multiplier when the text parses to a finite number (the product
    may overflow to an infinity), and zero otherwise. *)
Theorem parseNumericValue_text_not_nan (s : jsstring) :
  PrimFloat.is_nan (parseNumericValue (StrV s)) = false.
Proof.
  unfold parseNumericValue.
  set (str := replaceFirst _ _ _).
  assert (Hscaled : forall rest (c : float) (mc : positive) (ec : Z),
             Prim2SF c = S754_finite false mc ec ->
             PrimFloat.is_nan
               (if isFinite (parseFloat rest) then (parseFloat rest * c)%float
                else 0%float) = false).
  { intros rest c mc ec Hc. destruct (isFinite (parseFloat rest)) eqn:Hfinite.
    - now apply (finite_product_not_nan _ c mc ec).
    - reflexivity. }
  destruct (includes str mln); [now eapply Hscaled|].
  destruct (includes str tys); [now eapply Hscaled|].
  destruct (endsWith str (lit "k")); now eapply Hscaled.
Qed.

Example parseNumericValue_overflows :
  parseNumericValue (StrV (lit "1e308 млн")) = infinity
  /\ parseNumericValue (StrV (lit "Infinity")) = 0%float
  /\ parseNumericValue (StrV (lit "1,5,5 тыс")) = 1500%float.
Proof. repeat split. Qed.

Lemma positive_shape (v : float) :
  (0 <? v)%float = true ->
  (exists m e, Prim2SF v = S754_finite false m e) \/ Prim2SF v = S754_infinity false.
Proof.
  rewrite ltb_spec. change (Prim2SF 0) with (S754_zero false).
  destruct (Prim2SF v) as [s|[|]| |[|] m e]; simpl; try discriminate; eauto.
Qed.

Lemma abs_opp (v : float) : PrimFloat.abs (- v) = PrimFloat.abs v.
Proof.
  apply Prim2SF_inj. rewrite !abs_spec, opp_spec.
  now destruct (Prim2SF v).
Qed.

Lemma positive_signs (v : float) :
  (0 <? v)%float = true -> (v <? 0)%float = false /\ (- v <? 0)%float = true.
Proof.
  intros Hv. rewrite !ltb_spec, opp_spec. change (Prim2SF 0) with (S754_zero false).
  destruct (positive_shape v Hv) as [(m & e & ->) | ->]; now split.
Qed.

Lemma formatRu_opp (v : float) (m : positive) (e : Z) :
  Prim2SF v = S754_finite false m e ->
  formatRu (- v) = lit "-" ++ formatRu v.
Proof.
  intros Hv. unfold formatRu, exact. rewrite abs_opp, opp_spec, Hv.
  cbn [SFopp negb]. change (Z.pos m =? 0) with false. cbv iota.
  now destruct (shortestDigits _ _ _ _ _ _) as [[s k] n].
Qed.

(** X21. A negative count is the positive one with a minus in front: for
    every number [v] above zero, infinite or not, [formatCompactNumber(-v)]
    is ['-'] followed by [formatCompactNumber(v)]. *)
Theorem formatCompactNumber_opp (v : float) :
  (0 <? v)%float = true ->
  formatCompactNumber (- v) = lit "-" ++ formatCompactNumber v.
Proof.
  intros Hv. destruct (positive_signs v Hv) as [Hpos Hneg].
  unfold formatCompactNumber. rewrite abs_opp, Hpos, Hneg.
  destruct (1000000 <=? PrimFloat.abs v)%float; [reflexivity|].
  destruct (1000 <=? PrimFloat.abs v)%float eqn:Hthousand; [reflexivity|].
  destruct (positive_shape v Hv) as [(m & e & Hshape) | Hshape].
  - now apply (formatRu_opp v m e).
  - exfalso. revert Hthousand. rewrite leb_spec, abs_spec, Hshape. discriminate.
Qed.

Lemma formatCompactNumber_opp_witness :
  formatCompactNumber (PrimFloat.opp 1500) = lit "-1,5 тыс"
  /\ formatCompactNumber (PrimFloat.opp 12.5) = lit "-12,5".
Proof.
  split.
  - now rewrite (formatCompactNumber_opp 1500 eq_refl).
  - now rewrite (formatCompactNumber_opp 12.5 eq_refl).
Defined.

End NumberFacts.

(** * The map component's first effect *)

Section MapSessionFacts.
Import JS YandexMap MapSession.

(** X22. Where the map's token and role come from. The effect that runs
    when the map mounts sets the token exactly when [AsyncStorage] holds a
    non-empty one under ['token'], and then sends one request to [/me] with
    that token as bearer; it sets the role exactly when, in addition, the
    answer is ok and is a JSON value (with whatever that value has under
    [role]); with no token it does nothing at all. *)
Theorem role_comes_from_me (s : Device.Stores) (outcome : Auth.fetched) :
  let actions := loadTokenAndRole s outcome in
  (forall t, In (SetToken t) actions
             <-> Device.asyncGetItem (lit "token") s = Some t /\ t <> [])
  /\ (forall t, Device.asyncGetItem (lit "token") s = Some t -> t <> [] ->
                authorizations actions = [lit "Bearer " ++ t])
  /\ (forall role,
        In (SetUserRole role) actions
        <-> exists t data,
              Device.asyncGetItem (lit "token") s = Some t /\ t <> []
              /\ outcome = Auth.Response true (Parsed data)
              /\ get data (lit "role") = Some role)
  /\ ((forall t, Device.asyncGetItem (lit "token") s = Some t -> t = []) ->
      actions = []).
Proof.
  intros actions. subst actions. unfold loadTokenAndRole.
  destruct (Device.asyncGetItem (lit "token") s) as [[|c t]|] eqn:Htoken; simpl.
  - split; [|split; [|split]].
    + intros t. split; [contradiction | now intros [[= <-] Hne]].
    + now intros t [= <-].
    + intros role. split; [contradiction|].
      now intros (t & data & [= <-] & Hne & _).
    + reflexivity.
  - split; [|split; [|split]].
    + intros t'. split.
      * intros H.
        destruct outcome as [|[|] [|data]]; simpl in H;
          try destruct (get data (lit "role")); simpl in H;
          repeat (destruct H as [H | H]; try discriminate H; try contradiction);
          injection H as <-; (split; [reflexivity | discriminate]).
      * intros [[= <-] _]. now left.
    + intros t' [= <-] _. unfold authorizations. simpl.
      destruct outcome as [|[|] [|data]]; simpl; try reflexivity.
      now destruct (get data (lit "role")).
    + intros role. split.
      * intros H.
        destruct outcome as [|[|] [|data]]; simpl in H;
          try destruct (get data (lit "role")) as [role'|] eqn:Hrole; simpl in H;
          repeat (destruct H as [H | H]; try discriminate H; try contradiction).
        injection H as <-. exists (c :: t), data. now repeat split.
      * intros (t' & data & [= <-] & _ & -> & Hrole). right. right.
        simpl. rewrite Hrole. now left.
    + intros Hempty. now specialize (Hempty (c :: t) eq_refl).
  - split; [|split; [|split]].
    + intros t. split; [contradiction | now intros [[=] _]].
    + now intros t [=].
    + intros role. split; [contradiction|]. now intros (t & data & [=] & _).
    + reflexivity.
Qed.

End MapSessionFacts.

(** * Running the initialization scripts *)

Section DdlFacts.
Import Schema Ddl.

Lemma find_app_found {A : Type} (f : A -> bool) (l l' : list A) (x : A) :
  List.find f l = Some x -> List.find f (l ++ l') = Some x.
Proof.
  induction l as [|y l IH]; simpl; [discriminate|]. now destruct (f y).
Qed.

Lemma execute_keeps_table (s : Statement) (cat cat' : Catalog)
  (name : string) (t : Table) :
  execute s cat = Some cat' -> lookupTable cat name = Some t ->
  lookupTable cat' name = Some t.
Proof.
  intros Hexec Ht. destruct s as [t0|index table col]; simpl in Hexec.
  - destruct (lookupTable cat (tableName t0)); [now injection Hexec as <-|].
    destruct (forallb _ _); [|discriminate]. injection Hexec as <-.
    unfold lookupTable in *. simpl. now apply find_app_found.
  - destruct (lookupTable cat table); [|discriminate].
    destruct (_ && _); [|discriminate]. now injection Hexec as <-.
Qed.

Lemma run_keeps_table (script : list Statement) (cat cat' : Catalog)
  (name : string) (t : Table) :
  run script cat = Some cat' -> lookupTable cat name = Some t ->
  lookupTable cat' name = Some t.
Proof.
  revert cat. induction script as [|s script IH]; intros cat; simpl.
  - now intros [= <-].
  - destruct (execute s cat) as [cat1|] eqn:Hexec; [|discriminate]. simpl.
    intros Hrun Ht. apply (IH cat1 Hrun). now apply (execute_keeps_table s cat).
Qed.

(** X23. The scripts do not migrate. A table that a database already has
    is left as it is by either script, whatever it looks like; so on a
    database where [users] and [places] exist, as [init.sql] makes them, the
    script that declares the reviews changes neither, and [places] gets no
    [lat] and no [lon] from it. *)
Theorem scripts_keep_existing_tables
  (cat cat' : Catalog) (name : string) (t : Table) :
  lookupTable cat name = Some t ->
  (run init_sql cat = Some cat' -> lookupTable cat' name = Some t)
  /\ (run init_sql_with_reviews cat = Some cat' -> lookupTable cat' name = Some t).
Proof.
  intros Ht. split; intros Hrun.
  - exact (run_keeps_table init_sql cat cat' name t Hrun Ht).
  - exact (run_keeps_table init_sql_with_reviews cat cat' name t Hrun Ht).
Qed.

Lemma scripts_keep_existing_tables_witness :
  exists first second places,
    run init_sql empty = Some first
    /\ run init_sql_with_reviews first = Some second
    /\ lookupTable second "places" = Some places
    /\ findTable init_sql "places" = Some places
    /\ hasColumn places "lat" = false.
Proof.
  destruct (run init_sql empty) as [first|] eqn:Hfirst;
    [|vm_compute in Hfirst; discriminate Hfirst].
  destruct (run init_sql_with_reviews first) as [second|] eqn:Hsecond;
    [|vm_compute in Hfirst; injection Hfirst as <-; vm_compute in Hsecond;
      discriminate Hsecond].
  destruct (findTable init_sql "places") as [places|] eqn:Hplaces;
    [|discriminate Hplaces].
  exists first, second, places.
  split; [reflexivity|]. split; [exact Hsecond|]. split; [|split; [reflexivity|]].
  - apply (scripts_keep_existing_tables first second "places" places);
      [|exact Hsecond].
    vm_compute in Hfirst. injection Hfirst as <-.
    vm_compute in Hplaces. now injection Hplaces as <-.
  - vm_compute in Hplaces. now injection Hplaces as <-.
Defined.

Lemma find_app_missing {A : Type} (f : A -> bool) (l l' : list A) :
  List.find f l = None -> List.find f (l ++ l') = List.find f l'.
Proof.
  induction l as [|y l IH]; simpl; [reflexivity|]. now destruct (f y).
Qed.

Lemma execute_keeps_index (s : Statement) (cat cat' : Catalog) (table name : string) :
  execute s cat = Some cat' -> hasIndex cat table name = true ->
  hasIndex cat' table name = true.
Proof.
  intros Hexec Hindex. destruct s as [t0|index table0 col]; simpl in Hexec.
  - destruct (lookupTable cat (tableName t0)); [now injection Hexec as <-|].
    destruct (forallb _ _); [|discriminate]. now injection Hexec as <-.
  - destruct (lookupTable cat table0); [|discriminate].
    destruct (_ && _); [|discriminate]. injection Hexec as <-.
    unfold hasIndex in *. simpl. rewrite existsb_app, Hindex. reflexivity.
Qed.

Lemma run_keeps_index (script : list Statement) (cat cat' : Catalog)
  (table name : string) :
  run script cat = Some cat' -> hasIndex cat table name = true ->
  hasIndex cat' table name = true.
Proof.
  revert cat. induction script as [|s script IH]; intros cat; simpl.
  - now intros [= <-].
  - destruct (execute s cat) as [cat1|] eqn:Hexec; [|discriminate]. simpl.
    intros Hrun Hindex. apply (IH cat1 Hrun).
    now apply (execute_keeps_index s cat).
Qed.

(** What a script that ran has made sure of: each of its tables exists,
    and each of its indexes. *)
Lemma run_creates (script : list Statement) (cat cat' : Catalog) :
  run script cat = Some cat' ->
  (forall t, In (CreateTableIfNotExists t) script ->
             exists t', lookupTable cat' (tableName t) = Some t')
  /\ (forall name table col, In (CreateIndex name table col) script ->
                             hasIndex cat' table name = true).
Proof.
  revert cat. induction script as [|s script IH]; intros cat; simpl.
  - intros _. split; intros; contradiction.
  - destruct (execute s cat) as [cat1|] eqn:Hexec; [|discriminate]. simpl.
    intros Hrun. destruct (IH cat1 Hrun) as [IHtables IHindexes]. split.
    + intros t [-> | Hin]; [|now apply IHtables].
      simpl in Hexec.
      destruct (lookupTable cat (tableName t)) as [t'|] eqn:Hfound.
      * injection Hexec as <-. exists t'. now apply (run_keeps_table script cat).
      * destruct (forallb _ _); [|discriminate]. injection Hexec as <-.
        exists t. apply (run_keeps_table script _ cat' _ t Hrun).
        unfold lookupTable in *. simpl. rewrite find_app_missing by exact Hfound.
        simpl. now rewrite String.eqb_refl.
    + intros name table col [-> | Hin]; [|now apply (IHindexes name table col)].
      simpl in Hexec. destruct (lookupTable cat table); [|discriminate].
      destruct (_ && _); [|discriminate]. injection Hexec as <-.
      apply (run_keeps_index script _ cat' table name Hrun).
      unfold hasIndex. simpl. rewrite existsb_app. simpl.
      rewrite !String.eqb_refl. apply orb_true_r.
Qed.

Lemma rerun_tables (script : list Statement) (cat : Catalog) :
  (forall t, In (CreateTableIfNotExists t) script ->
             exists t', lookupTable cat (tableName t) = Some t') ->
  (forall s, In s script -> exists t, s = CreateTableIfNotExists t) ->
  run script cat = Some cat.
Proof.
  induction script as [|s script IH]; intros Htables Honly; [reflexivity|].
  destruct (Honly s ltac:(now left)) as [t ->]. simpl.
  destruct (Htables t ltac:(now left)) as [t' ->]. simpl.
  apply IH; intros; [apply Htables | apply Honly]; now right.
Qed.

Lemma rerun_indexes (script : list Statement) (cat : Catalog) :
  (forall t, In (CreateTableIfNotExists t) script ->
             exists t', lookupTable cat (tableName t) = Some t') ->
  (forall name table col, In (CreateIndex name table col) script ->
                          hasIndex cat table name = true) ->
  (exists name table col, In (CreateIndex name table col) script) ->
  run script cat = None.
Proof.
  induction script as [|s script IH]; intros Htables Hindexes (name & table & col & Hin);
    [contradiction|].
  destruct s as [t|name0 table0 col0]; simpl.
  - destruct (Htables t ltac:(now left)) as [t' ->]. simpl.
    apply IH.
    + intros; apply Htables; now right.
    + intros; eapply Hindexes; right; eassumption.
    + destruct Hin as [Hin | Hin]; [discriminate Hin|]. now exists name, table, col.
  - rewrite (Hindexes name0 table0 col0 ltac:(now left)).
    destruct (lookupTable cat table0); [|reflexivity].
    now rewrite andb_false_r.
Qed.

(** X24. Which script can run twice. Each script runs on an empty
    database. [init.sql], which only creates tables that do not exist yet,
    can be run again on the database it has run on, whatever that was
    before, and changes nothing then; the script that declares the reviews
    cannot: its indexes are created without such a guard, so on a database it
    has run on it always ends in an error. *)
Theorem scripts_run_again :
  (exists cat, run init_sql empty = Some cat)
  /\ (exists cat, run init_sql_with_reviews empty = Some cat)
  /\ (forall cat cat', run init_sql cat = Some cat' -> run init_sql cat' = Some cat')
  /\ (forall cat cat',
        run init_sql_with_reviews cat = Some cat' ->
        run init_sql_with_reviews cat' = None).
Proof.
  split; [now eexists|]. split; [now eexists|]. split.
  - intros cat cat' Hrun. destruct (run_creates init_sql cat cat' Hrun) as [Htables _].
    apply rerun_tables; [exact Htables|].
    intros s [<- | [<- | []]]; now eexists.
  - intros cat cat' Hrun.
    destruct (run_creates init_sql_with_reviews cat cat' Hrun) as [Htables Hindexes].
    apply rerun_indexes; [exact Htables | exact Hindexes|].
    eexists _, _, _. unfold init_sql_with_reviews. simpl. eauto 6.
Qed.

End DdlFacts.

(** * The profile screen *)

Section ProfileFacts.
Import JSNumber Content Profile.

Lemma filter_length_all {A : Type} (f : A -> bool) (l : list A) :
  length (List.filter f l) = length l <-> Forall (fun x => f x = true) l.
Proof.
  induction l as [|x l IH]; simpl; [split; [constructor | reflexivity]|].
  pose proof (List.filter_length_le f l) as Hle.
  destruct (f x) eqn:Hx; simpl.
  - split.
    + intros [= H]. constructor; [exact Hx | now apply IH].
    + inversion 1; subst. f_equal. now apply IH.
  - split; [lia|]. inversion 1; congruence.
Qed.

(** X25. The uid of a company's post on the profile. A post of the
    session's handle appears among the company's posts at the position it
    has among them, and its uid there is its id with that position, not with
    its position among all posts: the profile and the search screen give the
    post the same uid exactly when every post before it is the company's
    too. A session that is not a company's has no company posts. *)
Theorem company_post_uid
  (sessionHandle : JS.value) (posts : list Post.t) (i : nat) (post : Post.t) :
  posts !! i = Some post ->
  own sessionHandle post = true ->
  let k := length (List.filter (own sessionHandle) (take i posts)) in
  companyPosts true sessionHandle posts !! k = Some (normalizePost post k)
  /\ normalizePosts posts !! i = Some (normalizePost post i)
  /\ (NormalizedPost.uid (normalizePost post k) = NormalizedPost.uid (normalizePost post i)
      <-> Forall (fun p => own sessionHandle p = true) (take i posts))
  /\ companyPosts false sessionHandle posts = [].
Proof.
  intros Hpost Hown k. split; [|split; [|split; [|reflexivity]]].
  - unfold companyPosts. rewrite normalizeFrom_lookup. simpl.
    rewrite <- (take_drop_middle posts i post Hpost) at 1.
    rewrite List.filter_app. simpl. rewrite Hown.
    rewrite lookup_app_r by (subst k; lia).
    replace (k - length (List.filter (own sessionHandle) (take i posts)))%nat
      with 0%nat by (subst k; lia).
    reflexivity.
  - unfold normalizePosts. rewrite normalizeFrom_lookup, Hpost. reflexivity.
  - simpl. rewrite <- filter_length_all. fold k.
    assert (Hlen : length (take i posts) = i).
    { apply length_take_le. apply lookup_lt_Some in Hpost. lia. }
    rewrite Hlen. split.
    + intros Huid. apply app_inv_head in Huid. injection Huid as Huid.
      apply decimal_inj in Huid. lia.
    + now intros ->.
Qed.

Lemma company_post_uid_witness :
  let by_handle handle post_id :=
    {| Post.id := post_id; Post.user := []; Post.userAvatar := [];
       Post.userHandle := handle; Post.place := []; Post.address := [];
       Post.image := []; Post.gallery := []; Post.likes := NumV 0;
       Post.totalLikes := NumV 0; Post.followers := NumV 0; Post.rating := 0;
       Post.tags := []; Post.bio := []; Post.workingHours := [];
       Post.reviews := []; Post.contact := [] |} in
  let posts := [by_handle (lit "park") (lit "a"); by_handle (lit "cafe") (lit "b")] in
  companyPosts true (JS.String (lit "cafe")) posts !! 0%nat
  = Some (normalizePost (by_handle (lit "cafe") (lit "b")) 0)
  /\ normalizePosts posts !! 1%nat
     = Some (normalizePost (by_handle (lit "cafe") (lit "b")) 1).
Proof.
  intros by_handle posts.
  destruct (company_post_uid (JS.String (lit "cafe")) posts 1
              (by_handle (lit "cafe") (lit "b")) eq_refl eq_refl)
    as (Hprofile & Hsearch & _).
  split; [exact Hprofile | exact Hsearch].
Defined.

End ProfileFacts.

(** * Doubles that are integers, and the round trip of a compact number *)

(** ** Exact rounding *)

Section ExactFacts.
Import JSNumber.

Lemma size_log2 (p : positive) : Z.pos (Pos.size p) = Z.log2 (Z.pos p) + 1.
Proof. destruct p; simpl; lia. Qed.

Lemma Zdigits2_log2 (m : Z) : 0 < m -> Zdigits2 m = Z.log2 m + 1.
Proof.
  destruct m as [|p|p]; try lia. intros _. simpl. now rewrite digits2_size, size_log2.
Qed.

Lemma Zdigits2_shift (m k : Z) :
  0 < m -> 0 <= k -> Zdigits2 (m * 2 ^ k) = Zdigits2 m + k.
Proof.
  intros Hm Hk.
  assert (0 < 2 ^ k) by (apply Z.pow_pos_nonneg; lia).
  rewrite !Zdigits2_log2 by nia. rewrite Z.log2_mul_pow2 by lia. lia.
Qed.

Lemma shr_1_exact (m : Z) :
  0 <= m ->
  shr_1 {| shr_m := 2 * m; shr_r := false; shr_s := false |}
  = {| shr_m := m; shr_r := false; shr_s := false |}.
Proof. destruct m as [|p|p]; try lia; reflexivity. Qed.

Lemma iter_pos_exact (n : positive) (m : Z) :
  0 <= m ->
  SpecFloat.iter_pos shr_1 n {| shr_m := m * 2 ^ Z.pos n; shr_r := false; shr_s := false |}
  = {| shr_m := m; shr_r := false; shr_s := false |}.
Proof.
  revert m. induction n as [n IH|n IH|]; intros m Hm; cbn [SpecFloat.iter_pos].
  - assert (Hp : 0 < 2 ^ Z.pos n) by (apply Z.pow_pos_nonneg; lia).
    replace (m * 2 ^ Z.pos n~1) with (2 * (m * 2 ^ Z.pos n * 2 ^ Z.pos n)).
    + rewrite shr_1_exact by nia. rewrite IH by nia. now apply IH.
    + rewrite (Pos2Z.inj_xI n), Z.pow_add_r, Z.pow_mul_r by lia.
      change (2 ^ 2) with 4. change (2 ^ 1) with 2.
      replace 4 with (2 * 2) by lia. rewrite Z.pow_mul_l. ring.
  - assert (Hp : 0 < 2 ^ Z.pos n) by (apply Z.pow_pos_nonneg; lia).
    replace (m * 2 ^ Z.pos n~0) with (m * 2 ^ Z.pos n * 2 ^ Z.pos n).
    + rewrite IH by nia. now apply IH.
    + rewrite (Pos2Z.inj_xO n), Z.pow_mul_r by lia.
      change (2 ^ 2) with 4. replace 4 with (2 * 2) by lia. rewrite Z.pow_mul_l. ring.
  - change (2 ^ 1) with 2. rewrite Z.mul_comm. now apply shr_1_exact.
Qed.

(** Rounding a value that is a double gives that double. *)
Lemma round_exact (s : bool) (mx ex : Z) (M : positive) (E : Z) :
  bounded prec emax M E = true -> ex <= E -> mx = Z.pos M * 2 ^ (E - ex) ->
  binary_round_aux prec emax s mx ex loc_Exact = S754_finite s M E.
Proof.
  intros Hb Hex Hmx. unfold bounded, canonical_mantissa in Hb.
  apply andb_true_iff in Hb as [Hcanon Hle]. apply Z.eqb_eq in Hcanon.
  assert (Hd : Zdigits2 mx + ex = Z.pos (digits2_pos M) + E).
  { rewrite Hmx, Zdigits2_shift by lia. simpl Zdigits2. lia. }
  unfold binary_round_aux, shr_fexp. rewrite Hd, Hcanon.
  assert (Hfirst : shr (shr_record_of_loc mx loc_Exact) ex (E - ex)
                   = ({| shr_m := Z.pos M; shr_r := false; shr_s := false |}, E)).
  { unfold shr. destruct (E - ex) as [|n|n] eqn:Hn; try lia.
    - rewrite Hmx. change (2 ^ 0) with 1. rewrite Z.mul_1_r. simpl. f_equal. lia.
    - rewrite Hmx. simpl shr_record_of_loc. rewrite iter_pos_exact by lia.
      f_equal. lia. }
  rewrite Hfirst. cbn [shr_m loc_of_shr_record round_nearest_even].
  simpl Zdigits2. rewrite Hcanon, Z.sub_diag. cbn [shr shr_record_of_loc shr_m].
  now rewrite Hle.
Qed.

(** The weight of a mantissa of [d] digits. *)
Lemma digits_bounds (m : positive) :
  2 ^ (Z.pos (digits2_pos m) - 1) <= Z.pos m < 2 ^ Z.pos (digits2_pos m).
Proof.
  rewrite digits2_size, size_log2.
  replace (Z.log2 (Z.pos m) + 1 - 1) with (Z.log2 (Z.pos m)) by lia.
  pose proof (Z.log2_spec (Z.pos m) ltac:(lia)) as H.
  replace (Z.log2 (Z.pos m) + 1) with (Z.succ (Z.log2 (Z.pos m))) by lia. lia.
Qed.

Lemma pow2_lt_inv (a b : Z) : 0 <= b -> 2 ^ a < 2 ^ b -> a < b.
Proof.
  intros Hb H. destruct (Z.lt_ge_cases a b) as [Hlt | Hge]; [exact Hlt|].
  assert (2 ^ b <= 2 ^ a) by (apply Z.pow_le_mono_r; lia). lia.
Qed.


Lemma pow2_pos (k : Z) : 0 < 2 ^ k \/ k < 0.
Proof.
  destruct (Z.le_gt_cases 0 k); [left; now apply Z.pow_pos_nonneg | now right].
Qed.

Lemma valid_exponent (m : positive) (e : Z) :
  bounded prec emax m e = true -> -1074 <= e <= 971.
Proof.
  unfold bounded, canonical_mantissa, fexp. intros H.
  apply andb_true_iff in H as [Hc Hle]. apply Z.eqb_eq in Hc. apply Z.leb_le in Hle.
  change (SpecFloat.emin prec emax) with (-1074) in Hc. change (emax - prec) with 971 in Hle.
  lia.
Qed.

Lemma valid_canonical (m : positive) (e : Z) :
  bounded prec emax m e = true -> fexp prec emax (Z.pos (digits2_pos m) + e) = e.
Proof.
  unfold bounded, canonical_mantissa. intros H.
  apply andb_true_iff in H as [Hc _]. now apply Z.eqb_eq in Hc.
Qed.

(** The division of two mantissas whose quotient is a double is exact. *)
Lemma div_core_exact (m1 m2 M : positive) (e1 e2 E : Z) :
  fexp prec emax (Z.pos (digits2_pos M) + E) = E ->
  -1074 <= e1 -> -1074 <= e2 -> -1074 <= E ->
  ulps (Z.pos M) E * ulps (Z.pos m2) e2 = ulps (Z.pos m1) e1 * 2 ^ 1074 ->
  exists e',
    SFdiv_core_binary prec emax (Z.pos m1) e1 (Z.pos m2) e2
    = (Z.pos M * 2 ^ (E - e'), e', loc_Exact)
    /\ e' <= E.
Proof.
  intros Hcanon He1 He2 HE Hval. unfold ulps in Hval.
  unfold SFdiv_core_binary. simpl Zdigits2.
  set (d1 := Z.pos (digits2_pos m1)). set (d2 := Z.pos (digits2_pos m2)).
  set (dM := Z.pos (digits2_pos M)) in *.
  set (x := d1 + e1 - (d2 + e2)).
  set (e' := Z.min (fexp prec emax x) (e1 - e2)).
  set (s := e1 - e2 - e').
  pose proof (digits_bounds m1) as B1. pose proof (digits_bounds m2) as B2.
  pose proof (digits_bounds M) as BM. fold d1 in B1. fold d2 in B2. fold dM in BM.
  assert (Hd1 : 0 < d1) by (subst d1; lia).
  assert (Hd2 : 0 < d2) by (subst d2; lia).
  assert (HdM : 0 < dM) by (subst dM; lia).
  assert (Hmag : x <= dM + E).
  { assert (Hlt : 2 ^ (d1 - 1 + (e1 + 1074) + 1074) < 2 ^ (dM + d2 + (E + 1074) + (e2 + 1074))).
    { rewrite (Z.pow_add_r 2 (d1 - 1 + (e1 + 1074)) 1074),
        (Z.pow_add_r 2 (d1 - 1) (e1 + 1074)),
        (Z.pow_add_r 2 (dM + d2 + (E + 1074)) (e2 + 1074)),
        (Z.pow_add_r 2 (dM + d2) (E + 1074)), (Z.pow_add_r 2 dM d2) by lia.
      assert (0 < 2 ^ (e1 + 1074)) by (apply Z.pow_pos_nonneg; lia).
      assert (0 < 2 ^ (e2 + 1074)) by (apply Z.pow_pos_nonneg; lia).
      assert (0 < 2 ^ (E + 1074)) by (apply Z.pow_pos_nonneg; lia).
      assert (0 < 2 ^ 1074) by (apply Z.pow_pos_nonneg; lia).
      assert (0 < 2 ^ (d1 - 1)) by (apply Z.pow_pos_nonneg; lia).
      apply Z.le_lt_trans with (Z.pos m1 * 2 ^ (e1 + 1074) * 2 ^ 1074).
      - apply Z.mul_le_mono_nonneg_r; [lia|].
        apply Z.mul_le_mono_nonneg_r; lia.
      - rewrite <- Hval.
        replace (2 ^ dM * 2 ^ d2 * 2 ^ (E + 1074) * 2 ^ (e2 + 1074))
          with (2 ^ dM * 2 ^ (E + 1074) * (2 ^ d2 * 2 ^ (e2 + 1074))) by ring.
        apply Z.mul_lt_mono_nonneg; try nia. }
    apply pow2_lt_inv in Hlt; [|lia]. subst x. lia. }
  assert (He' : e' <= E).
  { pose proof (fexp_mono x (dM + E) Hmag). subst e'. lia. }
  assert (Hs : 0 <= s) by (subst s e'; lia).
  assert (Hlow : -2148 <= e' + e2).
  { subst e'. unfold fexp. change (SpecFloat.emin prec emax) with (-1074). lia. }
  set (m' := match s with Z.pos _ => Z.shiftl (Z.pos m1) s | 0 => Z.pos m1
                     | Z.neg _ => 0 end).
  assert (Hm' : m' = Z.pos m1 * 2 ^ s).
  { subst m'. destruct s as [|p|p] eqn:Es; [simpl; lia | | lia].
    now rewrite Z.shiftl_mul_pow2. }
  assert (Hexact : m' = Z.pos M * 2 ^ (E - e') * Z.pos m2).
  { rewrite Hm'.
    assert (HT : 0 < 2 ^ (e' + e2 + 2148)) by (apply Z.pow_pos_nonneg; lia).
    apply (Z.mul_cancel_r _ _ (2 ^ (e' + e2 + 2148))); [lia|].
    replace (Z.pos m1 * 2 ^ s * 2 ^ (e' + e2 + 2148))
      with (Z.pos m1 * 2 ^ (e1 + 1074) * 2 ^ 1074).
    2:{ rewrite <- !Z.mul_assoc.
        rewrite <- (Z.pow_add_r 2 (e1 + 1074) 1074) by lia.
        rewrite <- (Z.pow_add_r 2 s (e' + e2 + 2148)) by lia.
        do 2 f_equal. subst s. lia. }
    rewrite <- Hval.
    replace (Z.pos M * 2 ^ (E - e') * Z.pos m2 * 2 ^ (e' + e2 + 2148))
      with (Z.pos M * Z.pos m2 * (2 ^ (E - e') * 2 ^ (e' + e2 + 2148))) by ring.
    replace (Z.pos M * 2 ^ (E + 1074) * (Z.pos m2 * 2 ^ (e2 + 1074)))
      with (Z.pos M * Z.pos m2 * (2 ^ (E + 1074) * 2 ^ (e2 + 1074))) by ring.
    rewrite <- (Z.pow_add_r 2 (E - e') (e' + e2 + 2148)) by lia.
    rewrite <- (Z.pow_add_r 2 (E + 1074) (e2 + 1074)) by lia.
    do 2 f_equal. lia. }
  exists e'. split; [|exact He'].
  pose proof (Z_div_mod m' (Z.pos m2) ltac:(lia)) as Hdiv.
  destruct (Z.div_eucl m' (Z.pos m2)) as [q r]. destruct Hdiv as [Heq Hr].
  assert (Hq : q = Z.pos M * 2 ^ (E - e') /\ r = 0).
  { rewrite Hexact in Heq. revert Heq Hr. generalize (Z.pos M * 2 ^ (E - e')).
    generalize (Z.pos m2). clear. intros b Q Heq Hr.
    assert (Hb : (Q - q) * b = r) by lia.
    assert (Q - q = 0) by nia. split; nia. }
  destruct Hq as [-> ->].
  unfold new_location, new_location_even, new_location_odd.
  now destruct (Z.even (Z.pos m2)).
Qed.

Lemma Prim2SF_bounded (x : float) (s : bool) (m : positive) (e : Z) :
  Prim2SF x = S754_finite s m e -> bounded prec emax m e = true.
Proof.
  intros Hx. pose proof (Prim2SF_valid x) as H. now rewrite Hx in H.
Qed.

Lemma SF2Prim_finite (x : float) (s : bool) (m : positive) (e : Z) :
  Prim2SF x = S754_finite s m e -> x = SF2Prim (S754_finite s m e).
Proof. intros <-. symmetry. apply SF2Prim_Prim2SF. Qed.

(** A quotient that is a double is that double. *)
Lemma div_exact (x y : float) (sx sy : bool) (mx my M : positive) (ex ey E : Z) :
  Prim2SF x = S754_finite sx mx ex -> Prim2SF y = S754_finite sy my ey ->
  bounded prec emax M E = true ->
  ulps (Z.pos M) E * ulps (Z.pos my) ey = ulps (Z.pos mx) ex * 2 ^ 1074 ->
  Prim2SF (x / y) = S754_finite (xorb sx sy) M E.
Proof.
  intros Hx Hy Hb Hval. rewrite div_spec, Hx, Hy. unfold SF64div. cbn [SFdiv].
  pose proof (valid_exponent _ _ (Prim2SF_bounded x sx mx ex Hx)) as Bx.
  pose proof (valid_exponent _ _ (Prim2SF_bounded y sy my ey Hy)) as By.
  pose proof (valid_exponent _ _ Hb) as BE.
  destruct (div_core_exact mx my M ex ey E (valid_canonical M E Hb)
              ltac:(lia) ltac:(lia) ltac:(lia) Hval) as (e' & -> & He').
  now apply round_exact.
Qed.

(** A product that is a double is that double. *)
Lemma mul_exact (x y : float) (sx sy : bool) (mx my M : positive) (ex ey E : Z) :
  Prim2SF x = S754_finite sx mx ex -> Prim2SF y = S754_finite sy my ey ->
  Z.pos (digits2_pos mx) = 53 ->
  bounded prec emax M E = true ->
  ulps (Z.pos M) E * 2 ^ 1074 = ulps (Z.pos mx) ex * ulps (Z.pos my) ey ->
  Prim2SF (x * y) = S754_finite (xorb sx sy) M E.
Proof.
  intros Hx Hy Hdx Hb Hval. rewrite mul_spec, Hx, Hy. unfold SF64mul. cbn [SFmul].
  pose proof (valid_exponent _ _ (Prim2SF_bounded x sx mx ex Hx)) as Bx.
  pose proof (valid_exponent _ _ (Prim2SF_bounded y sy my ey Hy)) as By.
  pose proof (valid_exponent _ _ Hb) as BE.
  pose proof (valid_canonical M E Hb) as Hcanon.
  pose proof (digits_bounds mx) as B1. pose proof (digits_bounds my) as B2.
  pose proof (digits_bounds M) as BM. rewrite Hdx in B1.
  set (dy := Z.pos (digits2_pos my)) in *. set (dM := Z.pos (digits2_pos M)) in *.
  assert (Hdy : 0 < dy) by (subst dy; lia).
  assert (HdM : 0 < dM) by (subst dM; lia).
  unfold ulps in Hval.
  assert (Hmag : 52 + (dy - 1) + ex + ey < dM + E).
  { assert (Hlt : 2 ^ (52 + (dy - 1) + (ex + 1074) + (ey + 1074))
                  < 2 ^ (dM + (E + 1074) + 1074)).
    { rewrite (Z.pow_add_r 2 (52 + (dy - 1) + (ex + 1074)) (ey + 1074)),
        (Z.pow_add_r 2 (52 + (dy - 1)) (ex + 1074)),
        (Z.pow_add_r 2 52 (dy - 1)),
        (Z.pow_add_r 2 (dM + (E + 1074)) 1074), (Z.pow_add_r 2 dM (E + 1074)) by lia.
      assert (0 < 2 ^ (ex + 1074)) by (apply Z.pow_pos_nonneg; lia).
      assert (0 < 2 ^ (ey + 1074)) by (apply Z.pow_pos_nonneg; lia).
      assert (0 < 2 ^ (E + 1074)) by (apply Z.pow_pos_nonneg; lia).
      assert (0 < 2 ^ 1074) by (apply Z.pow_pos_nonneg; lia).
      assert (0 < 2 ^ (dy - 1)) by (apply Z.pow_pos_nonneg; lia).
      change (53 - 1) with 52 in B1.
      apply Z.le_lt_trans with (Z.pos mx * 2 ^ (ex + 1074) * (Z.pos my * 2 ^ (ey + 1074))).
      - replace (2 ^ 52 * 2 ^ (dy - 1) * 2 ^ (ex + 1074) * 2 ^ (ey + 1074))
          with (2 ^ 52 * 2 ^ (ex + 1074) * (2 ^ (dy - 1) * 2 ^ (ey + 1074))) by ring.
        apply Z.mul_le_mono_nonneg; nia.
      - rewrite <- Hval. apply Z.mul_lt_mono_pos_r; [lia|].
        apply Z.mul_lt_mono_pos_r; lia. }
    apply pow2_lt_inv in Hlt; lia. }
  assert (HE : ex + ey <= E).
  { unfold fexp in Hcanon. fold dM in Hcanon. change prec with 53 in Hcanon. lia. }
  apply round_exact; [exact Hb | exact HE |].
  rewrite Pos2Z.inj_mul.
  assert (HT : 0 < 2 ^ (ex + ey + 2148)) by (apply Z.pow_pos_nonneg; lia).
  apply (Z.mul_cancel_r _ _ (2 ^ (ex + ey + 2148))); [lia|].
  replace (Z.pos mx * Z.pos my * 2 ^ (ex + ey + 2148))
    with (Z.pos mx * 2 ^ (ex + 1074) * (Z.pos my * 2 ^ (ey + 1074))).
  2:{ replace (ex + ey + 2148) with ((ex + 1074) + (ey + 1074)) by lia.
      rewrite (Z.pow_add_r 2 (ex + 1074) (ey + 1074)) by lia. ring. }
  rewrite <- Hval, <- !Z.mul_assoc.
  rewrite <- (Z.pow_add_r 2 (E - (ex + ey)) (ex + ey + 2148)) by lia.
  rewrite <- (Z.pow_add_r 2 (E + 1074) 1074) by lia.
  do 2 f_equal. lia.
Qed.


(** The canonical mantissa and exponent of an integer that is a double. *)
Lemma canonical_integer (a : Z) :
  0 < a -> representable a ->
  exists M E,
    bounded prec emax M E = true
    /\ Z.pos (digits2_pos M) = 53
    /\ ulps (Z.pos M) E = a * 2 ^ 1074.
Proof.
  intros Ha (m & e & -> & Hm & He).
  assert (Hpe : 0 < 2 ^ e) by (apply Z.pow_pos_nonneg; lia).
  assert (Hm0 : 0 < m) by nia.
  assert (Hd : 0 <= Z.log2 m < 53).
  { split; [apply Z.log2_nonneg|]. apply Z.log2_lt_pow2; lia. }
  set (k := 52 - Z.log2 m).
  assert (Hpk : 0 < 2 ^ k) by (apply Z.pow_pos_nonneg; subst k; lia).
  assert (HM : Z.pos (Z.to_pos (m * 2 ^ k)) = m * 2 ^ k) by (apply Z2Pos.id; nia).
  exists (Z.to_pos (m * 2 ^ k)), (e - k).
  assert (Hdigits : Z.pos (digits2_pos (Z.to_pos (m * 2 ^ k))) = 53).
  { change (Z.pos (digits2_pos (Z.to_pos (m * 2 ^ k))))
      with (Zdigits2 (Z.pos (Z.to_pos (m * 2 ^ k)))).
    rewrite HM, Zdigits2_shift, Zdigits2_log2 by (subst k; lia). subst k. lia. }
  split; [|split; [exact Hdigits|]].
  - unfold bounded, canonical_mantissa, fexp. rewrite Hdigits.
    change (SpecFloat.emin prec emax) with (-1074). change prec with 53.
    change (emax - 53) with 971.
    apply andb_true_iff. split; [apply Z.eqb_eq | apply Z.leb_le]; subst k; lia.
  - unfold ulps. rewrite HM, <- !Z.mul_assoc. f_equal.
    rewrite <- (Z.pow_add_r 2 k (e - k + 1074)), <- (Z.pow_add_r 2 e 1074)
      by (subst k; lia).
    f_equal. lia.
Qed.

Lemma ulps_one : ulps 1 0 = 2 ^ 1074.
Proof. unfold ulps. now rewrite Z.mul_1_l. Qed.

Lemma ulps_integer (a : Z) : ulps a 0 = a * 2 ^ 1074.
Proof. reflexivity. Qed.

(** The double of an integer that is one, and of its opposite. *)
Lemma ofZ_exact (a : Z) :
  0 < a -> representable a ->
  exists M E,
    bounded prec emax M E = true
    /\ Z.pos (digits2_pos M) = 53
    /\ ulps (Z.pos M) E = a * 2 ^ 1074
    /\ Prim2SF (ofZ a) = S754_finite false M E
    /\ Prim2SF (ofZ (- a)) = S754_finite true M E.
Proof.
  intros Ha Hrep.
  destruct (canonical_integer a Ha Hrep) as (M & E & Hb & Hd & Hval).
  exists M, E. split; [exact Hb | split; [exact Hd | split; [exact Hval|]]].
  pose proof (valid_exponent M E Hb) as BE.
  destruct a as [|p|p]; try lia.
  destruct (div_core_exact p 1 M 0 0 E (valid_canonical M E Hb)
              ltac:(lia) ltac:(lia) ltac:(lia)) as (e' & Hcore & He').
  { rewrite ulps_one, ulps_integer. exact (f_equal (fun v => v * 2 ^ 1074) Hval). }
  unfold ofZ, roundRatio.
  replace (Z.abs (- Z.pos p)) with (Z.pos p) by lia.
  change (Z.abs (Z.pos p)) with (Z.pos p).
  rewrite Hcore.
  change (Z.pos p <? 0) with false. change (- Z.pos p <? 0) with true.
  rewrite !(round_exact _ _ e' M E Hb He' eq_refl).
  split; apply Prim2SF_SF2Prim; exact Hb.
Qed.

(** Doubles with full mantissas compare as their values do. *)
Lemma SFcompare_normal (M1 M2 : positive) (E1 E2 : Z) :
  Z.pos (digits2_pos M1) = 53 -> Z.pos (digits2_pos M2) = 53 ->
  -1074 <= E1 -> -1074 <= E2 ->
  SFcompare (S754_finite false M1 E1) (S754_finite false M2 E2)
  = Some (ulps (Z.pos M1) E1 ?= ulps (Z.pos M2) E2).
Proof.
  intros H1 H2 HE1 HE2. cbn [SFcompare]. f_equal. unfold ulps.
  pose proof (digits_bounds M1) as B1. pose proof (digits_bounds M2) as B2.
  rewrite H1 in B1. rewrite H2 in B2. change (53 - 1) with 52 in *.
  destruct (Z.compare_spec E1 E2) as [-> | Hlt | Hgt].
  - rewrite Pos.compare_cont_spec. cbn [Pos.switch_Eq].
    assert (0 < 2 ^ (E2 + 1074)) by (apply Z.pow_pos_nonneg; lia).
    change (M1 ?= M2)%positive with (Z.pos M1 ?= Z.pos M2).
    symmetry. destruct (Z.compare_spec (Z.pos M1) (Z.pos M2)) as [-> | Hc | Hc].
    + apply Z.compare_refl.
    + apply Z.compare_lt_iff. nia.
    + apply Z.compare_gt_iff. nia.
  - symmetry. apply Z.compare_lt_iff.
    replace (E2 + 1074) with (E2 - E1 - 1 + (1 + (E1 + 1074))) by lia.
    rewrite (Z.pow_add_r 2 (E2 - E1 - 1)), (Z.pow_add_r 2 1) by lia.
    change (2 ^ 1) with 2.
    assert (0 < 2 ^ (E1 + 1074)) by (apply Z.pow_pos_nonneg; lia).
    assert (0 < 2 ^ (E2 - E1 - 1)) by (apply Z.pow_pos_nonneg; lia).
    change (2 ^ 53) with (2 * 2 ^ 52) in B1.
    set (u := 2 ^ (E1 + 1074)) in *. set (g := 2 ^ (E2 - E1 - 1)) in *.
    set (h := 2 ^ 52) in *. clearbody u g h.
    assert (Z.pos M1 * u < 2 * h * u) by nia.
    assert (h * (g * (2 * u)) <= Z.pos M2 * (g * (2 * u))) by nia.
    assert (2 * h * u <= h * (g * (2 * u))) by nia.
    lia.
  - symmetry. apply Z.compare_gt_iff.
    replace (E1 + 1074) with (E1 - E2 - 1 + (1 + (E2 + 1074))) by lia.
    rewrite (Z.pow_add_r 2 (E1 - E2 - 1)), (Z.pow_add_r 2 1) by lia.
    change (2 ^ 1) with 2.
    assert (0 < 2 ^ (E2 + 1074)) by (apply Z.pow_pos_nonneg; lia).
    assert (0 < 2 ^ (E1 - E2 - 1)) by (apply Z.pow_pos_nonneg; lia).
    change (2 ^ 53) with (2 * 2 ^ 52) in B2.
    set (u := 2 ^ (E2 + 1074)) in *. set (g := 2 ^ (E1 - E2 - 1)) in *.
    set (h := 2 ^ 52) in *. clearbody u g h.
    assert (Z.pos M2 * u < 2 * h * u) by nia.
    assert (h * (g * (2 * u)) <= Z.pos M1 * (g * (2 * u))) by nia.
    assert (2 * h * u <= h * (g * (2 * u))) by nia.
    lia.
Qed.


Lemma leb_compare (a b : Z) :
  match a ?= b with Lt | Eq => true | Gt => false end = (a <=? b).
Proof. unfold Z.leb. now destruct (a ?= b). Qed.

(** Comparing a constant with the double of an integer. *)
Lemma leb_integer (c : float) (Mc : positive) (Ec C a : Z) :
  Prim2SF c = S754_finite false Mc Ec ->
  Z.pos (digits2_pos Mc) = 53 ->
  ulps (Z.pos Mc) Ec = C * 2 ^ 1074 ->
  0 < a -> representable a ->
  (c <=? ofZ a)%float = (C <=? a).
Proof.
  intros Hc Hdc Hvc Ha Hrep.
  destruct (ofZ_exact a Ha Hrep) as (M & E & Hb & Hd & Hval & Hx & _).
  pose proof (valid_exponent M E Hb). 
  pose proof (valid_exponent Mc Ec (Prim2SF_bounded c _ _ _ Hc)).
  rewrite leb_spec, Hc, Hx. unfold SFleb.
  rewrite SFcompare_normal by (assumption || lia).
  rewrite Hvc, Hval.
  rewrite <- Zmult_compare_compat_r by (apply Z.lt_gt, Z.pow_pos_nonneg; lia).
  apply leb_compare.
Qed.

Lemma million_shape :
  Prim2SF 1000000 = S754_finite false 8589934592000000 (-33)
  /\ Z.pos (digits2_pos 8589934592000000) = 53
  /\ ulps 8589934592000000 (-33) = 10 ^ 6 * 2 ^ 1074.
Proof. repeat split. Qed.

Lemma thousand_shape :
  Prim2SF 1000 = S754_finite false 8796093022208000 (-43)
  /\ Z.pos (digits2_pos 8796093022208000) = 53
  /\ ulps 8796093022208000 (-43) = 1000 * 2 ^ 1074.
Proof. repeat split. Qed.

Lemma sextillion_shape :
  Prim2SF 1e21 = S754_finite false 7629394531250000 17
  /\ Z.pos (digits2_pos 7629394531250000) = 53
  /\ ulps 7629394531250000 17 = 10 ^ 21 * 2 ^ 1074.
Proof. repeat split. Qed.

Lemma ltb_zero_integer (a : Z) :
  0 < a -> representable a ->
  (ofZ a <? 0)%float = false /\ (ofZ (- a) <? 0)%float = true.
Proof.
  intros Ha Hrep.
  destruct (ofZ_exact a Ha Hrep) as (M & E & _ & _ & _ & Hx & Hy).
  rewrite !ltb_spec, Hx, Hy. now split.
Qed.

Lemma abs_integer (a : Z) :
  0 < a -> representable a ->
  PrimFloat.abs (ofZ a) = ofZ a /\ PrimFloat.abs (ofZ (- a)) = ofZ a.
Proof.
  intros Ha Hrep.
  destruct (ofZ_exact a Ha Hrep) as (M & E & _ & _ & _ & Hx & Hy).
  split; apply Prim2SF_inj; rewrite abs_spec, ?Hx, ?Hy; reflexivity.
Qed.

Lemma finite_integer (a : Z) :
  0 < a -> representable a ->
  isFinite (ofZ a) = true /\ isFinite (ofZ (- a)) = true.
Proof.
  intros Ha Hrep.
  destruct (ofZ_exact a Ha Hrep) as (M & E & _ & _ & _ & Hx & Hy).
  split; apply finite_shape; right; eauto.
Qed.

(** Dividing the double of a multiple by a constant that is an integer. *)
Lemma div_integer (c : float) (Mc : positive) (Ec C q : Z) :
  Prim2SF c = S754_finite false Mc Ec ->
  ulps (Z.pos Mc) Ec = C * 2 ^ 1074 ->
  0 < q -> 0 < C -> representable q -> representable (q * C) ->
  (ofZ (q * C) / c)%float = ofZ q.
Proof.
  intros Hc Hvc Hq HC Hrq Hrn.
  destruct (ofZ_exact q Hq Hrq) as (M & E & Hb & Hd & Hval & Hx & _).
  destruct (ofZ_exact (q * C) ltac:(nia) Hrn) as (Mn & En & Hbn & Hdn & Hvaln & Hn & _).
  apply Prim2SF_inj. rewrite Hx.
  rewrite (div_exact _ _ _ _ _ _ M _ _ E Hn Hc Hb); [reflexivity|].
  rewrite Hval, Hvc, Hvaln. ring.
Qed.

(** Multiplying a double that is an integer by a constant that is one. *)
Lemma mul_integer (c : float) (Mc : positive) (Ec C q : Z) :
  Prim2SF c = S754_finite false Mc Ec ->
  ulps (Z.pos Mc) Ec = C * 2 ^ 1074 ->
  0 < q -> 0 < C -> representable q -> representable (q * C) ->
  (ofZ q * c)%float = ofZ (q * C)
  /\ (ofZ (- q) * c)%float = ofZ (- (q * C)).
Proof.
  intros Hc Hvc Hq HC Hrq Hrn.
  destruct (ofZ_exact q Hq Hrq) as (M & E & Hb & Hd & Hval & Hx & Hy).
  destruct (ofZ_exact (q * C) ltac:(nia) Hrn)
    as (Mn & En & Hbn & Hdn & Hvaln & Hn & Hn').
  assert (Hprod : ulps (Z.pos Mn) En * 2 ^ 1074 = ulps (Z.pos M) E * ulps (Z.pos Mc) Ec).
  { rewrite Hval, Hvc, Hvaln. ring. }
  split; apply Prim2SF_inj.
  - rewrite Hn. now rewrite (mul_exact _ _ _ _ _ _ Mn _ _ En Hx Hc Hd Hbn Hprod).
  - rewrite Hn'. now rewrite (mul_exact _ _ _ _ _ _ Mn _ _ En Hy Hc Hd Hbn Hprod).
Qed.

(** The exact value of the double of an integer. *)
Lemma exact_integer (a : Z) :
  0 < a -> representable a ->
  exists m e,
    exact (ofZ a) = Some (false, m, e)
    /\ 0 < m
    /\ m * 2 ^ Z.max e 0 = a * 2 ^ Z.max (- e) 0.
Proof.
  intros Ha Hrep.
  destruct (ofZ_exact a Ha Hrep) as (M & E & Hb & _ & Hval & Hx & _).
  pose proof (valid_exponent M E Hb) as BE.
  exists (Z.pos M), E. unfold exact. rewrite Hx.
  split; [reflexivity | split; [lia|]]. unfold ulps in Hval.
  destruct (Z.le_gt_cases 0 E) as [HE | HE].
  - rewrite (Z.max_l E 0), (Z.max_r (- E) 0) by lia. change (2 ^ 0) with 1.
    rewrite Z.mul_1_r. rewrite Z.pow_add_r, Z.mul_assoc in Hval by lia.
    apply Z.mul_cancel_r in Hval; [exact Hval|].
    apply Z.pow_nonzero; lia.
  - rewrite (Z.max_r E 0), (Z.max_l (- E) 0) by lia. change (2 ^ 0) with 1.
    rewrite Z.mul_1_r.
    replace 1074 with (- E + (E + 1074)) in Hval at 2 by lia.
    rewrite (Z.pow_add_r 2 (- E)), Z.mul_assoc in Hval by lia.
    apply Z.mul_cancel_r in Hval; [exact Hval|].
    apply Z.pow_nonzero; lia.
Qed.

Lemma nearestTenth_integer (q : Z) :
  0 < q -> representable q -> Content.nearestTenth (ofZ q) (10 * q).
Proof.
  intros Hq Hrep. destruct (exact_integer q Hq Hrep) as (m & e & Hx & Hm & Hval).
  unfold Content.nearestTenth. rewrite Hx.
  assert (0 < 2 ^ Z.max (- e) 0) by (apply Z.pow_pos_nonneg; lia).
  replace (20 * m * 2 ^ Z.max e 0) with (20 * (m * 2 ^ Z.max e 0)) by ring.
  rewrite Hval. nia.
Qed.


Lemma representable_opp (n : Z) : representable n -> representable (- n).
Proof.
  intros (m & e & -> & Hm & He). exists (- m), e.
  split; [ring | split; [lia | exact He]].
Qed.

Lemma representable_abs (n : Z) : representable n -> representable (Z.abs n).
Proof.
  intros H. destruct (Z.abs_spec n) as [[_ ->] | [_ ->]];
    [exact H | now apply representable_opp].
Qed.

Lemma representable_small (n : Z) : Z.abs n <= 2 ^ 53 -> representable n.
Proof.
  intros Hn. destruct (Z.eq_dec (Z.abs n) (2 ^ 53)) as [Heq | Hne].
  - exists (Z.sgn n), 53. split; [|split; [|lia]].
    + rewrite <- Heq. symmetry. rewrite Z.mul_comm. apply Z.abs_sgn.
    + destruct n; simpl; lia.
  - exists n, 0. change (2 ^ 0) with 1. split; [ring | lia].
Qed.

(** The quotient of a double by an odd number times a power of two, when it
    is an integer, is a double. *)
Lemma representable_quotient (q c j : Z) :
  0 <= j -> 0 < c -> Z.gcd c 2 = 1 ->
  representable (q * (2 ^ j * c)) -> representable q.
Proof.
  intros Hj Hc Hodd (m & e & Heq & Hm & He).
  assert (Hpj : 0 < 2 ^ j) by (apply Z.pow_pos_nonneg; lia).
  destruct (Z.le_gt_cases j e) as [Hle | Hgt].
  - assert (Hqc : q * c = m * 2 ^ (e - j)).
    { apply (Z.mul_cancel_r _ _ (2 ^ j)); [lia|].
      replace (m * 2 ^ (e - j) * 2 ^ j) with (m * 2 ^ e).
      - rewrite <- Heq. ring.
      - rewrite <- Z.mul_assoc, <- (Z.pow_add_r 2 (e - j) j) by lia.
        do 2 f_equal. lia. }
    assert (Hdiv : (c | m)).
    { apply (Z.gauss c (2 ^ (e - j)) m).
      - exists q. rewrite (Z.mul_comm (2 ^ (e - j))). now rewrite <- Hqc.
      - apply Z.coprime_pow_r; [lia | exact Hodd]. }
    destruct Hdiv as [m' ->].
    exists m', (e - j). split; [|split; [nia | lia]].
    apply (Z.mul_cancel_r _ _ c); [lia|]. rewrite Hqc. ring.
  - exists q, 0. change (2 ^ 0) with 1. split; [ring | split; [|lia]].
    assert (Hm' : m = q * (2 ^ (j - e) * c)).
    { assert (Hpe : 0 < 2 ^ e) by (apply Z.pow_pos_nonneg; lia).
      apply (Z.mul_cancel_r _ _ (2 ^ e)); [lia|]. rewrite <- Heq.
      replace j with (j - e + e) at 1 by lia.
      rewrite (Z.pow_add_r 2 (j - e) e) by lia. ring. }
    assert (0 < 2 ^ (j - e)) by (apply Z.pow_pos_nonneg; lia).
    rewrite Hm', Z.abs_mul in Hm.
    assert (1 <= Z.abs (2 ^ (j - e) * c)) by nia.
    nia.
Qed.

Lemma representable_millions (q : Z) : representable (q * 10 ^ 6) -> representable q.
Proof. apply (representable_quotient q 15625 6); try lia. reflexivity. Qed.

Lemma representable_thousands (q : Z) : representable (q * 1000) -> representable q.
Proof. apply (representable_quotient q 125 3); try lia. reflexivity. Qed.

End ExactFacts.

(** ** The text of a compact number *)

Section TextFacts.
Import JSString JSNumber Content.

Lemma trimStart_fixed (c : N) (s : jsstring) :
  isWhiteSpace c = false -> trimStart (c :: s) = c :: s.
Proof. intros Hc. simpl. now rewrite Hc. Qed.

Lemma trimEnd_fixed (s : jsstring) (c : N) :
  isWhiteSpace c = false -> trimEnd (s ++ [c]) = s ++ [c].
Proof.
  intros Hc. unfold trimEnd. rewrite rev_app_distr.
  change (rev [c] ++ rev s) with (c :: rev s).
  rewrite trimStart_fixed by exact Hc. simpl. now rewrite rev_involutive.
Qed.

Lemma trim_fixed (c d : N) (s : jsstring) :
  isWhiteSpace c = false -> isWhiteSpace d = false ->
  trim (c :: s ++ [d]) = c :: s ++ [d].
Proof.
  intros Hc Hd. unfold trim. rewrite trimStart_fixed by exact Hc.
  change (c :: s ++ [d]) with ((c :: s) ++ [d]). now apply trimEnd_fixed.
Qed.

Lemma isWhiteSpace_printable (c : N) :
  (33 <= c < 160)%N -> isWhiteSpace c = false.
Proof.
  intros Hc. unfold isWhiteSpace.
  replace (c <=? 13)%N with false by (symmetry; apply N.leb_gt; lia).
  replace (8192 <=? c)%N with false by (symmetry; apply N.leb_gt; lia).
  replace (c =? 32)%N with false by (symmetry; apply N.eqb_neq; lia).
  replace (c =? 160)%N with false by (symmetry; apply N.eqb_neq; lia).
  replace (c =? 5760)%N with false by (symmetry; apply N.eqb_neq; lia).
  replace (c =? 8232)%N with false by (symmetry; apply N.eqb_neq; lia).
  replace (c =? 8233)%N with false by (symmetry; apply N.eqb_neq; lia).
  replace (c =? 8239)%N with false by (symmetry; apply N.eqb_neq; lia).
  replace (c =? 8287)%N with false by (symmetry; apply N.eqb_neq; lia).
  replace (c =? 12288)%N with false by (symmetry; apply N.eqb_neq; lia).
  replace (c =? 65279)%N with false by (symmetry; apply N.eqb_neq; lia).
  now rewrite andb_false_r.
Qed.

Lemma lowerChar_fixed (c : N) :
  (c < 65 \/ 90 < c < 192 \/ 1071 < c)%N -> lowerChar c = c.
Proof.
  intros Hc. destruct (lowerChar_cases c) as [H | [[H Hr] | [H Hr]]];
    [exact H | lia | lia].
Qed.

Lemma toLowerCase_fixed (s : jsstring) :
  Forall (fun c => (c < 65 \/ 90 < c < 192 \/ 1071 < c)%N) s -> toLowerCase s = s.
Proof.
  induction 1 as [|c s Hc _ IH]; [reflexivity|]. unfold toLowerCase in *. simpl.
  now rewrite lowerChar_fixed, IH.
Qed.

Lemma removeWhiteSpace_app (a b : jsstring) :
  removeWhiteSpace (a ++ b) = removeWhiteSpace a ++ removeWhiteSpace b.
Proof. apply List.filter_app. Qed.

Lemma removeWhiteSpace_fixed (s : jsstring) :
  Forall (fun c => isWhiteSpace c = false) s -> removeWhiteSpace s = s.
Proof.
  induction 1 as [|c s Hc _ IH]; [reflexivity|]. unfold removeWhiteSpace in *.
  simpl. now rewrite Hc, IH.
Qed.

Lemma startsWith_refl (p : jsstring) : startsWith p p = true.
Proof. induction p as [|c p IH]; [reflexivity|]. simpl. now rewrite N.eqb_refl. Qed.

Lemma startsWith_other (c d : N) (s p : jsstring) :
  c <> d -> startsWith (d :: s) (c :: p) = false.
Proof. intros H. simpl. now apply N.eqb_neq in H as ->. Qed.

Lemma includes_suffix (a p : jsstring) : includes (a ++ p) p = true.
Proof.
  induction a as [|c a IH]; simpl app.
  - destruct p; simpl; [reflexivity|]. now rewrite N.eqb_refl, startsWith_refl.
  - change (includes (c :: a ++ p) p)
      with (startsWith (c :: a ++ p) p || includes (a ++ p) p).
    rewrite IH. apply orb_true_r.
Qed.

Lemma includes_absent (c : N) (s p : jsstring) :
  ~ In c s -> includes s (c :: p) = false.
Proof.
  induction s as [|d s IH]; intros Hc; [reflexivity|].
  change (includes (d :: s) (c :: p))
    with (startsWith (d :: s) (c :: p) || includes s (c :: p)).
  rewrite startsWith_other, IH; [reflexivity | |]; intros H; apply Hc; simpl; auto.
Qed.

Lemma replaceFirst_absent_char (c : N) (s p r : jsstring) :
  ~ In c s -> replaceFirst s (c :: p) r = s.
Proof.
  induction s as [|d s IH]; intros Hc; [reflexivity|].
  change (replaceFirst (d :: s) (c :: p) r)
    with (if startsWith (d :: s) (c :: p) then r ++ drop (length (c :: p)) (d :: s)
          else d :: replaceFirst s (c :: p) r).
  rewrite startsWith_other, IH; [reflexivity | |]; intros H; apply Hc; simpl; auto.
Qed.

Lemma replaceFirst_unfold (s p r : jsstring) :
  replaceFirst s p r
  = if startsWith s p then r ++ drop (length p) s
    else match s with
         | [] => []
         | c :: s' => c :: replaceFirst s' p r
         end.
Proof. now destruct s. Qed.

Lemma startsWith_prefix (u t : jsstring) : startsWith (u ++ t) u = true.
Proof. induction u as [|x u IH]; [reflexivity|]. simpl. now rewrite N.eqb_refl. Qed.

Lemma replaceFirst_found (c : N) (a p t r : jsstring) :
  ~ In c a -> replaceFirst (a ++ (c :: p) ++ t) (c :: p) r = a ++ r ++ t.
Proof.
  induction a as [|d a IH]; intros Hc.
  - rewrite replaceFirst_unfold. cbn [app].
    change (c :: p ++ t) with ((c :: p) ++ t).
    rewrite startsWith_prefix. f_equal. apply drop_app_length.
  - rewrite replaceFirst_unfold. cbn [app].
    rewrite startsWith_other by (intros H; apply Hc; simpl; auto).
    f_equal. apply IH. intros H. apply Hc. simpl. auto.
Qed.

Lemma replaceFirst_suffix (c : N) (a p r : jsstring) :
  ~ In c a -> replaceFirst (a ++ c :: p) (c :: p) r = a ++ r.
Proof.
  intros Hc. pose proof (replaceFirst_found c a p [] r Hc) as H.
  now rewrite !app_nil_r in H.
Qed.

Lemma takeDigits_all (ds rest : jsstring) :
  Forall (fun c => isDigit c = true) ds ->
  match rest with [] => True | c :: _ => isDigit c = false end ->
  takeDigits (ds ++ rest) = (ds, rest).
Proof.
  intros Hds Hrest. induction Hds as [|c ds Hc _ IH]; cbn [app takeDigits].
  - destruct rest as [|c rest]; [reflexivity|]. cbn [takeDigits]. now rewrite Hrest.
  - now rewrite Hc, IH.
Qed.

Lemma takeSign_other (c : N) (s : jsstring) :
  c <> 45%N -> c <> 43%N -> takeSign (c :: s) = (false, c :: s).
Proof.
  intros H45 H43. unfold takeSign.
  destruct c as [|[[[[[[p|p|]|[p|p|]|]|[[p|p|]|[p|p|]|]|]|[[[p|p|]|[p|p|]|]|[[p|p|]|[p|p|]|]|]|]
                  |[[[[p|p|]|[p|p|]|]|[[p|p|]|[p|p|]|]|]|[[[p|p|]|[p|p|]|]|[[p|p|]|[p|p|]|]|]|]|]
                 |[[[[[p|p|]|[p|p|]|]|[[p|p|]|[p|p|]|]|]|[[[p|p|]|[p|p|]|]|[[p|p|]|[p|p|]|]|]|]
                  |[[[[p|p|]|[p|p|]|]|[[p|p|]|[p|p|]|]|]|[[[p|p|]|[p|p|]|]|[[p|p|]|[p|p|]|]|]|]|]|]];
    try reflexivity; congruence.
Qed.

Lemma digit_range (c : N) : isDigit c = true <-> (48 <= c <= 57)%N.
Proof.
  unfold isDigit. rewrite andb_true_iff, !N.leb_le. tauto.
Qed.

(** [parseFloat] on a string of digits. *)
Lemma parseFloat_digits (ds : jsstring) :
  Forall (fun c => isDigit c = true) ds -> ds <> [] ->
  parseFloat ds = roundRatio false (digitsValue ds) 1
  /\ parseFloat (45%N :: ds) = roundRatio true (digitsValue ds) 1.
Proof.
  intros Hds Hne. destruct ds as [|d ds]; [contradiction|].
  assert (Hd : (48 <= d <= 57)%N) by (apply digit_range; now inversion Hds).
  assert (Hws : isWhiteSpace d = false) by (apply isWhiteSpace_printable; lia).
  assert (Hinf : startsWith (d :: ds) (lit "Infinity") = false).
  { change (lit "Infinity") with (73%N :: lit "nfinity").
    apply startsWith_other. lia. }
  assert (Htake : takeDigits (d :: ds) = (d :: ds, [])).
  { pose proof (takeDigits_all (d :: ds) [] Hds I) as H. now rewrite app_nil_r in H. }
  unfold parseFloat. split.
  - rewrite trimStart_fixed by exact Hws. rewrite takeSign_other by lia.
    rewrite Hinf, Htake. cbn [app length takeExponent].
    change (10 ^ Z.max (0 - Z.of_nat 0) 0) with 1.
    change (10 ^ Z.max (- (0 - Z.of_nat 0)) 0) with 1.
    now rewrite app_nil_r, Z.mul_1_r.
  - rewrite trimStart_fixed by reflexivity. cbn [takeSign].
    rewrite Hinf, Htake. cbn [app length takeExponent].
    change (10 ^ Z.max (0 - Z.of_nat 0) 0) with 1.
    change (10 ^ Z.max (- (0 - Z.of_nat 0)) 0) with 1.
    now rewrite app_nil_r, Z.mul_1_r.
Qed.


Lemma replaceFirst_char_app (c : N) (a b r : jsstring) :
  ~ In c b -> replaceFirst (a ++ b) [c] r = replaceFirst a [c] r ++ b.
Proof.
  intros Hb. induction a as [|d a IH].
  - simpl app at 1. now rewrite replaceFirst_absent_char.
  - rewrite (replaceFirst_unfold (d :: a)), replaceFirst_unfold. cbn [app startsWith].
    destruct (c =? d)%N; simpl.
    + now rewrite <- app_assoc.
    + now rewrite IH.
Qed.

Lemma replaceFirst_char_in (c x : N) (a r : jsstring) :
  In x (replaceFirst a [c] r) -> In x a \/ In x r.
Proof.
  induction a as [|d a IH]; [now left|].
  rewrite replaceFirst_unfold. cbn [startsWith].
  destruct (c =? d)%N; simpl andb; cbv iota.
  - simpl drop. rewrite in_app_iff. intros [H | H]; [now right | left; now right].
  - intros [<- | H]; [left; now left|].
    destruct (IH H) as [H' | H']; [left; now right | now right].
Qed.

(** The characters of a number as [formatWithSuffix] writes it are signs,
    digits, separators and the [e] of an exponent: none is white space, a
    capital or Cyrillic. *)
Lemma safe_character (c : N) :
  (33 <= c < 65 \/ c = 101)%N ->
  isWhiteSpace c = false
  /\ (c < 65 \/ 90 < c < 192 \/ 1071 < c)%N
  /\ c <> 1084%N /\ c <> 1090%N.
Proof.
  intros Hc. split; [apply isWhiteSpace_printable|]; lia.
Qed.

(** What [parseNumericValue] makes of a compact number before it looks for
    the suffix: the space is gone. *)
Lemma normalized_text (body suffix : jsstring) :
  body <> [] ->
  Forall (fun c => (33 <= c < 65 \/ c = 101)%N) body ->
  suffix = mln \/ suffix = tys ->
  removeWhiteSpace (toLowerCase (trim (body ++ lit " " ++ suffix))) = body ++ suffix.
Proof.
  intros Hne Hsafe Hsuffix.
  assert (Hws : Forall (fun c => isWhiteSpace c = false) body).
  { eapply List.Forall_impl; [|exact Hsafe]. intros c Hc. now apply safe_character. }
  assert (Hlow : Forall (fun c => (c < 65 \/ 90 < c < 192 \/ 1071 < c)%N) body).
  { eapply List.Forall_impl; [|exact Hsafe]. intros c Hc. now apply safe_character. }
  destruct body as [|b0 body]; [contradiction|].
  assert (Hb0 : isWhiteSpace b0 = false) by now inversion Hws.
  change (lit " ") with [32%N].
  assert (Htrim : trim ((b0 :: body) ++ [32%N] ++ suffix) = (b0 :: body) ++ [32%N] ++ suffix).
  { destruct Hsuffix as [-> | ->].
    - change ((b0 :: body) ++ [32%N] ++ mln)
        with (b0 :: body ++ [32%N; 1084%N; 1083%N; 1085%N]).
      replace (body ++ [32%N; 1084%N; 1083%N; 1085%N])
        with ((body ++ [32%N; 1084%N; 1083%N]) ++ [1085%N])
        by now rewrite <- app_assoc.
      now apply trim_fixed.
    - change ((b0 :: body) ++ [32%N] ++ tys)
        with (b0 :: body ++ [32%N; 1090%N; 1099%N; 1089%N]).
      replace (body ++ [32%N; 1090%N; 1099%N; 1089%N])
        with ((body ++ [32%N; 1090%N; 1099%N]) ++ [1089%N])
        by now rewrite <- app_assoc.
      now apply trim_fixed. }
  rewrite Htrim. rewrite toLowerCase_fixed.
  - rewrite !removeWhiteSpace_app, removeWhiteSpace_fixed by exact Hws.
    f_equal. now destruct Hsuffix as [-> | ->].
  - apply Forall_app. split; [exact Hlow|].
    destruct Hsuffix as [-> | ->];
      [change mln with [1084%N; 1083%N; 1085%N]
      | change tys with [1090%N; 1099%N; 1089%N]];
      repeat (constructor; [lia|]); constructor.
Qed.

Lemma safe_without (c : N) (body : jsstring) :
  Forall (fun c => (33 <= c < 65 \/ c = 101)%N) body ->
  (65 <= c)%N -> c <> 101%N -> ~ In c body.
Proof.
  intros Hsafe Hc Hne Hin. rewrite List.Forall_forall in Hsafe.
  specialize (Hsafe c Hin). lia.
Qed.

(** Reading a compact number in millions. *)
Lemma parse_millions (body : jsstring) :
  body <> [] ->
  Forall (fun c => (33 <= c < 65 \/ c = 101)%N) body ->
  parseNumericValue (StrV (body ++ lit " " ++ mln))
  = let parsed := parseFloat (replaceFirst body (lit ",") (lit ".")) in
    if isFinite parsed then (parsed * 1000000)%float else 0%float.
Proof.
  intros Hne Hsafe. unfold parseNumericValue.
  rewrite (normalized_text body mln Hne Hsafe (or_introl eq_refl)).
  change (lit ",") with [44%N]. change (lit ".") with [46%N].
  rewrite replaceFirst_char_app by (cbv; intuition discriminate).
  set (text := replaceFirst body [44%N] [46%N]).
  assert (Hm : ~ In 1084%N text).
  { intros Hin. apply replaceFirst_char_in in Hin as [Hin | Hin].
    - revert Hin. apply safe_without; [exact Hsafe | lia | lia].
    - cbv in Hin. intuition discriminate. }
  rewrite includes_suffix.
  change mln with (1084%N :: [1083%N; 1085%N]).
  rewrite replaceFirst_suffix by exact Hm. now rewrite app_nil_r.
Qed.

(** Reading a compact number in thousands. *)
Lemma parse_thousands (body : jsstring) :
  body <> [] ->
  Forall (fun c => (33 <= c < 65 \/ c = 101)%N) body ->
  parseNumericValue (StrV (body ++ lit " " ++ tys))
  = let parsed := parseFloat (replaceFirst body (lit ",") (lit ".")) in
    if isFinite parsed then (parsed * 1000)%float else 0%float.
Proof.
  intros Hne Hsafe. unfold parseNumericValue.
  rewrite (normalized_text body tys Hne Hsafe (or_intror eq_refl)).
  change (lit ",") with [44%N]. change (lit ".") with [46%N].
  rewrite replaceFirst_char_app by (cbv; intuition discriminate).
  set (text := replaceFirst body [44%N] [46%N]).
  assert (Hin : forall c, (65 <= c)%N -> c <> 101%N -> ~ In c text).
  { intros c Hc Hne' Hin. apply replaceFirst_char_in in Hin as [Hin | Hin].
    - revert Hin. now apply safe_without.
    - cbv in Hin. destruct Hin as [<- | []]. lia. }
  change mln with (1084%N :: [1083%N; 1085%N]).
  rewrite includes_absent.
  2:{ intros H. apply in_app_or in H as [H | H].
      - revert H. apply Hin; lia.
      - cbv in H. intuition discriminate. }
  rewrite includes_suffix.
  change tys with (1090%N :: [1099%N; 1089%N]).
  rewrite replaceFirst_suffix by (apply Hin; lia). now rewrite app_nil_r.
Qed.

End TextFacts.

(** ** Whole thousands and millions written with all their digits *)

Section WholeFacts.
Import JSString JSNumber Content.

Lemma digits_safe (ds : jsstring) :
  Forall (fun c => isDigit c = true) ds ->
  Forall (fun c => (33 <= c < 65 \/ c = 101)%N) ds.
Proof.
  intros H. eapply List.Forall_impl; [|exact H].
  intros c Hc. apply digit_range in Hc. lia.
Qed.

Lemma digits_without (c : N) (ds : jsstring) :
  Forall (fun c => isDigit c = true) ds -> (c < 48 \/ 57 < c)%N -> ~ In c ds.
Proof.
  intros H Hc Hin. rewrite List.Forall_forall in H. specialize (H c Hin).
  apply digit_range in H. lia.
Qed.

Lemma writeTenths_whole (q : Z) :
  0 <= q -> writeTenths (10 * q) = decimal (Z.to_N q).
Proof.
  intros Hq. unfold writeTenths.
  rewrite (Z.mul_comm 10 q), Z.div_mul, Z.mod_mul by lia.
  change (0 =? 0) with true. cbv iota. apply app_nil_r.
Qed.

(** A whole number below [10^21] before a suffix. *)
Lemma formatWithSuffix_whole (sign suffix : jsstring) (q : Z) :
  0 < q < 10 ^ 21 -> representable q ->
  formatWithSuffix sign (ofZ q) suffix
  = sign ++ decimal (Z.to_N q) ++ lit " " ++ suffix.
Proof.
  intros Hq Hrep.
  rewrite (formatWithSuffix_tenths sign suffix (ofZ q) (10 * q)).
  - rewrite writeTenths_whole by lia. reflexivity.
  - now apply finite_integer.
  - destruct (abs_integer q ltac:(lia) Hrep) as [-> _].
    destruct sextillion_shape as (Hc & Hd & Hv).
    rewrite (leb_integer _ _ _ _ q Hc Hd Hv) by (lia || assumption).
    apply Z.leb_gt. lia.
  - now apply ltb_zero_integer.
  - apply nearestTenth_integer; [lia | exact Hrep].
Qed.

(** The compact form of a whole number of millions. *)
Lemma formatCompactNumber_millions (neg : bool) (q : Z) :
  0 < q < 10 ^ 21 -> representable (q * 10 ^ 6) ->
  formatCompactNumber (ofZ (if neg then - (q * 10 ^ 6) else q * 10 ^ 6))
  = (if neg then lit "-" else []) ++ decimal (Z.to_N q) ++ lit " " ++ mln.
Proof.
  intros Hq Hrep.
  pose proof (representable_millions q Hrep) as Hrq.
  assert (Ha : 0 < q * 10 ^ 6) by lia.
  destruct (abs_integer _ Ha Hrep) as [Habs Habs'].
  destruct (ltb_zero_integer _ Ha Hrep) as [Hpos Hneg].
  destruct million_shape as (Hc & Hd & Hv).
  unfold formatCompactNumber.
  replace (PrimFloat.abs (ofZ (if neg then - (q * 10 ^ 6) else q * 10 ^ 6)))
    with (ofZ (q * 10 ^ 6)) by now destruct neg.
  replace (ofZ (if neg then - (q * 10 ^ 6) else q * 10 ^ 6) <? 0)%float with neg
    by now destruct neg.
  rewrite (leb_integer _ _ _ _ _ Hc Hd Hv Ha Hrep).
  replace (10 ^ 6 <=? q * 10 ^ 6) with true by (symmetry; apply Z.leb_le; lia).
  rewrite (div_integer _ _ _ _ q Hc Hv) by (lia || assumption).
  now apply formatWithSuffix_whole.
Qed.

(** The compact form of a whole number of thousands. *)
Lemma formatCompactNumber_thousands (neg : bool) (q : Z) :
  0 < q < 1000 ->
  formatCompactNumber (ofZ (if neg then - (q * 1000) else q * 1000))
  = (if neg then lit "-" else []) ++ decimal (Z.to_N q) ++ lit " " ++ tys.
Proof.
  intros Hq.
  assert (Hrep : representable (q * 1000)) by (apply representable_small; lia).
  pose proof (representable_thousands q Hrep) as Hrq.
  assert (Ha : 0 < q * 1000) by lia.
  destruct (abs_integer _ Ha Hrep) as [Habs Habs'].
  destruct (ltb_zero_integer _ Ha Hrep) as [Hpos Hneg].
  destruct million_shape as (Hc & Hd & Hv).
  destruct thousand_shape as (Hc' & Hd' & Hv').
  unfold formatCompactNumber.
  replace (PrimFloat.abs (ofZ (if neg then - (q * 1000) else q * 1000)))
    with (ofZ (q * 1000)) by now destruct neg.
  replace (ofZ (if neg then - (q * 1000) else q * 1000) <? 0)%float with neg
    by now destruct neg.
  rewrite (leb_integer _ _ _ _ _ Hc Hd Hv Ha Hrep).
  replace (10 ^ 6 <=? q * 1000) with false by (symmetry; apply Z.leb_gt; lia).
  rewrite (leb_integer _ _ _ _ _ Hc' Hd' Hv' Ha Hrep).
  replace (1000 <=? q * 1000) with true by (symmetry; apply Z.leb_le; lia).
  rewrite (div_integer _ _ _ _ q Hc' Hv') by (lia || assumption).
  apply formatWithSuffix_whole; [lia | exact Hrq].
Qed.

(** Reading a whole number with its sign. *)
Lemma parseFloat_whole (neg : bool) (q : Z) :
  0 < q ->
  let body := (if neg then lit "-" else []) ++ decimal (Z.to_N q) in
  body <> []
  /\ Forall (fun c => (33 <= c < 65 \/ c = 101)%N) body
  /\ parseFloat (replaceFirst body (lit ",") (lit "."))
     = ofZ (if neg then - q else q).
Proof.
  intros Hq body.
  pose proof (decimal_digits (Z.to_N q)) as Hds.
  pose proof (decimal_nonempty (Z.to_N q)) as Hne.
  assert (Hsafe : Forall (fun c => (33 <= c < 65 \/ c = 101)%N) body).
  { subst body. apply Forall_app. split; [|now apply digits_safe].
    destruct neg; [change (lit "-") with [45%N]; repeat constructor; lia|].
    constructor. }
  split; [|split; [exact Hsafe|]].
  - subst body. destruct neg; [discriminate|]. exact Hne.
  - change (lit ",") with [44%N].
    rewrite replaceFirst_absent_char.
    2:{ subst body. intros H. apply in_app_or in H as [H | H].
        - destruct neg; cbv in H; intuition discriminate.
        - revert H. apply digits_without; [exact Hds | lia]. }
    destruct (parseFloat_digits _ Hds Hne) as [Hplus Hminus].
    rewrite digitsValue_decimal, Z2N.id in Hplus, Hminus by lia.
    subst body. unfold ofZ. destruct neg.
    + change (lit "-" ++ decimal (Z.to_N q)) with (45%N :: decimal (Z.to_N q)).
      rewrite Hminus. replace (- q <? 0) with true by (symmetry; apply Z.ltb_lt; lia).
      now replace (Z.abs (- q)) with q by lia.
    + simpl app. rewrite Hplus.
      replace (q <? 0) with false by (symmetry; apply Z.ltb_ge; lia).
      now replace (Z.abs q) with q by lia.
Qed.

Lemma finite_signed (neg : bool) (q : Z) :
  0 < q -> representable q -> isFinite (ofZ (if neg then - q else q)) = true.
Proof. intros Hq Hrep. destruct neg; now apply finite_integer. Qed.

(** Whole millions below [10^27] come back. *)
Lemma roundTrip_millions_signed (neg : bool) (q : Z) :
  0 < q < 10 ^ 21 -> representable (q * 10 ^ 6) ->
  roundTrip (if neg then - (q * 10 ^ 6) else q * 10 ^ 6)
  = ofZ (if neg then - (q * 10 ^ 6) else q * 10 ^ 6).
Proof.
  intros Hq Hrep. pose proof (representable_millions q Hrep) as Hrq.
  unfold roundTrip. rewrite (formatCompactNumber_millions neg q Hq Hrep).
  destruct (parseFloat_whole neg q ltac:(lia)) as (Hne & Hsafe & Hparse).
  rewrite app_assoc.
  rewrite parse_millions by assumption. cbv zeta. rewrite Hparse.
  rewrite finite_signed by (lia || assumption).
  destruct million_shape as (Hc & _ & Hv).
  destruct (mul_integer _ _ _ _ q Hc Hv ltac:(lia) ltac:(lia) Hrq Hrep) as [Hp Hm].
  now destruct neg.
Qed.

(** Whole thousands come back. *)
Lemma roundTrip_thousands_signed (neg : bool) (q : Z) :
  0 < q < 1000 ->
  roundTrip (if neg then - (q * 1000) else q * 1000)
  = ofZ (if neg then - (q * 1000) else q * 1000).
Proof.
  intros Hq.
  assert (Hrep : representable (q * 1000)) by (apply representable_small; lia).
  pose proof (representable_thousands q Hrep) as Hrq.
  unfold roundTrip. rewrite (formatCompactNumber_thousands neg q Hq).
  destruct (parseFloat_whole neg q ltac:(lia)) as (Hne & Hsafe & Hparse).
  rewrite app_assoc.
  rewrite parse_thousands by assumption. cbv zeta. rewrite Hparse.
  rewrite finite_signed by (lia || assumption).
  destruct thousand_shape as (Hc & _ & Hv).
  destruct (mul_integer _ _ _ _ q Hc Hv ltac:(lia) ltac:(lia) Hrq Hrep) as [Hp Hm].
  now destruct neg.
Qed.

(** A multiple, by its sign and the absolute value of its quotient. *)
Lemma signed_multiple (n C : Z) :
  0 < C -> (C | n) -> n <> 0 ->
  exists q,
    0 < q /\ Z.abs n = q * C
    /\ n = (if n <? 0 then - (q * C) else q * C).
Proof.
  intros HC [k ->] Hn. exists (Z.abs k). rewrite Z.abs_mul, (Z.abs_eq C) by lia.
  split; [nia | split; [reflexivity|]].
  destruct (Z.ltb_spec (k * C) 0); nia.
Qed.

End WholeFacts.

(** ** The number of decimal digits *)

Section ExponentFacts.
Import JSString JSNumber Content.

Lemma belowPow10_integer (q j : Z) :
  0 < q -> belowPow10 q 1 j = true <-> 0 < j /\ q < 10 ^ j.
Proof.
  intros Hq. unfold belowPow10. rewrite Z.ltb_lt, Z.mul_1_r.
  destruct (Z.le_gt_cases j 0) as [Hj | Hj].
  - rewrite (Z.max_l (- j) 0), (Z.max_r j 0) by lia. change (10 ^ 0) with 1.
    assert (0 < 10 ^ (- j)) by (apply Z.pow_pos_nonneg; lia).
    split; [nia | lia].
  - rewrite (Z.max_r (- j) 0), (Z.max_l j 0) by lia. change (10 ^ 0) with 1.
    rewrite Z.mul_1_r. split; [now split | tauto].
Qed.

(** The estimate of the number of decimal digits from the number of binary
    ones is at most four short, and never too long: checked for every number
    of binary digits up to 1024, each power got from the one before. *)
Lemma estimate_checked : estimateChecked 1016 = true.
Proof. vm_compute. reflexivity. Qed.

Lemma estimate_step (l : Z) :
  0 <= l ->
  let e := l * 30103 / 100000 in
  let e' := (l + 1) * 30103 / 100000 in
  e' = e \/ e' = e + 1.
Proof.
  intros Hl e e'. subst e e'.
  pose proof (Z.div_mod (l * 30103) 100000 ltac:(lia)) as H1.
  pose proof (Z.mod_pos_bound (l * 30103) 100000 ltac:(lia)) as B1.
  pose proof (Z.div_mod ((l + 1) * 30103) 100000 ltac:(lia)) as H2.
  pose proof (Z.mod_pos_bound ((l + 1) * 30103) 100000 ltac:(lia)) as B2.
  lia.
Qed.

Lemma estimate_invariant (k : nat) :
  let '(l, p2, e, p10, ok) := Nat.iter k estimateStep (7, 128, 2, 1, true) in
  l = 7 + Z.of_nat k
  /\ p2 = 2 ^ l
  /\ e = l * 30103 / 100000
  /\ p10 = 10 ^ (e - 2)
  /\ (ok = true ->
      forall j, 7 <= j <= l ->
        10 ^ (j * 30103 / 100000 - 2) <= 2 ^ j
        /\ 2 ^ (j + 1) <= 10 ^ (j * 30103 / 100000 + 3)).
Proof.
  induction k as [|k IH].
  - cbn [Nat.iter].
    split; [reflexivity | split; [reflexivity | split; [reflexivity |
      split; [reflexivity|]]]].
    intros _ j Hj. assert (j = 7) as -> by lia. vm_compute. split; discriminate.
  - change (Nat.iter (S k) estimateStep (7, 128, 2, 1, true))
      with (estimateStep (Nat.iter k estimateStep (7, 128, 2, 1, true))).
    destruct (Nat.iter k estimateStep (7, 128, 2, 1, true)) as [[[[l p2] e] p10] ok].
    destruct IH as (Hl & Hp2 & He & Hp10 & Hok).
    unfold estimateStep. cbv beta iota zeta.
    assert (Hl0 : 7 <= l) by lia.
    pose proof (estimate_step l ltac:(lia)) as Hstep. cbv zeta in Hstep.
    rewrite <- He in Hstep. destruct Hstep as [Hsame | Hnext].
    + rewrite Hsame, Z.eqb_refl.
      split; [lia | split; [|split; [reflexivity | split; [exact Hp10|]]]].
      * rewrite Hp2. rewrite Z.pow_add_r by lia. change (2 ^ 1) with 2. ring.
      * intros H. apply andb_true_iff in H as [H H2]. apply andb_true_iff in H as [H H1].
        apply Z.leb_le in H1, H2. intros j Hj.
        destruct (Z.eq_dec j (l + 1)) as [-> | Hne]; [|apply (Hok H); lia].
        rewrite Hsame. rewrite <- Hp10.
        replace (2 ^ (l + 1)) with (2 * p2)
          by (rewrite Hp2, Z.pow_add_r by lia; change (2 ^ 1) with 2; ring).
        split; [exact H1|].
        replace (2 ^ (l + 1 + 1)) with (2 * (2 * p2))
          by (rewrite Hp2, !Z.pow_add_r by lia; change (2 ^ 1) with 2; ring).
        replace (e + 3) with (5 + (e - 2)) by lia.
        assert (0 <= e - 2).
        { rewrite He. assert (2 <= l * 30103 / 100000) by (apply Z.div_le_lower_bound; lia). lia. }
        rewrite Z.pow_add_r, <- Hp10 by lia. exact H2.
    + rewrite Hnext. replace (e + 1 =? e) with false by (symmetry; apply Z.eqb_neq; lia).
      assert (He2 : 0 <= e - 2).
      { rewrite He. assert (2 <= l * 30103 / 100000) by (apply Z.div_le_lower_bound; lia). lia. }
      assert (Hp10' : 10 * p10 = 10 ^ (e + 1 - 2)).
      { rewrite Hp10. replace (e + 1 - 2) with (1 + (e - 2)) by lia.
        now rewrite Z.pow_add_r by lia. }
      split; [lia | split; [|split; [reflexivity | split; [exact Hp10'|]]]].
      * rewrite Hp2. rewrite Z.pow_add_r by lia. change (2 ^ 1) with 2. ring.
      * intros H. apply andb_true_iff in H as [H H2]. apply andb_true_iff in H as [H H1].
        apply Z.leb_le in H1, H2. intros j Hj.
        destruct (Z.eq_dec j (l + 1)) as [-> | Hne]; [|apply (Hok H); lia].
        rewrite Hnext. rewrite <- Hp10'.
        replace (2 ^ (l + 1)) with (2 * p2)
          by (rewrite Hp2, Z.pow_add_r by lia; change (2 ^ 1) with 2; ring).
        split; [exact H1|].
        replace (2 ^ (l + 1 + 1)) with (2 * (2 * p2))
          by (rewrite Hp2, !Z.pow_add_r by lia; change (2 ^ 1) with 2; ring).
        replace (e + 1 + 3) with (5 + (e + 1 - 2)) by lia.
        rewrite Z.pow_add_r, <- Hp10' by lia. exact H2.
Qed.

Lemma estimate_sound (k : nat) :
  estimateChecked k = true ->
  forall j, 7 <= j <= 7 + Z.of_nat k ->
    10 ^ (j * 30103 / 100000 - 2) <= 2 ^ j
    /\ 2 ^ (j + 1) <= 10 ^ (j * 30103 / 100000 + 3).
Proof.
  unfold estimateChecked. pose proof (estimate_invariant k) as H.
  destruct (Nat.iter k estimateStep (7, 128, 2, 1, true)) as [[[[l p2] e] p10] ok].
  destruct H as (Hl & _ & _ & _ & Hok). cbn [snd]. intros Hc j Hj.
  apply (Hok Hc). lia.
Qed.

Lemma estimate_bounds (L : Z) :
  0 <= L < 1024 ->
  let est := L * 30103 / 100000 - 1 in
  10 ^ (est - 1) <= 2 ^ L /\ 2 ^ (L + 1) <= 10 ^ (est + 4).
Proof.
  intros HL est. subst est.
  replace (L * 30103 / 100000 - 1 - 1) with (L * 30103 / 100000 - 2) by lia.
  replace (L * 30103 / 100000 - 1 + 4) with (L * 30103 / 100000 + 3) by lia.
  destruct (Z.lt_ge_cases L 7) as [Hsmall | Hlarge].
  - assert (L = 0 \/ L = 1 \/ L = 2 \/ L = 3 \/ L = 4 \/ L = 5 \/ L = 6) as H by lia.
    repeat (destruct H as [-> | H]; [vm_compute; split; discriminate|]).
    subst L. vm_compute. split; discriminate.
  - apply (estimate_sound 1016 estimate_checked). lia.
Qed.

(** The number of decimal digits of a positive integer below [2^1024]. *)
Lemma decimalExponent_integer (q : Z) :
  0 < q < 2 ^ 1024 ->
  let n := decimalExponent q 1 in
  0 < n /\ 10 ^ (n - 1) <= q < 10 ^ n.
Proof.
  intros Hq n.
  assert (HL : 0 <= Z.log2 q < 1024).
  { split; [apply Z.log2_nonneg|]. apply Z.log2_lt_pow2; lia. }
  pose proof (Z.log2_spec q ltac:(lia)) as Hlog.
  destruct (estimate_bounds (Z.log2 q) HL) as [Hlow Hhigh].
  replace (Z.succ (Z.log2 q)) with (Z.log2 q + 1) in Hlog by lia.
  subst n. unfold decimalExponent. change (Z.log2 1) with 0. rewrite Z.sub_0_r.
  set (est := Z.log2 q * 30103 / 100000 - 1) in *.
  assert (Hnot : forall j, belowPow10 q 1 j = false -> 0 < j + 1 -> 10 ^ j <= q).
  { intros j Hj Hpos. destruct (Z.eq_dec j 0) as [-> | Hne]; [simpl; lia|].
    destruct (Z.lt_ge_cases q (10 ^ j)) as [Hlt | Hge]; [|exact Hge].
    assert (belowPow10 q 1 j = true) by (apply belowPow10_integer; lia).
    congruence. }
  assert (Hfirst : belowPow10 q 1 (est - 1) = false).
  { destruct (belowPow10 q 1 (est - 1)) eqn:E; [|reflexivity].
    apply belowPow10_integer in E; lia. }
  assert (Hlast : belowPow10 q 1 (est + 4) = true).
  { apply belowPow10_integer; [lia|]. split; [|lia].
    assert (0 <= Z.log2 q * 30103 / 100000) by (apply Z.div_pos; lia).
    subst est. lia. }
  assert (Hfound : forall j, belowPow10 q 1 j = true -> belowPow10 q 1 (j - 1) = false ->
                   0 < j /\ 10 ^ (j - 1) <= q < 10 ^ j).
  { intros j Hj Hj'. apply belowPow10_integer in Hj as [Hpos Hlt]; [|lia].
    split; [exact Hpos|]. split; [|exact Hlt]. apply Hnot; [exact Hj' | lia]. }
  cbn [searchExponent].
  destruct (belowPow10 q 1 est) eqn:E0; [now apply Hfound|].
  destruct (belowPow10 q 1 (est + 1)) eqn:E1.
  { apply Hfound; [exact E1|]. now replace (est + 1 - 1) with est by lia. }
  destruct (belowPow10 q 1 (est + 1 + 1)) eqn:E2.
  { apply Hfound; [exact E2|]. now replace (est + 1 + 1 - 1) with (est + 1) by lia. }
  destruct (belowPow10 q 1 (est + 1 + 1 + 1)) eqn:E3.
  { apply Hfound; [exact E3|].
    now replace (est + 1 + 1 + 1 - 1) with (est + 1 + 1) by lia. }
  replace (est + 1 + 1 + 1 + 1) with (est + 4) by lia.
  apply Hfound; [exact Hlast|].
  now replace (est + 4 - 1) with (est + 1 + 1 + 1) by lia.
Qed.

End ExponentFacts.

(** ** The shortest digits of an integer *)

Section ShortestFacts.
Import JSString JSNumber Content.

Lemma eqb_finite (y x : float) (s : bool) (m : positive) (e : Z) :
  Prim2SF x = S754_finite s m e -> (y =? x)%float = true -> y = x.
Proof.
  intros Hx H. rewrite FloatAxioms.eqb_spec, Hx in H. unfold SFeqb in H.
  apply Prim2SF_inj. rewrite Hx.
  destruct (Prim2SF y) as [sy|sy| |sy my ey]; simpl in H;
    try discriminate H; try (destruct sy, s; discriminate H).
  assert (Hsame : sy = s /\ match ey ?= e with Eq => Pos.compare_cont Eq my m | c => c end = Eq).
  { destruct sy, s; try discriminate H; split; try reflexivity;
      destruct (ey ?= e); try discriminate H;
      destruct (Pos.compare_cont Eq my m); try discriminate H; reflexivity. }
  destruct Hsame as [-> Hc].
  destruct (Z.compare_spec ey e) as [Heq | _ | _]; try discriminate Hc.
  rewrite Pos.compare_cont_spec in Hc.
  destruct (Pos.compare_spec my m) as [Hm | _ | _]; try discriminate Hc.
  now subst.
Qed.

Lemma eqb_refl_finite (x : float) (s : bool) (m : positive) (e : Z) :
  Prim2SF x = S754_finite s m e -> (x =? x)%float = true.
Proof.
  intros Hx. rewrite FloatAxioms.eqb_spec, Hx. unfold SFeqb.
  now rewrite SFcompare_refl_finite.
Qed.

Lemma shortestDigits_step (fuel : nat) (x : float) (vp vq n k : Z) :
  shortestDigits (S fuel) x vp vq n k
  = let up := 10 ^ Z.max (n - k) 0 in
    let down := 10 ^ Z.max (k - n) 0 in
    let lo := (vp * down) / (vq * up) in
    let hi := lo + 1 in
    let ok c := (0 <? c) && (roundRatio false (c * up) down =? x)%float in
    let nearerLo := 2 * vp * down <=? (2 * lo + 1) * up * vq in
    let found c := if c =? 10 ^ k then (1, 1, n + 1) else (c, k, n) in
    if ok lo && (nearerLo || negb (ok hi)) then found lo
    else if ok hi then found hi
    else shortestDigits fuel x vp vq n (k + 1).
Proof. reflexivity. Qed.

Lemma pow10_pos (k : Z) : 0 <= k -> 0 < 10 ^ k.
Proof. intros Hk. apply Z.pow_pos_nonneg; lia. Qed.

Lemma pow10_split (a b : Z) : 0 <= a -> 0 <= b -> 10 ^ (a + b) = 10 ^ a * 10 ^ b.
Proof. intros. now apply Z.pow_add_r. Qed.

(** The shortest digits of a double that is an integer: they have the
    length they are said to have, and the number they write rounds to the
    double. *)
Lemma shortestDigits_integer (fuel : nat) (x : float) (M : positive) (E : Z)
  (q n k : Z) :
  Prim2SF x = S754_finite false M E ->
  roundRatio false q 1 = x ->
  0 < q -> 10 ^ (n - 1) <= q < 10 ^ n -> 1 <= k <= n -> n - k < Z.of_nat fuel ->
  exists s k' n',
    shortestDigits fuel x q 1 n k = (s, k', n')
    /\ 1 <= k' <= n' /\ n <= n'
    /\ 10 ^ (k' - 1) <= s < 10 ^ k'
    /\ roundRatio false (s * 10 ^ (n' - k')) 1 = x.
Proof.
  intros Hx Hq Hpos Hn. revert k.
  induction fuel as [|fuel IH]; intros k Hk Hfuel; [simpl in Hfuel; lia|].
  rewrite shortestDigits_step.
  rewrite (Z.max_l (n - k) 0), (Z.max_r (k - n) 0) by lia.
  change (10 ^ 0) with 1. cbv zeta. rewrite !Z.mul_1_r, !Z.mul_1_l.
  set (up := 10 ^ (n - k)).
  assert (Hup : 0 < up) by (apply pow10_pos; lia).
  assert (Hupk : up * 10 ^ k = 10 ^ n).
  { subst up. rewrite <- pow10_split by lia. f_equal. lia. }
  assert (Hupk' : up * 10 ^ (k - 1) = 10 ^ (n - 1)).
  { subst up. rewrite <- pow10_split by lia. f_equal. lia. }
  set (lo := q / up).
  assert (Hlo : 10 ^ (k - 1) <= lo < 10 ^ k).
  { subst lo. split.
    - apply Z.div_le_lower_bound; [exact Hup | lia].
    - apply Z.div_lt_upper_bound; [exact Hup | lia]. }
  assert (Hk1 : 0 < 10 ^ (k - 1)) by (apply pow10_pos; lia).
  destruct ((0 <? lo) && (roundRatio false (lo * up) 1 =? x)%float) eqn:Hoklo.
  - destruct ((2 * q <=? (2 * lo + 1) * up)
              || negb ((0 <? lo + 1) && (roundRatio false ((lo + 1) * up) 1 =? x)%float))
      eqn:Hnear; cbn [andb].
    + replace (lo =? 10 ^ k) with false by (symmetry; apply Z.eqb_neq; lia).
      exists lo, k, n. split; [reflexivity|].
      split; [lia | split; [lia | split; [exact Hlo|]]].
      apply andb_true_iff in Hoklo as [_ Heq]. exact (eqb_finite _ _ _ _ _ Hx Heq).
    + apply orb_false_iff in Hnear as [_ Hhi]. apply negb_false_iff in Hhi.
      rewrite Hhi. apply andb_true_iff in Hhi as [_ Heq].
      apply (eqb_finite _ _ _ _ _ Hx) in Heq.
      destruct (Z.eqb_spec (lo + 1) (10 ^ k)) as [Htop | Htop].
      * exists 1, 1, (n + 1). split; [reflexivity|].
        split; [lia | split; [lia | split; [simpl; lia|]]].
        rewrite <- Heq, Htop. f_equal. rewrite Z.mul_1_l, Z.mul_comm, Hupk.
        f_equal. lia.
      * exists (lo + 1), k, n. split; [reflexivity|].
        split; [lia | split; [lia | split; [lia | exact Heq]]].
  - cbn [andb].
    assert (Hkn : k < n).
    { destruct (Z.eq_dec k n) as [-> | Hne]; [|lia]. exfalso.
      subst lo up. rewrite Z.sub_diag in Hoklo. change (10 ^ 0) with 1 in Hoklo.
      rewrite Z.div_1_r, Z.mul_1_r, Hq in Hoklo.
      rewrite (eqb_refl_finite x _ _ _ Hx) in Hoklo.
      apply andb_false_iff in Hoklo as [H | H]; [|discriminate H].
      apply Z.ltb_ge in H. lia. }
    destruct ((0 <? lo + 1) && (roundRatio false ((lo + 1) * up) 1 =? x)%float) eqn:Hhi.
    + apply andb_true_iff in Hhi as [_ Heq].
      apply (eqb_finite _ _ _ _ _ Hx) in Heq.
      destruct (Z.eqb_spec (lo + 1) (10 ^ k)) as [Htop | Htop].
      * exists 1, 1, (n + 1). split; [reflexivity|].
        split; [lia | split; [lia | split; [simpl; lia|]]].
        rewrite <- Heq, Htop. f_equal. rewrite Z.mul_1_l, Z.mul_comm, Hupk.
        f_equal. lia.
      * exists (lo + 1), k, n. split; [reflexivity|].
        split; [lia | split; [lia | split; [lia | exact Heq]]].
    + apply IH; lia.
Qed.

End ShortestFacts.

(** ** Exponent notation *)

Section NotationFacts.
Import JSString JSNumber Content.

Lemma decimal_length (k : nat) (s : N) :
  (10 ^ N.of_nat k <= s < 10 ^ N.of_nat (S k))%N -> length (decimal s) = S k.
Proof.
  revert s. induction k as [|k IH]; intros s Hs.
  - change (10 ^ N.of_nat 1)%N with 10%N in Hs. now rewrite decimal_small.
  - rewrite !Nat2N.inj_succ, !N.pow_succ_r' in Hs.
    assert (Hten : (10 <= s)%N).
    { assert (10 ^ N.of_nat k <> 0)%N by (apply N.pow_nonzero; lia). lia. }
    rewrite decimal_step, length_app by exact Hten.
    rewrite IH; [simpl; lia|]. rewrite Nat2N.inj_succ, N.pow_succ_r'. split.
    + apply N.div_le_lower_bound; lia.
    + apply N.Div0.div_lt_upper_bound. lia.
Qed.

Lemma decimal_length_Z (k s : Z) :
  1 <= k -> 10 ^ (k - 1) <= s < 10 ^ k ->
  length (decimal (Z.to_N s)) = Z.to_nat k.
Proof.
  intros Hk Hs.
  assert (H0 : 0 < 10 ^ (k - 1)) by (apply Z.pow_pos_nonneg; lia).
  replace (Z.to_nat k) with (S (Z.to_nat (k - 1))) by lia.
  apply decimal_length.
  rewrite <- (Z2N.id s) in Hs by lia. split.
  - apply N2Z.inj_le. rewrite N2Z.inj_pow, nat_N_Z, Z2Nat.id by lia. apply Hs.
  - apply N2Z.inj_lt. rewrite N2Z.inj_pow, nat_N_Z.
    replace (Z.of_nat (S (Z.to_nat (k - 1)))) with k by lia. apply Hs.
Qed.

Lemma pow10_lt_inv (a b : Z) : 0 <= b -> 10 ^ a < 10 ^ b -> a < b.
Proof.
  intros Hb H. destruct (Z.lt_ge_cases a b) as [Hlt | Hge]; [exact Hlt|].
  assert (10 ^ b <= 10 ^ a) by (apply Z.pow_le_mono_r; lia). lia.
Qed.

Lemma representable_bound (q : Z) : representable q -> Z.abs q < 2 ^ 1024.
Proof.
  intros (m & e & -> & Hm & He). rewrite Z.abs_mul.
  assert (Hp : 0 < 2 ^ e) by (apply Z.pow_pos_nonneg; lia).
  rewrite (Z.abs_eq (2 ^ e)) by lia.
  assert (2 ^ e <= 2 ^ 971) by (apply Z.pow_le_mono_r; lia).
  change (2 ^ 1024) with (2 ^ 53 * 2 ^ 971). nia.
Qed.

(** What [String] writes for an integer from [10^21] on: a digit, the other
    digits after a point if there are any, and the exponent; read as a
    decimal, it rounds to the same double. *)
Lemma toString_exponent (q : Z) :
  10 ^ 21 <= q -> representable q ->
  exists d rest ex,
    Forall (fun c => isDigit c = true) (d :: rest)
    /\ Forall (fun c => isDigit c = true) ex
    /\ (2 <= length ex)%nat
    /\ 0 <= digitsValue ex - Z.of_nat (length rest)
    /\ toString (ofZ q)
       = d :: match rest with [] => [] | _ => 46%N :: rest end ++ 101%N :: 43%N :: ex
    /\ roundRatio false
         (digitsValue (d :: rest) * 10 ^ (digitsValue ex - Z.of_nat (length rest))) 1
       = ofZ q.
Proof.
  intros Hq Hrep.
  assert (Hpos : 0 < q) by lia.
  destruct (ofZ_exact q Hpos Hrep) as (M & E & Hb & Hd & Hval & Hx & _).
  pose proof (valid_exponent M E Hb) as BE.
  pose proof (digits_bounds M) as BM. rewrite Hd in BM.
  pose proof (representable_bound q Hrep) as Hbig. rewrite Z.abs_eq in Hbig by lia.
  assert (HE : 0 <= E).
  { destruct (Z.le_gt_cases 0 E) as [H | H]; [exact H | exfalso].
    unfold ulps in Hval.
    assert (2 ^ (E + 1074) <= 2 ^ 1073) by (apply Z.pow_le_mono_r; lia).
    assert (0 < 2 ^ (E + 1074)) by (apply Z.pow_pos_nonneg; lia).
    change (2 ^ 1074) with (2 * 2 ^ 1073) in Hval.
    assert (Hsmall : q < 2 ^ 52) by nia.
    change (2 ^ 52) with 4503599627370496 in Hsmall.
    change (10 ^ 21) with 1000000000000000000000 in Hq. lia. }
  assert (Hvp : Z.pos M * 2 ^ Z.max E 0 = q).
  { rewrite Z.max_l by lia. unfold ulps in Hval.
    rewrite Z.pow_add_r, Z.mul_assoc in Hval by lia.
    apply Z.mul_cancel_r in Hval; [exact Hval|]. apply Z.pow_nonzero; lia. }
  destruct (decimalExponent_integer q ltac:(lia)) as (Hn0 & Hdigits).
  set (n0 := decimalExponent q 1) in *.
  assert (Hn21 : 21 < n0) by (apply pow10_lt_inv; lia).
  assert (Hn309 : n0 - 1 < 309).
  { apply pow10_lt_inv; [lia|].
    apply Z.le_lt_trans with q; [lia|].
    apply Z.lt_trans with (2 ^ 1024); [exact Hbig | reflexivity]. }
  assert (Hof : roundRatio false q 1 = ofZ q).
  { unfold ofZ. rewrite Z.abs_eq by lia.
    now replace (q <? 0) with false by (symmetry; apply Z.ltb_ge; lia). }
  destruct (shortestDigits_integer 767 (ofZ q) M E q n0 1 Hx Hof Hpos Hdigits
              ltac:(lia) ltac:(lia))
    as (s & k & n & Hshort & Hk & Hn & Hs & Hround).
  assert (Hlen : length (decimal (Z.to_N s)) = Z.to_nat k)
    by (apply decimal_length_Z; lia).
  pose proof (decimal_digits (Z.to_N s)) as Hds.
  assert (Hs0 : 0 < 10 ^ (k - 1)) by (apply Z.pow_pos_nonneg; lia).
  assert (Hvalue : digitsValue (decimal (Z.to_N s)) = s)
    by (rewrite digitsValue_decimal; lia).
  set (ex := decimal (Z.to_N (n - 1))).
  assert (Hex : Forall (fun c => isDigit c = true) ex) by apply decimal_digits.
  assert (Hexv : digitsValue ex = n - 1)
    by (subst ex; rewrite digitsValue_decimal; lia).
  assert (Hexl : (2 <= length ex)%nat).
  { subst ex. rewrite decimal_step by lia. rewrite length_app. simpl.
    pose proof (decimal_nonempty (Z.to_N (n - 1) / 10)) as Hne.
    destruct (decimal (Z.to_N (n - 1) / 10)); [contradiction | simpl; lia]. }
  assert (Hstring : toString (ofZ q)
            = if k =? 1 then decimal (Z.to_N s) ++ 101%N :: 43%N :: ex
              else take 1 (decimal (Z.to_N s)) ++ 46%N
                     :: drop 1 (decimal (Z.to_N s)) ++ 101%N :: 43%N :: ex).
  { unfold toString, exact. rewrite Hx.
    destruct (abs_integer q Hpos Hrep) as [-> _].
    rewrite Z.max_l by lia.
    replace (2 ^ Z.max (- E) 0) with 1 by (rewrite Z.max_r by lia; reflexivity).
    rewrite Z.max_l in Hvp by lia. rewrite Hvp. fold n0. rewrite Hshort.
    replace (n <=? 21) with false by (symmetry; apply Z.leb_gt; lia).
    replace (n <=? 0) with false by (symmetry; apply Z.leb_gt; lia).
    rewrite !andb_false_r.
    unfold signedExponent.
    replace (n - 1 <? 0) with false by (symmetry; apply Z.ltb_ge; lia).
    rewrite (Z.abs_eq (n - 1)) by lia. fold ex.
    change (lit "e") with [101%N]. change (lit "+") with [43%N].
    change (lit ".") with [46%N]. cbn [app].
    destruct (k =? 1); reflexivity. }
  destruct (decimal (Z.to_N s)) as [|d rest] eqn:Hdec; [simpl in Hlen; lia|].
  exists d, rest, ex.
  split; [exact Hds | split; [exact Hex | split; [exact Hexl|]]].
  simpl in Hlen.
  assert (Hrest : Z.of_nat (length rest) = k - 1) by lia.
  rewrite Hexv, Hrest.
  split; [lia | split].
  - rewrite Hstring. destruct (Z.eqb_spec k 1) as [-> | Hk1].
    + destruct rest; [reflexivity | simpl in Hrest; lia].
    + destruct rest as [|r rest]; [simpl in Hrest; lia|]. reflexivity.
  - rewrite Hvalue. replace (n - 1 - (k - 1)) with (n - k) by lia. exact Hround.
Qed.

End NotationFacts.

(** ** Writing and reading exponent notation *)

Section LargeFacts.
Import JSString JSNumber Content.

Lemma dropPointZero_digits (pre ex : jsstring) :
  Forall (fun c => isDigit c = true) ex -> (2 <= length ex)%nat ->
  dropPointZero (pre ++ ex) = pre ++ ex.
Proof.
  intros Hex Hlen. unfold dropPointZero, endsWith. rewrite rev_app_distr.
  destruct (rev ex) as [|c2 [|c1 t]] eqn:Hrev;
    try (apply (f_equal (@length N)) in Hrev; rewrite length_rev in Hrev;
         simpl in Hrev; lia).
  assert (Hc1 : isDigit c1 = true).
  { rewrite List.Forall_forall in Hex. apply Hex, in_rev. rewrite Hrev. simpl. auto. }
  apply digit_range in Hc1.
  change (rev (lit ".0")) with [48%N; 46%N]. cbn [app startsWith].
  replace (46 =? c1)%N with false by (symmetry; apply N.eqb_neq; lia).
  now rewrite andb_false_r.
Qed.

(** A number from [10^21] on before a suffix: as [String] writes it, with a
    comma for the point. *)
Lemma formatWithSuffix_exponent (sign suffix : jsstring) (q : Z) (d : N)
  (rest ex : jsstring) :
  10 ^ 21 <= q -> representable q ->
  Forall (fun c => isDigit c = true) (d :: rest) ->
  Forall (fun c => isDigit c = true) ex -> (2 <= length ex)%nat ->
  toString (ofZ q)
  = d :: match rest with [] => [] | _ => 46%N :: rest end ++ 101%N :: 43%N :: ex ->
  formatWithSuffix sign (ofZ q) suffix
  = sign ++ (d :: match rest with [] => [] | _ => 44%N :: rest end
               ++ 101%N :: 43%N :: ex) ++ lit " " ++ suffix.
Proof.
  intros Hq Hrep Hds Hex Hlen Hstring.
  assert (Hpos : 0 < q) by lia.
  assert (Hfixed : toFixed (ofZ q) 1 = toString (ofZ q)).
  { unfold toFixed. destruct (exact (ofZ q)) as [[[neg m] e]|]; [|reflexivity].
    destruct (abs_integer q Hpos Hrep) as [-> _].
    destruct sextillion_shape as (Hc & Hd & Hv).
    rewrite (leb_integer _ _ _ _ q Hc Hd Hv Hpos Hrep).
    now replace (10 ^ 21 <=? q) with true by (symmetry; apply Z.leb_le; lia). }
  unfold formatWithSuffix. rewrite Hfixed, Hstring. do 2 f_equal.
  set (tail := 101%N :: 43%N :: ex).
  assert (Hd : (48 <= d <= 57)%N) by (apply digit_range; now inversion Hds).
  assert (Hrest : Forall (fun c => isDigit c = true) rest) by now inversion Hds.
  change (lit ".") with [46%N]. change (lit ",") with [44%N].
  replace (d :: match rest with [] => [] | _ => 46%N :: rest end ++ tail)
    with ((d :: match rest with [] => [] | _ => 46%N :: rest end ++ [101%N; 43%N]) ++ ex)
    by (subst tail; destruct rest; simpl; rewrite <- ?app_assoc; reflexivity).
  rewrite dropPointZero_digits by assumption.
  replace ((d :: match rest with [] => [] | _ => 46%N :: rest end ++ [101%N; 43%N]) ++ ex)
    with (d :: match rest with [] => [] | _ => 46%N :: rest end ++ tail)
    by (subst tail; destruct rest; simpl; rewrite <- ?app_assoc; reflexivity).
  destruct rest as [|r rest].
  - apply replaceFirst_absent_char. subst tail. simpl.
    intros [H | [H | [H | H]]]; try lia.
    revert H. apply digits_without; [exact Hex | lia].
  - change (d :: (46%N :: r :: rest) ++ tail)
      with ([d] ++ [46%N] ++ ((r :: rest) ++ tail)).
    rewrite replaceFirst_found; [reflexivity|].
    simpl. intros [H | []]. lia.
Qed.

Lemma takeExponent_plus (ex : jsstring) :
  Forall (fun c => isDigit c = true) ex -> ex <> [] ->
  takeExponent (101%N :: 43%N :: ex) = digitsValue ex.
Proof.
  intros Hex Hne. unfold takeExponent.
  change ((101 =? 101)%N || (101 =? 69)%N) with true. cbv iota.
  cbn [takeSign].
  pose proof (takeDigits_all ex [] Hex I) as Htake. rewrite app_nil_r in Htake.
  rewrite Htake. cbn [fst]. destruct ex; [contradiction | reflexivity].
Qed.

(** [parseFloat] on a number in exponent notation. *)
Lemma parseFloat_exponent (neg : bool) (d : N) (rest ex : jsstring) :
  Forall (fun c => isDigit c = true) (d :: rest) ->
  Forall (fun c => isDigit c = true) ex -> ex <> [] ->
  0 <= digitsValue ex - Z.of_nat (length rest) ->
  parseFloat ((if neg then lit "-" else [])
              ++ d :: match rest with [] => [] | _ => 46%N :: rest end
              ++ 101%N :: 43%N :: ex)
  = roundRatio neg
      (digitsValue (d :: rest) * 10 ^ (digitsValue ex - Z.of_nat (length rest))) 1.
Proof.
  intros Hds Hex Hne He.
  assert (Hd : (48 <= d <= 57)%N) by (apply digit_range; now inversion Hds).
  assert (Hrest : Forall (fun c => isDigit c = true) rest) by now inversion Hds.
  set (tail := 101%N :: 43%N :: ex).
  set (body := d :: match rest with [] => [] | _ => 46%N :: rest end ++ tail).
  assert (Hsign : takeSign (trimStart ((if neg then lit "-" else []) ++ body))
                  = (neg, body)).
  { destruct neg.
    - change (lit "-" ++ body) with (45%N :: body).
      now rewrite trimStart_fixed by reflexivity.
    - simpl app. subst body.
      rewrite trimStart_fixed by (apply isWhiteSpace_printable; lia).
      apply takeSign_other; lia. }
  assert (Hinf : startsWith body (lit "Infinity") = false).
  { change (lit "Infinity") with (73%N :: lit "nfinity"). subst body.
    apply startsWith_other. lia. }
  unfold parseFloat. rewrite Hsign, Hinf.
  assert (Hparts : takeDigits body
                   = ([d], match rest with [] => [] | _ => 46%N :: rest end ++ tail)
                   /\ (let rest0 := match rest with [] => [] | _ => 46%N :: rest end ++ tail in
                       match rest0 with
                       | 46%N :: r => takeDigits r
                       | _ => ([], rest0)
                       end) = (rest, tail)).
  { assert (Hone : Forall (fun c => isDigit c = true) [d])
      by (constructor; [now inversion Hds | constructor]).
    subst body. destruct rest as [|r rest].
    - split; [|reflexivity]. cbn [app].
      apply (takeDigits_all [d] tail); [exact Hone | reflexivity].
    - split.
      + apply (takeDigits_all [d] (46%N :: (r :: rest) ++ tail));
          [exact Hone | reflexivity].
      + cbv zeta. cbn [app].
        apply (takeDigits_all (r :: rest) tail Hrest). reflexivity. }
  destruct Hparts as [Hints Hfracs]. rewrite Hints. cbv zeta in Hfracs.
  rewrite Hfracs. cbn [app]. subst tail. rewrite takeExponent_plus by assumption.
  rewrite Z.max_l by lia.
  replace (Z.max (- (digitsValue ex - Z.of_nat (length rest))) 0) with 0 by lia.
  reflexivity.
Qed.

(** Rounding with the sign bit set gives the opposite. *)
Lemma binary_round_aux_opp (mx ex : Z) (lx : location) :
  binary_round_aux prec emax true mx ex lx
  = SFopp (binary_round_aux prec emax false mx ex lx).
Proof.
  unfold binary_round_aux.
  destruct (shr_fexp prec emax mx ex lx) as [mrs' e'].
  destruct (shr_fexp prec emax _ e' loc_Exact) as [mrs'' e''].
  destruct (shr_m mrs'') as [|p|p]; try reflexivity.
  now destruct (e'' <=? emax - prec).
Qed.

Lemma binary_round_aux_unsigned (mx ex : Z) (lx : location) :
  match binary_round_aux prec emax false mx ex lx with
  | S754_zero s | S754_infinity s | S754_finite s _ _ => s = false
  | S754_nan => True
  end.
Proof.
  unfold binary_round_aux.
  destruct (shr_fexp prec emax mx ex lx) as [mrs' e'].
  destruct (shr_fexp prec emax _ e' loc_Exact) as [mrs'' e''].
  destruct (shr_m mrs'') as [|p|p]; try reflexivity.
  now destruct (e'' <=? emax - prec).
Qed.

Lemma roundRatio_negated (p : Z) (x y : float) (M : positive) (E : Z) :
  roundRatio false p 1 = x ->
  Prim2SF x = S754_finite false M E -> Prim2SF y = S754_finite true M E ->
  roundRatio true p 1 = y.
Proof.
  unfold roundRatio.
  destruct (SFdiv_core_binary prec emax p 0 1 0) as [[m e] l].
  rewrite binary_round_aux_opp.
  pose proof (binary_round_aux_unsigned m e l) as Hsign.
  destruct (binary_round_aux prec emax false m e l) as [s|s| |s m' e'];
    intros <- Hx Hy.
  - rewrite Prim2SF_SF2Prim in Hx by reflexivity. discriminate Hx.
  - rewrite Prim2SF_SF2Prim in Hx by reflexivity. discriminate Hx.
  - rewrite Prim2SF_SF2Prim in Hx by reflexivity. discriminate Hx.
  - subst s. apply Prim2SF_inj. rewrite Hy.
    change (SF2Prim (SFopp (S754_finite false m' e')))
      with (- SF2Prim (S754_finite false m' e'))%float.
    now rewrite opp_spec, Hx.
Qed.

End LargeFacts.

(** ** Whole millions of every size *)

Section LargeRoundTrip.
Import JSString JSNumber Content.

(** The compact form of a whole number of millions from [10^27] on. *)
Lemma formatCompactNumber_large (neg : bool) (q : Z) (d : N) (rest ex : jsstring) :
  10 ^ 21 <= q -> representable (q * 10 ^ 6) ->
  Forall (fun c => isDigit c = true) (d :: rest) ->
  Forall (fun c => isDigit c = true) ex -> (2 <= length ex)%nat ->
  toString (ofZ q)
  = d :: match rest with [] => [] | _ => 46%N :: rest end ++ 101%N :: 43%N :: ex ->
  formatCompactNumber (ofZ (if neg then - (q * 10 ^ 6) else q * 10 ^ 6))
  = (if neg then lit "-" else [])
    ++ (d :: match rest with [] => [] | _ => 44%N :: rest end ++ 101%N :: 43%N :: ex)
    ++ lit " " ++ mln.
Proof.
  intros Hq Hrep Hds Hex Hlen Hstring.
  pose proof (representable_millions q Hrep) as Hrq.
  assert (Ha : 0 < q * 10 ^ 6) by lia.
  destruct (abs_integer _ Ha Hrep) as [Habs Habs'].
  destruct (ltb_zero_integer _ Ha Hrep) as [Hpos Hneg].
  destruct million_shape as (Hc & Hd & Hv).
  unfold formatCompactNumber.
  replace (PrimFloat.abs (ofZ (if neg then - (q * 10 ^ 6) else q * 10 ^ 6)))
    with (ofZ (q * 10 ^ 6)) by now destruct neg.
  replace (ofZ (if neg then - (q * 10 ^ 6) else q * 10 ^ 6) <? 0)%float with neg
    by now destruct neg.
  rewrite (leb_integer _ _ _ _ _ Hc Hd Hv Ha Hrep).
  replace (10 ^ 6 <=? q * 10 ^ 6) with true by (symmetry; apply Z.leb_le; lia).
  rewrite (div_integer _ _ _ _ q Hc Hv) by (lia || assumption).
  now apply formatWithSuffix_exponent.
Qed.

(** Whole millions from [10^27] on come back. *)
Lemma roundTrip_large_signed (neg : bool) (q : Z) :
  10 ^ 21 <= q -> representable (q * 10 ^ 6) ->
  roundTrip (if neg then - (q * 10 ^ 6) else q * 10 ^ 6)
  = ofZ (if neg then - (q * 10 ^ 6) else q * 10 ^ 6).
Proof.
  intros Hq Hrep. pose proof (representable_millions q Hrep) as Hrq.
  assert (Hpos : 0 < q) by lia.
  destruct (toString_exponent q Hq Hrq)
    as (d & rest & ex & Hds & Hex & Hlen & He & Hstring & Hround).
  unfold roundTrip.
  rewrite (formatCompactNumber_large neg q d rest ex Hq Hrep Hds Hex Hlen Hstring).
  assert (Hd : (48 <= d <= 57)%N) by (apply digit_range; now inversion Hds).
  assert (Hrest : Forall (fun c => isDigit c = true) rest) by now inversion Hds.
  set (tail := 101%N :: 43%N :: ex).
  assert (Htail : Forall (fun c => (33 <= c < 65 \/ c = 101)%N) tail).
  { subst tail. constructor; [lia|]. constructor; [lia|]. now apply digits_safe. }
  set (sign := if neg then lit "-" else []).
  assert (Hsign : Forall (fun c => (33 <= c < 65 \/ c = 101)%N) sign
                  /\ ~ In 44%N sign).
  { subst sign. destruct neg.
    - change (lit "-") with [45%N]. split; [repeat constructor; lia|].
      simpl. intros [H | []]. lia.
    - split; [constructor | intros []]. }
  destruct Hsign as [Hsafe Hcomma].
  set (body := sign ++ d :: match rest with [] => [] | _ => 44%N :: rest end ++ tail).
  assert (Hbody : body <> [] /\ Forall (fun c => (33 <= c < 65 \/ c = 101)%N) body).
  { split; [subst body; now destruct sign|].
    subst body. apply Forall_app. split; [exact Hsafe|].
    constructor; [lia|]. apply Forall_app. split; [|exact Htail].
    destruct rest as [|r rest]; [constructor|].
    constructor; [lia|]. now apply digits_safe. }
  destruct Hbody as [Hne Hall].
  assert (Hdot : replaceFirst body (lit ",") (lit ".")
                 = sign ++ d :: match rest with [] => [] | _ => 46%N :: rest end ++ tail).
  { change (lit ",") with [44%N]. change (lit ".") with [46%N]. subst body.
    destruct rest as [|r rest].
    - apply replaceFirst_absent_char. intros H. apply in_app_or in H as [H | H];
        [now apply Hcomma|].
      subst tail. simpl in H. destruct H as [H | [H | [H | H]]]; try lia.
      revert H. apply digits_without; [exact Hex | lia].
    - change (sign ++ d :: (44%N :: r :: rest) ++ tail)
        with (sign ++ [d] ++ [44%N] ++ ((r :: rest) ++ tail)).
      rewrite (app_assoc sign [d]).
      rewrite replaceFirst_found.
      + now rewrite <- app_assoc.
      + intros H. apply in_app_or in H as [H | [H | []]]; [now apply Hcomma | lia]. }
  rewrite app_assoc. fold body.
  rewrite (parse_millions body Hne Hall). cbv zeta. rewrite Hdot. subst sign tail.
  assert (Hexne : ex <> []) by (destruct ex; [simpl in Hlen; lia | discriminate]).
  rewrite (parseFloat_exponent neg d rest ex Hds Hex Hexne He).
  destruct (ofZ_exact q Hpos Hrq) as (M & E & _ & _ & _ & Hx & Hy).
  assert (Hparsed : roundRatio neg
                      (digitsValue (d :: rest)
                       * 10 ^ (digitsValue ex - Z.of_nat (length rest))) 1
                    = ofZ (if neg then - q else q)).
  { destruct neg; [|exact Hround].
    exact (roundRatio_negated _ _ _ M E Hround Hx Hy). }
  rewrite Hparsed, finite_signed by (lia || assumption).
  destruct million_shape as (Hc & _ & Hv).
  destruct (mul_integer _ _ _ _ q Hc Hv ltac:(lia) ltac:(lia) Hrq Hrep) as [Hp Hm].
  now destruct neg.
Qed.

(** Whole millions that are doubles come back, whatever their size. *)
Lemma roundTrip_millions (n : Z) :
  10 ^ 6 <= Z.abs n -> (10 ^ 6 | n) -> representable n -> roundTrip n = ofZ n.
Proof.
  intros Hn Hdiv Hrep.
  destruct (signed_multiple n (10 ^ 6) ltac:(lia) Hdiv ltac:(lia))
    as (q & Hq & Habs & Heq).
  assert (Hrq : representable (q * 10 ^ 6)).
  { rewrite <- Habs. now apply representable_abs. }
  rewrite Heq. destruct (Z.lt_ge_cases q (10 ^ 21)) as [Hsmall | Hlarge].
  - now apply roundTrip_millions_signed.
  - now apply roundTrip_large_signed.
Qed.

Lemma roundTrip_thousands (n : Z) :
  1000 <= Z.abs n < 10 ^ 6 -> (1000 | n) -> roundTrip n = ofZ n.
Proof.
  intros Hn Hdiv.
  destruct (signed_multiple n 1000 ltac:(lia) Hdiv ltac:(lia))
    as (q & Hq & Habs & Heq).
  rewrite Heq. apply roundTrip_thousands_signed. lia.
Qed.

End LargeRoundTrip.

(** ** Formatting and parsing back, for every size *)

Section RoundTripTheorem.
Import JSString JSNumber Content.

(** C10, as the code has it. Parsing what [formatCompactNumber] wrote gives
    the integer back when [|n| < 1000], when [n] is a multiple of 1000 with
    [1000 <= |n| < 10^6], and when [n] is a multiple of [10^6] with
    [10^6 <= |n|] that is a double, whatever its size: below [10^27] it is
    written with all its digits, and from there on in exponent notation.
    Every integer up to [2^53] in absolute value is a double. *)
Theorem roundTrip_exact :
  (forall n, Z.abs n < 1000 -> roundTrip n = ofZ n)
  /\ (forall n, 1000 <= Z.abs n < 10 ^ 6 -> (1000 | n) -> roundTrip n = ofZ n)
  /\ (forall n, 10 ^ 6 <= Z.abs n -> (10 ^ 6 | n) -> representable n ->
        roundTrip n = ofZ n)
  /\ (forall n, Z.abs n <= 2 ^ 53 -> representable n).
Proof.
  split; [|split; [|split]].
  - intros n Hn. apply exact_roundTrip.
    apply (holdsBetween exactAt (-999) 1000 1 (Z.to_nat 1999) units_checked);
      [lia | apply Z.divide_1_l | rewrite Z2Nat.id; lia | lia | apply Z.divide_1_l].
  - exact roundTrip_thousands.
  - exact roundTrip_millions.
  - exact representable_small.
Qed.

Lemma roundTrip_exact_witness :
  roundTrip (-42) = ofZ (-42)
  /\ roundTrip 12000 = ofZ 12000
  /\ roundTrip (-3000000) = ofZ (-3000000)
  /\ roundTrip 5000000000 = ofZ 5000000000
  /\ roundTrip (2 ^ 80 * 10 ^ 6) = ofZ (2 ^ 80 * 10 ^ 6).
Proof.
  destruct roundTrip_exact as (Hunits & Hthousands & Hmillions & Hsmall).
  split; [apply Hunits; simpl; lia | split; [|split; [|split]]].
  - apply Hthousands; [simpl; lia | now exists 12].
  - apply Hmillions; [simpl; lia | now exists (-3) | apply Hsmall; simpl; lia].
  - apply Hmillions; [simpl; lia | now exists 5000 | apply Hsmall; simpl; lia].
  - apply Hmillions; [simpl; lia | now exists (2 ^ 80) |].
    exists 15625, 86. split; [reflexivity | split; simpl; lia].
Defined.

(** C10 as it was stated fails at 16100, a multiple of 100: it is written
    [16,1] with the suffix of thousands, [16.1] is read back as the double
    nearest to it, and that double times 1000 is the double after 16100. It
    fails in the same way at 4100000, a multiple of 100000, which comes back
    as the double before it. *)
Lemma roundTrip_counterexample :
  formatCompactNumber (ofZ 16100) = lit "16,1 тыс"
  /\ roundTrip 16100 = (parseFloat (lit "16.1") * 1000)%float
  /\ roundTrip 16100 = next_up (ofZ 16100)
  /\ PrimFloat.Leibniz.eqb (roundTrip 16100) (ofZ 16100) = false
  /\ formatCompactNumber (ofZ 4100000) = lit "4,1 млн"
  /\ roundTrip 4100000 = next_down (ofZ 4100000)
  /\ PrimFloat.Leibniz.eqb (roundTrip 4100000) (ofZ 4100000) = false.
Proof. repeat split; vm_compute; reflexivity. Qed.

End RoundTripTheorem.
